(** * reqproxy: stream bridge, proxy dispatcher and tracers

    A shallow embedding of the TypeScript sources
    - [streaming/streamify.ts]  (class [Streamify], the stream bridge),
    - [proxy/ProxyServer.ts]    (class [ProxyServer], the dispatcher),
    - [tracer/ZipkinTracer.ts]  (class [ZipkinTracerImpl]),
    - [tracer/ConsoleTracer.ts] (class [ConsoleTracer]),
    - [main.ts]                 (the handler of the catch-all route),
    together with the part of the Node.js runtime and of the zipkin
    library these call into (event emitters, readable and writable
    streams, buffers, [JSON.stringify], trace contexts).

    JavaScript objects that are mutated in place live in an explicit store;
    methods are state transformers that either return or throw. *)

From Stdlib Require Import ZArith Lia DecimalString DecimalPos.
From stdpp Require Import base gmap strings list.

Local Open Scope string_scope.
Local Open Scope list_scope.

(** ** JavaScript completions *)

(** Errors and the values passed to listeners.  [ERR_UNHANDLED_ERROR] is
    the error Node makes of an ['error'] event that nobody listens to and
    whose argument is not an [Error]; the argument is its [context]. *)
Inductive JsError :=
| Error (msg : string)
| TypeError (msg : string)
| ERR_UNHANDLED_ERROR (context : JsValue)
with JsValue :=
| undefined
| JsString (s : string)
| JsErr (e : JsError).

Fixpoint JsError_eq (x y : JsError) : {x = y} + {x <> y}
with JsValue_eq (x y : JsValue) : {x = y} + {x <> y}.
Proof.
  - decide equality; apply String.string_dec.
  - decide equality; apply String.string_dec.
Defined.

#[global] Instance JsError_eq_dec : EqDecision JsError := JsError_eq.

#[global] Instance JsValue_eq_dec : EqDecision JsValue := JsValue_eq.

(** What an emitter throws for an ['error'] event emitted with [arg] when
    it has no listener for it: [arg] itself if that is an [Error]. *)
Definition unhandled (arg : JsValue) : JsError :=
  match arg with
  | JsErr e => e
  | _ => ERR_UNHANDLED_ERROR arg
  end.

(** A method call on store [S] either returns a value or throws; in both
    cases the store keeps the mutations done so far. *)
Inductive Outcome (S A : Type) : Type :=
| Returned (a : A) (s : S)
| Thrown (e : JsError) (s : S).
Arguments Returned {S A} a s.
Arguments Thrown {S A} e s.

Definition Js (S A : Type) : Type := S -> Outcome S A.

Definition ret {S A} (a : A) : Js S A := fun s => Returned a s.

Definition bind {S A B} (m : Js S A) (k : A -> Js S B) : Js S B :=
  fun s => match m s with
           | Returned a s' => k a s'
           | Thrown e s' => Thrown e s'
           end.

Definition throw {S A} (e : JsError) : Js S A := fun s => Thrown e s.
Definition gets {S A} (f : S -> A) : Js S A := fun s => Returned (f s) s.
Definition modify {S} (f : S -> S) : Js S unit := fun s => Returned tt (f s).

Notation "x <~ m ;; k" := (bind m (fun x => k))
  (at level 100, m at next level, right associativity).
Notation "m ;;; k" := (bind m (fun _ => k))
  (at level 100, right associativity).

(** [Array.prototype.forEach]: the callback runs on every element in index
    order; an exception leaves the loop. *)
Fixpoint forEach {S A} (f : A -> Js S unit) (l : list A) : Js S unit :=
  match l with
  | [] => ret tt
  | x :: l' => f x ;;; forEach f l'
  end.

Definition state_of {S A} (o : Outcome S A) : S :=
  match o with Returned _ s => s | Thrown _ s => s end.

Definition returns {S A} (o : Outcome S A) : bool :=
  match o with Returned _ _ => true | Thrown _ _ => false end.

(** ** The Node.js objects the bridge talks to *)

Inductive BufferEncoding :=
| enc_ascii | enc_utf8 | enc_utf16le | enc_ucs2
| enc_base64 | enc_latin1 | enc_binary | enc_hex.

#[global] Instance BufferEncoding_eq_dec : EqDecision BufferEncoding.
Proof. solve_decision. Defined.

(** Function objects.  The bridge creates three kinds of closures; every
    creation yields a new object, told apart by its allocation number.
    [external] stands for a function supplied by the bridge's user (a write
    completion callback). *)
Inductive Fn :=
| relay (id : nat) (event : string)         (* (arg) => { this.emit(event, arg); } *)
| onend (id : nat)                          (* () => { this.push(null); } *)
| onreadable (id : nat) (size : option nat) (* the closure built by _read(size) *)
| external (id : nat).

#[global] Instance Fn_eq_dec : EqDecision Fn.
Proof. solve_decision. Defined.

(** The argument triple of a write: [[chunk, encoding, callback]].  The
    callback is a function of the caller, given by its number. *)
Record WriteArgs := {
  chunk : string;
  encoding : BufferEncoding;
  callback : nat
}.

#[global] Instance WriteArgs_eq_dec : EqDecision WriteArgs.
Proof. solve_decision. Defined.

(** One entry of an emitter's listener array. *)
Record Registration := {
  r_event : string;
  r_fn : Fn;
  r_once : bool
}.

#[global] Instance Registration_eq_dec : EqDecision Registration.
Proof. solve_decision. Defined.

(** A stream handed to the bridge: an event emitter with a readable side
    (bytes buffered for [read]) and a writable side (the writes it has
    accepted and how many of them it has completed). *)
Record Stream := {
  st_Readable : bool;                 (* instanceof Readable *)
  st_Writable : bool;                 (* instanceof Writable *)
  st_listeners : list Registration;
  st_buffer : string;
  st_ended : bool;
  st_writes : list WriteArgs;
  st_completed : nat;
  st_finished : bool                  (* end() has been called *)
}.

Definition new_Stream (r w : bool) : Stream :=
  {| st_Readable := r; st_Writable := w; st_listeners := [];
     st_buffer := EmptyString; st_ended := false;
     st_writes := []; st_completed := 0; st_finished := false |}.

Definition set_listeners (f : list Registration -> list Registration) (s : Stream) : Stream :=
  {| st_Readable := st_Readable s; st_Writable := st_Writable s;
     st_listeners := f (st_listeners s);
     st_buffer := st_buffer s; st_ended := st_ended s;
     st_writes := st_writes s; st_completed := st_completed s;
     st_finished := st_finished s |}.

Definition set_buffer (b : string) (s : Stream) : Stream :=
  {| st_Readable := st_Readable s; st_Writable := st_Writable s;
     st_listeners := st_listeners s;
     st_buffer := b; st_ended := st_ended s;
     st_writes := st_writes s; st_completed := st_completed s;
     st_finished := st_finished s |}.

Definition set_writes (f : list WriteArgs -> list WriteArgs) (s : Stream) : Stream :=
  {| st_Readable := st_Readable s; st_Writable := st_Writable s;
     st_listeners := st_listeners s;
     st_buffer := st_buffer s; st_ended := st_ended s;
     st_writes := f (st_writes s); st_completed := st_completed s;
     st_finished := st_finished s |}.

Definition set_completed (n : nat) (s : Stream) : Stream :=
  {| st_Readable := st_Readable s; st_Writable := st_Writable s;
     st_listeners := st_listeners s;
     st_buffer := st_buffer s; st_ended := st_ended s;
     st_writes := st_writes s; st_completed := n;
     st_finished := st_finished s |}.

Definition set_finished (b : bool) (s : Stream) : Stream :=
  {| st_Readable := st_Readable s; st_Writable := st_Writable s;
     st_listeners := st_listeners s;
     st_buffer := st_buffer s; st_ended := st_ended s;
     st_writes := st_writes s; st_completed := st_completed s;
     st_finished := b |}.

(** [emitter.on] and [emitter.once] append to the listener array. *)
Definition Stream_on (event : string) (f : Fn) : Stream -> Stream :=
  set_listeners (fun l => l ++ [ {| r_event := event; r_fn := f; r_once := false |} ]).

Definition Stream_once (event : string) (f : Fn) : Stream -> Stream :=
  set_listeners (fun l => l ++ [ {| r_event := event; r_fn := f; r_once := true |} ]).

Fixpoint remove_first {A} (p : A -> bool) (l : list A) : list A :=
  match l with
  | [] => []
  | x :: l' => if p x then l' else x :: remove_first p l'
  end.

Definition remove_last {A} (p : A -> bool) (l : list A) : list A :=
  rev (remove_first p (rev l)).

Definition listens (event : string) (f : Fn) (r : Registration) : bool :=
  bool_decide (r_event r = event) && bool_decide (r_fn r = f).

(** [emitter.removeListener(event, f)] drops the most recently added entry
    for [f] under [event], if there is one. *)
Definition Stream_removeListener (event : string) (f : Fn) : Stream -> Stream :=
  set_listeners (remove_last (listens event f)).

(** [readable.read(size)]: with no size, everything buffered; with a size,
    that many bytes once they are there (or what is left after the end);
    [null] (here [None]) when nothing can be returned. *)
Definition howMuchToRead (size : option nat) (s : Stream) : nat :=
  let len := String.length (st_buffer s) in
  match size with
  | None => len
  | Some n => if (n <=? len)%nat then n else if st_ended s then len else 0
  end.

Definition Stream_read (size : option nat) (s : Stream) : option string * Stream :=
  let n := howMuchToRead size s in
  if (n =? 0)%nat then (None, s)
  else (Some (String.substring 0 n (st_buffer s)),
        set_buffer (String.substring n (String.length (st_buffer s) - n) (st_buffer s)) s).

(** [writable.write(chunk, encoding, callback)] queues the write. *)
Definition Stream_write (a : WriteArgs) : Stream -> Stream :=
  set_writes (fun l => l ++ [a]).

Definition Stream_end : Stream -> Stream := set_finished true.

(** ** streaming/streamify.ts *)

Definition SOURCE_EVENTS : list string := ["error"; "close"].
Definition DEST_EVENTS : list string := ["drain"; "close"].

Record StreamifyOptions := {
  readable : option bool;
  writable : option bool
}.

(** [interface Source]; [source_stream] is a reference into the store. *)
Record Source := {
  source_stream : nat;
  source_listeners : gmap string Fn;
  source_onend : Fn;
  source_onreadable : option Fn
}.

(** [interface Dest]. *)
Record Dest := {
  dest_stream : nat;
  dest_listeners : gmap string Fn
}.

(** What [Streamify] inherits from [Duplex]: the readable side fed by
    [push], and the events emitted on the bridge itself. *)
Record Duplex := {
  pushes : list (option string);      (* every call of push, [None] for null *)
  readableBuffer : list string;       (* chunks accepted and not yet consumed *)
  readableEnded : bool;               (* end of stream has been recorded *)
  endEmitted : bool;
  finishArmed : bool;                 (* the constructor's once('finish') listener is still registered *)
  errorListeners : nat;               (* listeners for 'error' the bridge's user has registered on it *)
  emitted : list (string * JsValue)   (* events emitted on the bridge, oldest first *)
}.

Record Streamify := {
  _source : option Source;
  _dest : option Dest;
  _sourceRead : option nat;
  _destWritten : list WriteArgs;
  _readable : bool;
  _writable : bool;
  super : Duplex
}.

(** The store: the bridge, the streams it may be connected to, the counter
    that numbers function objects, and the calls made so far to functions
    supplied by the bridge's user. *)
Record World := {
  this : Streamify;
  streams : gmap nat Stream;
  next_id : nat;
  invoked : list (Fn * JsValue)
}.

Definition set_source (v : option Source) (b : Streamify) : Streamify :=
  {| _source := v; _dest := _dest b; _sourceRead := _sourceRead b;
     _destWritten := _destWritten b; _readable := _readable b;
     _writable := _writable b; super := super b |}.

Definition set_dest (v : option Dest) (b : Streamify) : Streamify :=
  {| _source := _source b; _dest := v; _sourceRead := _sourceRead b;
     _destWritten := _destWritten b; _readable := _readable b;
     _writable := _writable b; super := super b |}.

Definition set_sourceRead (v : option nat) (b : Streamify) : Streamify :=
  {| _source := _source b; _dest := _dest b; _sourceRead := v;
     _destWritten := _destWritten b; _readable := _readable b;
     _writable := _writable b; super := super b |}.

Definition set_destWritten (v : list WriteArgs) (b : Streamify) : Streamify :=
  {| _source := _source b; _dest := _dest b; _sourceRead := _sourceRead b;
     _destWritten := v; _readable := _readable b;
     _writable := _writable b; super := super b |}.

Definition upd_super (f : Duplex -> Duplex) (b : Streamify) : Streamify :=
  {| _source := _source b; _dest := _dest b; _sourceRead := _sourceRead b;
     _destWritten := _destWritten b; _readable := _readable b;
     _writable := _writable b; super := f (super b) |}.

Definition upd_this (f : Streamify -> Streamify) (w : World) : World :=
  {| this := f (this w); streams := streams w; next_id := next_id w;
     invoked := invoked w |}.

Definition stream_at (sid : nat) (w : World) : Stream :=
  default (new_Stream false false) (streams w !! sid).

Definition upd_stream (sid : nat) (f : Stream -> Stream) (w : World) : World :=
  {| this := this w; streams := <[sid := f (stream_at sid w)]> (streams w);
     next_id := next_id w; invoked := invoked w |}.

(** Creating a function object takes the next allocation number. *)
Definition bump (w : World) : World :=
  {| this := this w; streams := streams w;
     next_id := S (next_id w); invoked := invoked w |}.

Definition alloc : Js World nat :=
  fun w => Returned (next_id w) (bump w).

Definition record_call (f : Fn) (arg : JsValue) (w : World) : World :=
  {| this := this w; streams := streams w; next_id := next_id w;
     invoked := invoked w ++ [(f, arg)] |}.

(** [readable.push(chunk)] of the bridge's base class.  A null chunk
    records the end of the stream, and is ignored when the end has been
    recorded already; data after the end is an error event. *)
Definition Duplex_push (c : option string) (d : Duplex) : Duplex :=
  let ended' := match c with None => true | Some _ => readableEnded d end in
  let buffer' := match c with
                 | Some x => if readableEnded d then readableBuffer d
                             else readableBuffer d ++ [x]
                 | None => readableBuffer d
                 end in
  let emitted' := match c with
                  | Some _ => if readableEnded d
                              then emitted d ++ [("error", JsErr (Error "stream.push() after EOF"))]
                              else emitted d
                  | None => emitted d
                  end in
  {| pushes := pushes d ++ [c]; readableBuffer := buffer';
     readableEnded := ended'; endEmitted := endEmitted d;
     finishArmed := finishArmed d;
     errorListeners := errorListeners d; emitted := emitted' |}.

Definition Duplex_emit (event : string) (arg : JsValue) (d : Duplex) : Duplex :=
  {| pushes := pushes d; readableBuffer := readableBuffer d;
     readableEnded := readableEnded d; endEmitted := endEmitted d;
     finishArmed := finishArmed d;
     errorListeners := errorListeners d; emitted := emitted d ++ [(event, arg)] |}.

(** The bridge's consumer reads all that is buffered; the first time it
    finds the buffer empty after the end was recorded, ['end'] is emitted. *)
Definition Duplex_consume (d : Duplex) : Duplex :=
  let fire := readableEnded d && negb (endEmitted d) in
  {| pushes := pushes d; readableBuffer := [];
     readableEnded := readableEnded d;
     endEmitted := endEmitted d || fire;
     finishArmed := finishArmed d;
     errorListeners := errorListeners d;
     emitted := if fire then emitted d ++ [("end", undefined)] else emitted d |}.

Definition push (c : option string) : Js World unit :=
  modify (upd_this (upd_super (Duplex_push c))).

(** [this.emit(event, arg)] on the bridge.  As on every emitter, an
    ['error'] event is thrown when nobody listens for it. *)
Definition this_emit (event : string) (arg : JsValue) : Js World unit :=
  n <~ gets (fun w => errorListeners (super (this w))) ;;
  if bool_decide (event = "error") && (n =? 0)%nat
  then throw (unhandled arg)
  else modify (upd_this (upd_super (Duplex_emit event arg))).

(** The bridge's user registers a listener for ['error'] on the bridge, or
    removes one it has registered. *)
Definition Duplex_errorListeners (f : nat -> nat) (d : Duplex) : Duplex :=
  {| pushes := pushes d; readableBuffer := readableBuffer d;
     readableEnded := readableEnded d; endEmitted := endEmitted d;
     finishArmed := finishArmed d;
     errorListeners := f (errorListeners d); emitted := emitted d |}.

Definition this_on_error : Js World unit :=
  modify (upd_this (upd_super (Duplex_errorListeners S))).

Definition this_off_error : Js World unit :=
  modify (upd_this (upd_super (Duplex_errorListeners Nat.pred))).

Definition consume : Js World unit :=
  modify (upd_this (upd_super Duplex_consume)).

Definition stream_read (sid : nat) (size : option nat) : Js World (option string) :=
  fun w => let '(data, s') := Stream_read size (stream_at sid w) in
           Returned data (upd_stream sid (fun _ => s') w).

(** [removeListener] rejects an argument that is not a function. *)
Definition stream_removeListener (sid : nat) (event : string) (f : option Fn) : Js World unit :=
  match f with
  | Some f => modify (upd_stream sid (Stream_removeListener event f))
  | None => throw (TypeError "The listener argument must be of type function. Received undefined")
  end.

(** The body of the closure [onreadable] that [_read(size)] builds;
    [self] is that closure, [this._source] is looked up when it runs.
    A chunk returned by [read] is never empty, so [if (data)] is the test
    for non-null. *)
Definition onreadable_body (self : Fn) (size : option nat) : Js World unit :=
  src <~ gets (fun w => _source (this w)) ;;
  match src with
  | None => ret tt
  | Some s =>
      data <~ stream_read (source_stream s) size ;;
      match data with
      | Some d => push (Some d)
      | None => modify (upd_stream (source_stream s) (Stream_once "readable" self))
      end
  end.

(** Calling a function object. *)
Definition call (f : Fn) (arg : JsValue) : Js World unit :=
  match f with
  | relay _ event => this_emit event arg
  | onend _ => push None
  | onreadable _ size => onreadable_body f size
  | external _ => modify (record_call f arg)
  end.

(** [emitter.emit(event, arg)] on a stream of the store: the listeners
    registered for [event] at that moment run in registration order, a
    [once] listener being unregistered just before it runs.  An ['error']
    event nobody listens to is thrown. *)
Definition emit (sid : nat) (event : string) (arg : JsValue) : Js World bool :=
  ls <~ gets (fun w => filter (fun r => r_event r = event) (st_listeners (stream_at sid w))) ;;
  match ls with
  | [] =>
      if bool_decide (event = "error")
      then throw (unhandled arg)
      else ret false
  | _ =>
      forEach (fun r =>
        (if r_once r
         then modify (upd_stream sid (set_listeners (remove_first (fun x => bool_decide (x = r)))))
         else ret tt) ;;;
        call (r_fn r) arg) ls ;;;
      ret true
  end.

(** The destination completes the oldest write it has not completed yet
    and calls that write's callback. *)
Definition complete_write (sid : nat) : Js World unit :=
  st <~ gets (stream_at sid) ;;
  match st_writes st !! st_completed st with
  | Some a =>
      modify (upd_stream sid (set_completed (S (st_completed st)))) ;;;
      call (external (callback a)) undefined
  | None => ret tt
  end.

Fixpoint repeat_js {S} (n : nat) (m : Js S unit) : Js S unit :=
  match n with
  | 0 => ret tt
  | S n' => m ;;; repeat_js n' m
  end.

(** The destination completes everything it has accepted. *)
Definition complete_all (sid : nat) : Js World unit :=
  st <~ gets (stream_at sid) ;;
  repeat_js (length (st_writes st) - st_completed st) (complete_write sid).

(** [constructor(options)] *)
Definition Streamify_new (options : StreamifyOptions) : Streamify :=
  let readable := default true (readable options) in
  let writable := default true (writable options) in
  {| _source := None; _dest := None; _sourceRead := None;
     _destWritten := [];
     _readable := readable; _writable := writable;
     super := {| pushes := []; readableBuffer := []; readableEnded := false;
                 endEmitted := false; finishArmed := writable;
                 errorListeners := 0; emitted := [] |} |}.

Definition new_World (options : StreamifyOptions) : World :=
  {| this := Streamify_new options; streams := ∅; next_id := 0; invoked := [] |}.

(** The bridge's writable side has finished: ['finish'] is emitted, and the
    listener the constructor registered with [once] runs if it is there. *)
Definition finish : Js World unit :=
  armed <~ gets (fun w => finishArmed (super (this w))) ;;
  this_emit "finish" undefined ;;;
  if armed : bool then
    modify (upd_this (upd_super (fun d =>
      {| pushes := pushes d; readableBuffer := readableBuffer d;
         readableEnded := readableEnded d; endEmitted := endEmitted d;
         finishArmed := false; errorListeners := errorListeners d;
         emitted := emitted d |}))) ;;;
    dst <~ gets (fun w => _dest (this w)) ;;
    match dst with
    | Some d => modify (upd_stream (dest_stream d) Stream_end)
    | None => ret tt
    end
  else ret tt.

(** [_read(size)] *)
Definition _read (size : option nat) : Js World unit :=
  src <~ gets (fun w => _source (this w)) ;;
  match src with
  | Some s =>
      id <~ alloc ;;
      let f := onreadable id size in
      modify (upd_this (set_source (Some
        {| source_stream := source_stream s;
           source_listeners := source_listeners s;
           source_onend := source_onend s;
           source_onreadable := Some f |}))) ;;;
      call f undefined
  | None => modify (upd_this (set_sourceRead size))
  end.

(** [_write(chunk, encoding, callback)] *)
Definition _write (a : WriteArgs) : Js World unit :=
  dst <~ gets (fun w => _dest (this w)) ;;
  match dst with
  | Some d => modify (upd_stream (dest_stream d) (Stream_write a))
  | None => modify (upd_this (fun b => set_destWritten (_destWritten b ++ [a]) b))
  end.

(** [this._source!.listeners[event] = onevent] *)
Definition source_listen (event : string) (onevent : Fn) : Js World unit :=
  src <~ gets (fun w => _source (this w)) ;;
  match src with
  | Some s =>
      modify (upd_this (set_source (Some
        {| source_stream := source_stream s;
           source_listeners := <[event := onevent]> (source_listeners s);
           source_onend := source_onend s;
           source_onreadable := source_onreadable s |})))
  | None => throw (TypeError "Cannot read properties of undefined (reading 'listeners')")
  end.

(** [addSource(stream)] *)
Definition addSource (stream : nat) : Js World unit :=
  src <~ gets (fun w => _source (this w)) ;;
  match src with
  | Some _ => throw (Error "A source stream has already been added.")
  | None =>
      id <~ alloc ;;
      let onend := onend id in
      modify (upd_this (set_source (Some
        {| source_stream := stream; source_listeners := ∅;
           source_onend := onend; source_onreadable := None |}))) ;;;
      forEach (fun event =>
        id <~ alloc ;;
        let onevent := relay id event in
        source_listen event onevent ;;;
        modify (upd_stream stream (Stream_on event onevent))) SOURCE_EVENTS ;;;
      modify (upd_stream stream (Stream_on "end" onend)) ;;;
      size <~ gets (fun w => _sourceRead (this w)) ;;
      _read size
  end.

(** [removeSource()] *)
Definition removeSource : Js World unit :=
  src <~ gets (fun w => _source (this w)) ;;
  match src with
  | None => throw (Error "A source stream has not been added.")
  | Some source =>
      forEach (fun event =>
        stream_removeListener (source_stream source) event
          (source_listeners source !! event)) SOURCE_EVENTS ;;;
      stream_removeListener (source_stream source) "readable" (source_onreadable source) ;;;
      stream_removeListener (source_stream source) "end" (Some (source_onend source)) ;;;
      modify (upd_this (set_source None))
  end.

(** [this._dest!.listeners[event] = onevent] *)
Definition dest_listen (event : string) (onevent : Fn) : Js World unit :=
  dst <~ gets (fun w => _dest (this w)) ;;
  match dst with
  | Some d =>
      modify (upd_this (set_dest (Some
        {| dest_stream := dest_stream d;
           dest_listeners := <[event := onevent]> (dest_listeners d) |})))
  | None => throw (TypeError "Cannot read properties of undefined (reading 'listeners')")
  end.

(** [addDest(stream)] *)
Definition addDest (stream : nat) : Js World unit :=
  dst <~ gets (fun w => _dest (this w)) ;;
  match dst with
  | Some _ => throw (Error "A destination stream has already been added.")
  | None =>
      modify (upd_this (set_dest (Some
        {| dest_stream := stream; dest_listeners := ∅ |}))) ;;;
      forEach (fun event =>
        id <~ alloc ;;
        let onevent := relay id event in
        dest_listen event onevent ;;;
        modify (upd_stream stream (Stream_on event onevent))) DEST_EVENTS ;;;
      queued <~ gets (fun w => _destWritten (this w)) ;;
      if bool_decide (length queued = 0) then ret tt
      else
        forEach (fun args => modify (upd_stream stream (Stream_write args))) queued ;;;
        modify (upd_this (set_destWritten []))
  end.

(** [removeDest()] *)
Definition removeDest : Js World unit :=
  dst <~ gets (fun w => _dest (this w)) ;;
  match dst with
  | None => throw (Error "A destination stream has not been added.")
  | Some dest =>
      forEach (fun event =>
        stream_removeListener (dest_stream dest) event
          (dest_listeners dest !! event)) DEST_EVENTS ;;;
      modify (upd_this (set_dest None)) ;;;
      modify (upd_this (set_destWritten []))
  end.

(** [resolve(stream)] *)
Definition resolve (stream : nat) : Js World unit :=
  w0 <~ gets id ;;
  (if _readable (this w0) && st_Readable (stream_at stream w0)
   then addSource stream else ret tt) ;;;
  w1 <~ gets id ;;
  (if _writable (this w1) && st_Writable (stream_at stream w1)
   then addDest stream else ret tt).

(** [unresolve()] *)
Definition unresolve : Js World unit :=
  src <~ gets (fun w => _source (this w)) ;;
  (if src is Some _ then removeSource else ret tt) ;;;
  dst <~ gets (fun w => _dest (this w)) ;;
  (if dst is Some _ then removeDest else ret tt).

(** The errors of the bridge, by the message they carry. *)
Definition AlreadyAttached (e : JsError) : Prop :=
  e = Error "A source stream has already been added." \/
  e = Error "A destination stream has already been added.".

Definition NotAttached (e : JsError) : Prop :=
  e = Error "A source stream has not been added." \/
  e = Error "A destination stream has not been added.".

(** A function object created before the counter reached [n]. *)
Definition fn_older (n : nat) (f : Fn) : Prop :=
  match f with
  | relay i _ | onend i | onreadable i _ => i < n
  | external _ => True
  end.

(** The listeners of a stream were all created earlier than anything the
    store will create from now on. *)
Definition listeners_older (sid : nat) (w : World) : Prop :=
  Forall (fun r => fn_older (next_id w) (r_fn r)) (st_listeners (stream_at sid w)).

(** What [addSource(stream)] leaves in [this._source] when the counter
    stood at [n] and the remembered read size was [size]. *)
Definition attached_source (stream n : nat) (size : option nat) : Source :=
  {| source_stream := stream;
     source_listeners :=
       <["close" := relay (2 + n) "close"]> (<["error" := relay (1 + n) "error"]> ∅);
     source_onend := onend n;
     source_onreadable := Some (onreadable (3 + n) size) |}.

(** The listeners [addSource] adds to the stream: the two relays, the end
    listener and, when the first read found no data, the re-armed
    ['readable'] listener. *)
Definition attach_listeners (n : nat) (size : option nat) (data : option string)
  : list Registration :=
  [ {| r_event := "error"; r_fn := relay (1 + n) "error"; r_once := false |};
    {| r_event := "close"; r_fn := relay (2 + n) "close"; r_once := false |};
    {| r_event := "end"; r_fn := onend n; r_once := false |} ] ++
  match data with
  | Some _ => []
  | None => [ {| r_event := "readable"; r_fn := onreadable (3 + n) size; r_once := true |} ]
  end.

(** The record of a completed write: its callback was called, with no error. *)
Definition completion (a : WriteArgs) : Fn * JsValue := (external (callback a), undefined).

(** Sample data: a new bridge, next to a readable stream (number 7) and a
    writable stream (number 9) that nothing has touched yet. *)
Definition fresh_bridge : World :=
  {| this := Streamify_new {| readable := None; writable := None |};
     streams := <[7 := new_Stream true false]> (<[9 := new_Stream false true]> ∅);
     next_id := 0;
     invoked := [] |}.

Definition sample_write (k : nat) (c : string) : WriteArgs :=
  {| chunk := c; encoding := enc_utf8; callback := k |}.

(** Nobody listens to [event] on the stream. *)
Definition no_listener (event : string) (sid : nat) (w : World) : Prop :=
  filter (fun r => r_event r = event) (st_listeners (stream_at sid w)) = [].

(** ** JavaScript values and built-ins used by the dispatcher *)

Definition dquote : string := String (Ascii.ascii_of_nat 34) EmptyString.
Definition backslash : string := String (Ascii.ascii_of_nat 92) EmptyString.

(** [String.prototype.toUpperCase] on the letters a to z. *)
Definition upper_ascii (c : Ascii.ascii) : Ascii.ascii :=
  let n := Ascii.nat_of_ascii c in
  if (97 <=? n)%nat && (n <=? 122)%nat then Ascii.ascii_of_nat (n - 32) else c.

Fixpoint toUpperCase (s : string) : string :=
  match s with
  | EmptyString => EmptyString
  | String c s' => String (upper_ascii c) (toUpperCase s')
  end.

(** How a template literal or [toString] prints an integer that is less
    than 10^21 in absolute value, as status codes and byte values are. *)
Definition Number_toString (z : Z) : string := NilZero.string_of_int (Z.to_int z).

(** A JavaScript number, as [JSON.parse] delivers it.  A finite number
    other than zero is given by its sign and by its shortest decimal form
    [s * 10^e], from which [Number::toString] makes its text; trailing
    zeros of [s] count as part of the exponent. *)
Inductive JsNumber :=
| js_zero                                          (* 0 and -0 *)
| js_decimal (negative : bool) (s : positive) (e : Z)
| js_not_finite.                                   (* NaN, Infinity, -Infinity *)

Definition js_integer (z : Z) : JsNumber :=
  match z with
  | Z0 => js_zero
  | Zpos p => js_decimal false p 0
  | Zneg p => js_decimal true p 0
  end.

(** [s * 10^e] with the trailing zeros of [s] moved into the exponent. *)
Fixpoint shortest (fuel : nat) (s : positive) (e : Z) : positive * Z :=
  match fuel with
  | 0 => (s, e)
  | S fuel' =>
      if (Zpos s mod 10 =? 0)%Z
      then match (Zpos s / 10)%Z with
           | Zpos s' => shortest fuel' s' (e + 1)
           | _ => (s, e)
           end
      else (s, e)
  end.

Fixpoint zeros (n : nat) : string :=
  match n with
  | 0 => EmptyString
  | S n' => "0" +:+ zeros n'
  end.

(** [Number::toString] in radix 10 for a finite number other than zero:
    with [k] digits and the decimal point after [n] of them, plain
    notation when [-6 < n <= 21] and the exponent notation otherwise. *)
Definition decimal_toString (negative : bool) (s : positive) (e : Z) : string :=
  let '(s', e') := shortest (Pos.size_nat s) s e in
  let digits := NilEmpty.string_of_uint (Pos.to_uint s') in
  let k := String.length digits in
  let n := (Z.of_nat k + e')%Z in
  (if negative then "-" else EmptyString) +:+
  (if (Z.of_nat k <=? n)%Z && (n <=? 21)%Z then
     digits +:+ zeros (Z.to_nat (n - Z.of_nat k))
   else if (0 <? n)%Z && (n <=? 21)%Z then
     String.substring 0 (Z.to_nat n) digits +:+ "." +:+
     String.substring (Z.to_nat n) (k - Z.to_nat n) digits
   else if (-6 <? n)%Z && (n <=? 0)%Z then
     "0." +:+ zeros (Z.to_nat (- n)) +:+ digits
   else
     let exponent := (if (n - 1 <? 0)%Z then "-" else "+") +:+ Number_toString (Z.abs (n - 1)) in
     if (k =? 1)%nat then digits +:+ "e" +:+ exponent
     else String.substring 0 1 digits +:+ "." +:+ String.substring 1 (k - 1) digits +:+
          "e" +:+ exponent).

(** Structured values: what a parsed payload is made of; the fields of an
    object come in the order the object enumerates them. *)
#[warnings="-register-all"]
Inductive Json :=
| JNull
| JBool (b : bool)
| JNumber (n : JsNumber)
| JString (s : string)
| JArray (items : list Json)
| JObject (fields : list (string * Json)).

Definition hex_digit (n : nat) : string :=
  String.substring n 1 "0123456789abcdef".

(** The escapes [JSON.stringify] applies inside a quoted string. *)
Definition escape_char (c : Ascii.ascii) : string :=
  let n := Ascii.nat_of_ascii c in
  if (n =? 34)%nat then backslash +:+ dquote
  else if (n =? 92)%nat then backslash +:+ backslash
  else if (n =? 8)%nat then backslash +:+ "b"
  else if (n =? 12)%nat then backslash +:+ "f"
  else if (n =? 10)%nat then backslash +:+ "n"
  else if (n =? 13)%nat then backslash +:+ "r"
  else if (n =? 9)%nat then backslash +:+ "t"
  else if (n <? 32)%nat then backslash +:+ "u00" +:+ hex_digit (n / 16) +:+ hex_digit (n mod 16)
  else String c EmptyString.

Fixpoint escape (s : string) : string :=
  match s with
  | EmptyString => EmptyString
  | String c s' => escape_char c +:+ escape s'
  end.

Definition quote (s : string) : string := dquote +:+ escape s +:+ dquote.

Fixpoint join (sep : string) (l : list string) : string :=
  match l with
  | [] => EmptyString
  | [x] => x
  | x :: l' => x +:+ sep +:+ join sep l'
  end.

(** [JSON.stringify] *)
Fixpoint JSON_stringify (v : Json) : string :=
  match v with
  | JNull => "null"
  | JBool true => "true"
  | JBool false => "false"
  | JNumber js_zero => "0"
  | JNumber (js_decimal negative s e) => decimal_toString negative s e
  | JNumber js_not_finite => "null"
  | JString s => quote s
  | JArray items => "[" +:+ join "," (List.map JSON_stringify items) +:+ "]"
  | JObject fields =>
      "{" +:+ join "," (List.map (fun kv => quote (fst kv) +:+ ":" +:+ JSON_stringify (snd kv)) fields) +:+ "}"
  end.

(** A [Buffer] is its bytes.  A string is kept as the bytes of its UTF-8
    encoding, so [buffer.toString()], which decodes UTF-8, gives back the
    bytes of every well-formed sequence and the three bytes of U+FFFD for
    every maximal part of an ill-formed one.  The decoder reads byte by
    byte: [needed] continuation bytes are still to come, the next of them
    between [lower] and [upper], and [pending] are the bytes of the
    sequence read so far. *)
Record Utf8 := {
  needed : nat;
  lower : nat;
  upper : nat;
  pending : string
}.

Definition byte (n : nat) : string := String (Ascii.ascii_of_nat n) EmptyString.

Definition replacement : string := byte 239 +:+ byte 191 +:+ byte 189.

Definition utf8_start : Utf8 :=
  {| needed := 0; lower := 128; upper := 191; pending := EmptyString |}.

(** A byte met while no sequence is under way. *)
Definition utf8_lead (b : Ascii.ascii) : string * Utf8 :=
  let n := Ascii.nat_of_ascii b in
  let sequence (count lo hi : nat) :=
    (EmptyString, {| needed := count; lower := lo; upper := hi;
                     pending := String b EmptyString |}) in
  if (n <=? 127)%nat then (String b EmptyString, utf8_start)
  else if (194 <=? n)%nat && (n <=? 223)%nat then sequence 1 128 191
  else if (224 <=? n)%nat && (n <=? 239)%nat then
    sequence 2 (if (n =? 224)%nat then 160 else 128) (if (n =? 237)%nat then 159 else 191)
  else if (240 <=? n)%nat && (n <=? 244)%nat then
    sequence 3 (if (n =? 240)%nat then 144 else 128) (if (n =? 244)%nat then 143 else 191)
  else (replacement, utf8_start).

(** One byte: it continues the sequence under way, or, being out of
    range, ends it with a replacement and is read again as a first byte. *)
Definition utf8_step (st : Utf8) (b : Ascii.ascii) : string * Utf8 :=
  match needed st with
  | 0 => utf8_lead b
  | S more =>
      let n := Ascii.nat_of_ascii b in
      if (lower st <=? n)%nat && (n <=? upper st)%nat
      then match more with
           | 0 => (pending st +:+ String b EmptyString, utf8_start)
           | _ => (EmptyString, {| needed := more; lower := 128; upper := 191;
                                   pending := pending st +:+ String b EmptyString |})
           end
      else let '(out, st') := utf8_lead b in (replacement +:+ out, st')
  end.

Fixpoint utf8_decode (st : Utf8) (bytes : string) : string :=
  match bytes with
  | EmptyString => if (needed st =? 0)%nat then EmptyString else replacement
  | String b rest => let '(out, st') := utf8_step st b in out +:+ utf8_decode st' rest
  end.

Definition Buffer_toString (bytes : string) : string := utf8_decode utf8_start bytes.

Definition Buffer_toJSON (bytes : string) : Json :=
  JObject [("type", JString "Buffer");
           ("data", JArray (List.map (fun c => JNumber (js_integer (Z.of_nat (Ascii.nat_of_ascii c))))
                                     (String.list_ascii_of_string bytes)))].

(** The values [request.payload] can hold, grouped as the constructor
    tells them apart: by [typeof], and among objects by [instanceof]. *)
Inductive Payload :=
| payload_undefined
| payload_string (s : string)
| payload_Readable (stream : nat)
| payload_Buffer (bytes : string)
| payload_object (v : Json)         (* any other object; [null] and arrays too *)
| payload_number (z : Z)
| payload_boolean (b : bool)
| payload_bigint (z : Z)
| payload_symbol
| payload_function.

Inductive JsType :=
| ty_undefined | ty_string | ty_object | ty_number
| ty_boolean | ty_bigint | ty_symbol | ty_function.

Definition typeof (p : Payload) : JsType :=
  match p with
  | payload_undefined => ty_undefined
  | payload_string _ => ty_string
  | payload_Readable _ | payload_Buffer _ | payload_object _ => ty_object
  | payload_number _ => ty_number
  | payload_boolean _ => ty_boolean
  | payload_bigint _ => ty_bigint
  | payload_symbol => ty_symbol
  | payload_function => ty_function
  end.

(** The shapes of payload the specification speaks of. *)
Inductive Shape := absent | text | live_stream | byte_buffer | structured | unsupported.

Definition shape (p : Payload) : Shape :=
  match p with
  | payload_undefined => absent
  | payload_string _ => text
  | payload_Readable _ => live_stream
  | payload_Buffer _ => byte_buffer
  | payload_object _ => structured
  | _ => unsupported
  end.

(** ** proxy/ProxyServer.ts *)

(** The field [body?: Readable | Buffer | string | object]. *)
Inductive Body :=
| body_Readable (stream : nat)
| body_Buffer (bytes : string)
| body_string (s : string)
| body_object (v : Json).

(** JavaScript truthiness of a body: the empty string and [null] are falsy. *)
Definition truthy (b : Body) : bool :=
  match b with
  | body_string s => negb (bool_decide (s = EmptyString))
  | body_object JNull => false
  | _ => true
  end.

Definition Headers := gmap string string.

(** The part of a hapi [Request] the dispatcher reads. *)
Record Request := {
  req_method : string;               (* request.method *)
  req_pathname : string;             (* request.url.pathname *)
  req_headers : Headers;             (* request.headers *)
  req_payload : Payload;             (* request.payload *)
  raw_req : nat;                     (* request.raw.req *)
  raw_res : nat                      (* request.raw.res *)
}.

(** [ResponseDetails] of tracer/types.ts; a time is a clock reading. *)
Record Timings := {
  startTime : option Z;
  firstByteTime : option Z;
  endTime : option Z;
  closeTime : option Z
}.

Record ResponseDetails := {
  statusCode : option Z;
  statusMessage : option string;
  timings : option Timings
}.

(** The upstream response [proxyRes], as far as the dispatcher looks at it. *)
Record IncomingMessage := {
  res_statusCode : option Z;
  res_statusMessage : option string
}.

(** [interface Tracer]: three hooks.  A hook works on the shared details
    object, and returns or throws. *)
Record Tracer := {
  onFirstByteReceived : Request -> IncomingMessage -> Js ResponseDetails unit;
  onEnd : Request -> IncomingMessage -> Js ResponseDetails unit;
  onClose : Request -> IncomingMessage -> Js ResponseDetails unit
}.

(** The constructor argument [tracer: Tracer | Tracer[]]. *)
Inductive Tracers :=
| one_tracer (t : Tracer)
| tracer_array (ts : list Tracer).

Inductive Lifecycle := first_byte | response_end | connection_close.

Definition hook (p : Lifecycle) (t : Tracer) : Request -> IncomingMessage -> Js ResponseDetails unit :=
  match p with
  | first_byte => onFirstByteReceived t
  | response_end => onEnd t
  | connection_close => onClose t
  end.

(** What the dispatcher does to the sink [res]. *)
Inductive SinkAction :=
| setHeader (name value : string)
| writeHead (status : Z) (headers : list (string * string))
| end_with (data : option string)        (* res.end(data) or res.end() *)
| piped_from_upstream.                   (* proxyRes.pipe(res) *)

(** The observable course of one response. *)
Inductive Event :=
| hook_called (p : Lifecycle) (t : Tracer)
| hook_returned (p : Lifecycle) (t : Tracer)
| on_sink (a : SinkAction)
| listens_upstream (event : string).     (* proxyRes.on(event, ...) *)

(** The state the listeners of one request share: the details object they
    close over, and the course of events so far. *)
Record Exchange := {
  details : ResponseDetails;
  trace : list Event
}.

Definition log (e : Event) : Js Exchange unit :=
  modify (fun x => {| details := details x; trace := trace x ++ [e] |}).

(** A hook call [t.onX(req, proxyRes, responseDetails)]. *)
Definition call_hook (p : Lifecycle) (req : Request) (proxyRes : IncomingMessage)
    (t : Tracer) : Js Exchange unit :=
  log (hook_called p t) ;;;
  (fun x => match hook p t req proxyRes (details x) with
            | Returned _ d => Returned tt {| details := d; trace := trace x |}
            | Thrown e d => Thrown e {| details := d; trace := trace x |}
            end) ;;;
  log (hook_returned p t).

(** [if (Array.isArray(tracer)) { tracer.forEach(...) } else { ... }] *)
Definition call_hooks (p : Lifecycle) (tracer : Tracers) (req : Request)
    (proxyRes : IncomingMessage) : Js Exchange unit :=
  match tracer with
  | tracer_array ts => forEach (call_hook p req proxyRes) ts
  | one_tracer t => call_hook p req proxyRes t
  end.

(** The template literal of the diagnostic body. *)
Definition statusCode_text (c : option Z) : string :=
  match c with
  | Some z => Number_toString z
  | None => "undefined"
  end.

Definition diagnostic (c : option Z) : string :=
  "Error Occurred: proxyRes.statusCode: " +:+ statusCode_text c.

(** The listener of ["proxyReq"] creates the details object. *)
Definition on_proxyReq (now : Z) : Exchange :=
  {| details := {| statusCode := None; statusMessage := None;
                   timings := Some {| startTime := Some now; firstByteTime := None;
                                      endTime := None; closeTime := None |} |};
     trace := [] |}.

(** The listener of ["response"] on the outgoing request. *)
Definition on_response (tracer : Tracers) (req : Request) (proxyRes : IncomingMessage)
  : Js Exchange unit :=
  modify (fun x => {| details := {| statusCode := res_statusCode proxyRes;
                                    statusMessage := res_statusMessage proxyRes;
                                    timings := timings (details x) |};
                      trace := trace x |}) ;;;
  call_hooks first_byte tracer req proxyRes ;;;
  log (on_sink (setHeader "X-Proxy-Server" "true")) ;;;
  (if (400 <=? default 700 (res_statusCode proxyRes))%Z
   then log (on_sink (setHeader "Content-Type" "text/plain")) ;;;
        log (on_sink (end_with (Some (diagnostic (res_statusCode proxyRes)))))
   else log (on_sink piped_from_upstream)) ;;;
  log (listens_upstream "end") ;;;
  log (listens_upstream "close").

(** The listeners of ["end"] and ["close"] on the upstream response. *)
Definition on_upstream_end (tracer : Tracers) (req : Request) (proxyRes : IncomingMessage)
  : Js Exchange unit :=
  call_hooks response_end tracer req proxyRes.

Definition on_upstream_close (tracer : Tracers) (req : Request) (proxyRes : IncomingMessage)
  : Js Exchange unit :=
  call_hooks connection_close tracer req proxyRes.



(** The listeners [setupProxyEvents] registers on the proxy object. *)
Inductive ProxyListener :=
| proxyReq_listener (tracer : Tracers)
| error_listener.

Record ProxyServer := {
  proxy : list (string * ProxyListener);    (* the http-proxy instance, by its listeners *)
  request : Request;
  target : string;
  headers : Headers;
  method : string;
  path : string;
  body : Body
}.

(** [setupProxyEvents(tracer)] *)
Definition setupProxyEvents (tracer : Tracers) (p : ProxyServer) : ProxyServer :=
  {| proxy := proxy p ++ [("proxyReq", proxyReq_listener tracer); ("error", error_listener)];
     request := request p; target := target p; headers := headers p;
     method := method p; path := path p; body := body p |}.

Definition is_POST_or_PUT (method : string) : bool :=
  bool_decide (method = "POST") || bool_decide (method = "PUT").

(** The [switch (typeof this.request.payload)] of the constructor: the
    body it leaves in [this.body], which starts as the empty string. *)
Definition capture (payload : Payload) : Js unit Body :=
  match payload with
  | payload_string s => ret (body_string s)                           (* case "string" *)
  | payload_Readable stream => ret (body_Readable stream)             (* case "object", a Readable *)
  | payload_Buffer bytes => ret (body_string (Buffer_toString bytes)) (* case "object", a Buffer *)
  | payload_object v => ret (body_string (JSON_stringify v))          (* case "object", otherwise *)
  | payload_undefined => ret (body_string EmptyString)                (* case "undefined" *)
  | payload_number _ | payload_boolean _ | payload_bigint _
  | payload_symbol | payload_function =>
      throw (Error "Unsupported payload type")                        (* default *)
  end.

(** [constructor(request, tracer, target)] *)
Definition ProxyServer_new (request : Request) (tracer : Tracers) (target : string)
  : Js unit ProxyServer :=
  let method := toUpperCase (req_method request) in
  let path := if bool_decide (req_pathname request = EmptyString)
              then EmptyString else req_pathname request in
  body <~ (if is_POST_or_PUT method then capture (req_payload request)
           else ret (body_string EmptyString)) ;;
  ret (setupProxyEvents tracer
         {| proxy := []; request := request; target := target;
            headers := req_headers request; method := method; path := path;
            body := body |}).

(** The stream handed to the transport as the outbound body. *)
Inductive BodyStream :=
| live (stream : nat)            (* the payload stream itself *)
| bridged (bridge : World).      (* a bridge made by streamify(...) *)

(** [httpProxy.ServerOptions], each key present or not. *)
Record ServerOptions := {
  opt_target : option string;
  opt_headers : option Headers;
  opt_method : option string;
  opt_path : option string;
  selfHandleResponse : option bool;
  cookieDomainRewrite : option bool;
  cookiePathRewrite : option bool;
  proxyTimeout : option Z;
  timeout : option Z;
  followRedirects : option bool;
  buffer : option BodyStream
}.

Definition no_options : ServerOptions :=
  {| opt_target := None; opt_headers := None; opt_method := None; opt_path := None;
     selfHandleResponse := None; cookieDomainRewrite := None; cookiePathRewrite := None;
     proxyTimeout := None; timeout := None; followRedirects := None; buffer := None |}.

(** [key] of [{ ...defaultOptions, ...options }]: the caller's value wins. *)
Definition spread {A} (defaults options : option A) : option A :=
  match options with
  | Some v => Some v
  | None => defaults
  end.

(** The text pushed into the bridge for a body that is not a stream. *)
Definition body_text (b : Body) : string :=
  match b with
  | body_string s => s
  | body_object v => JSON_stringify v
  | body_Buffer bytes => JSON_stringify (Buffer_toJSON bytes)
  | body_Readable _ => EmptyString
  end.

(** The bridge [dispatch] builds: read-only, fed the text, then ended. *)
Definition body_bridge (text : string) : World :=
  state_of ((push (Some text) ;;; push None)
              (new_World {| readable := Some true; writable := Some false |})).

(** [dispatch(options)]: the options [proxy.web(req, res, ...)] is called with. *)
Definition dispatch (p : ProxyServer) (options : ServerOptions) : ServerOptions :=
  let attach := truthy (body p) && is_POST_or_PUT (method p) in
  let bodyStream :=
    match body p with
    | body_Readable stream => live stream
    | b => bridged (body_bridge (body_text b))
    end in
  {| opt_target := spread (Some (target p)) (opt_target options);
     opt_headers := spread (Some (headers p)) (opt_headers options);
     opt_method := spread (Some (method p)) (opt_method options);
     opt_path := spread (Some (path p)) (opt_path options);
     selfHandleResponse := selfHandleResponse options;
     cookieDomainRewrite := cookieDomainRewrite options;
     cookiePathRewrite := cookiePathRewrite options;
     proxyTimeout := proxyTimeout options;
     timeout := timeout options;
     followRedirects := followRedirects options;
     buffer := if attach then Some bodyStream else buffer options |}.


(** Reading a course of events. *)
Definition tracer_list (tracer : Tracers) : list Tracer :=
  match tracer with
  | one_tracer t => [t]
  | tracer_array ts => ts
  end.

Definition hook_events (p : Lifecycle) (ts : list Tracer) : list Event :=
  flat_map (fun t => [hook_called p t; hook_returned p t]) ts.

Definition sink_actions (evs : list Event) : list SinkAction :=
  flat_map (fun e => match e with on_sink a => [a] | _ => [] end) evs.

(** What the response listener does to the sink, by upstream status. *)
Definition response_actions (c : option Z) : list SinkAction :=
  setHeader "X-Proxy-Server" "true" ::
  (if (400 <=? default 700 c)%Z
   then [ setHeader "Content-Type" "text/plain"; end_with (Some (diagnostic c)) ]
   else [ piped_from_upstream ]).

(** The exchange once the response listener has copied the status into
    the details object. *)
Definition with_status (proxyRes : IncomingMessage) (x : Exchange) : Exchange :=
  {| details := {| statusCode := res_statusCode proxyRes;
                   statusMessage := res_statusMessage proxyRes;
                   timings := timings (details x) |};
     trace := trace x |}.

(** Sample data. *)
Definition sample_request (method : string) (payload : Payload) : Request :=
  {| req_method := method; req_pathname := "/foo"; req_headers := ∅;
     req_payload := payload; raw_req := 0; raw_res := 1 |}.

(** A tracer that stamps the details the way the tracers of this
    repository do, with a fixed clock reading. *)
Definition stamp (f : Timings -> Timings) : Js ResponseDetails unit :=
  modify (fun d =>
    let t := default {| startTime := None; firstByteTime := None;
                        endTime := None; closeTime := None |} (timings d) in
    {| statusCode := statusCode d; statusMessage := statusMessage d;
       timings := Some (f t) |}).

Definition stamping_tracer (now : Z) : Tracer :=
  {| onFirstByteReceived := fun _ _ =>
       stamp (fun t => {| startTime := startTime t; firstByteTime := Some now;
                          endTime := endTime t; closeTime := closeTime t |});
     onEnd := fun _ _ =>
       stamp (fun t => {| startTime := startTime t; firstByteTime := firstByteTime t;
                          endTime := Some now; closeTime := closeTime t |});
     onClose := fun _ _ =>
       stamp (fun t => {| startTime := startTime t; firstByteTime := firstByteTime t;
                          endTime := endTime t; closeTime := Some now |}) |}.

Definition sample_tracers : Tracers :=
  tracer_array [stamping_tracer 5; stamping_tracer 6].

Definition sample_target : string := "http://127.0.0.1:4400//foo".

(** Well-formed UTF-8, by the byte ranges of the Unicode standard
    (table 3-7): what [buffer.toString()] leaves as it is. *)
Definition between (lo hi : nat) (b : Ascii.ascii) : Prop :=
  lo <= Ascii.nat_of_ascii b <= hi.

Inductive well_formed : string -> Prop :=
| wf_empty : well_formed EmptyString
| wf_ascii b rest :
    between 0 127 b -> well_formed rest -> well_formed (String b rest)
| wf_two b1 b2 rest :
    between 194 223 b1 -> between 128 191 b2 ->
    well_formed rest -> well_formed (String b1 (String b2 rest))
| wf_three b1 b2 b3 rest :
    between 224 239 b1 ->
    between (if (Ascii.nat_of_ascii b1 =? 224)%nat then 160 else 128)
            (if (Ascii.nat_of_ascii b1 =? 237)%nat then 159 else 191) b2 ->
    between 128 191 b3 ->
    well_formed rest -> well_formed (String b1 (String b2 (String b3 rest)))
| wf_four b1 b2 b3 b4 rest :
    between 240 244 b1 ->
    between (if (Ascii.nat_of_ascii b1 =? 240)%nat then 144 else 128)
            (if (Ascii.nat_of_ascii b1 =? 244)%nat then 143 else 191) b2 ->
    between 128 191 b3 -> between 128 191 b4 ->
    well_formed rest -> well_formed (String b1 (String b2 (String b3 (String b4 rest)))).

(** Sample data: bytes by their values. *)
Definition bytes_of (l : list nat) : string :=
  fold_right (fun n s => String (Ascii.ascii_of_nat n) s) EmptyString l.

(** ** tracer/ZipkinTracer.ts *)

(** [parseInt(s, 10)]: leading white space is skipped, a sign is read
    (45 is the minus sign, 43 the plus sign), then as many decimal digits
    as there are; [None] stands for NaN.  A header value is a Latin-1
    string, one character per byte; its white space characters are tab to
    carriage return, the space and the no-break space. *)
Definition is_space (c : Ascii.ascii) : bool :=
  let n := Ascii.nat_of_ascii c in
  ((9 <=? n)%nat && (n <=? 13)%nat) || (n =? 32)%nat || (n =? 160)%nat.

Fixpoint skip_spaces (s : string) : string :=
  match s with
  | String c s' => if is_space c then skip_spaces s' else s
  | EmptyString => EmptyString
  end.

Definition digit_value (c : Ascii.ascii) : option Z :=
  let n := Ascii.nat_of_ascii c in
  if (48 <=? n)%nat && (n <=? 57)%nat then Some (Z.of_nat (n - 48)) else None.

Fixpoint read_digits (s : string) (acc : option Z) : option Z :=
  match s with
  | String c s' =>
      match digit_value c with
      | Some d => read_digits s' (Some (10 * default 0%Z acc + d)%Z)
      | None => acc
      end
  | EmptyString => acc
  end.

Definition parseInt10 (s : string) : option Z :=
  match skip_spaces s with
  | String c s' =>
      if (Ascii.nat_of_ascii c =? 45)%nat then Z.opp <$> read_digits s' None
      else if (Ascii.nat_of_ascii c =? 43)%nat then read_digits s' None
      else read_digits (String c s') None
  | EmptyString => None
  end.

(** A header as JavaScript sees it under [if (h)] and [h ? a : b]: there,
    and not the empty string. *)
Definition nonempty (h : option string) : option string :=
  match h with
  | Some s => if bool_decide (s = EmptyString) then None else Some s
  | None => None
  end.

(** A trace context: the fields of a [TraceId] of the zipkin library. *)
Record TraceId := {
  traceId : string;
  spanId : string;
  parentId : option string;
  sampled : option bool;
  debug : bool
}.

(** [new TraceId({traceId, spanId, parentId, sampled, debug})]: the
    library's constructor keeps what it is given, except that a debug
    context is always sampled. *)
Definition TraceId_new (traceId spanId : string) (parentId : option string)
    (sampled : option bool) (debug : bool) : TraceId :=
  {| traceId := traceId; spanId := spanId; parentId := parentId;
     sampled := if debug then Some true else sampled;
     debug := debug |}.

(** What the zipkin library decides on its own: the identifiers its
    generator produces, one per draw, and its sampler. *)
Record ZipkinLibrary := {
  randomTraceId : nat -> string;
  shouldSample : string -> bool
}.

(** The tracer object of the class and the module-wide zipkin tracer. *)
Record Zipkin := {
  this_traceId : option TraceId;     (* this.traceId, null at first *)
  current_id : option TraceId;       (* what zipkinTracer.setId was last given *)
  draws : nat;                       (* identifiers drawn so far *)
  console : list TraceId             (* console.log('Trace ID:', ...) *)
}.

(** [zipkinTracer.createRootId()]: one identifier is drawn and serves as
    trace id and span id; a root has no parent. *)
Definition createRootId (lib : ZipkinLibrary) : Js Zipkin TraceId :=
  fun z =>
    let id := randomTraceId lib (draws z) in
    Returned {| traceId := id; spanId := id; parentId := None;
                sampled := Some (shouldSample lib id); debug := false |}
             {| this_traceId := this_traceId z; current_id := current_id z;
                draws := S (draws z); console := console z |}.

(** [this.traceId = id; zipkinTracer.setId(this.traceId)] *)
Definition adopt (id : TraceId) : Js Zipkin unit :=
  modify (fun z => {| this_traceId := Some id; current_id := Some id;
                      draws := draws z; console := console z |}).

Definition console_log_traceId : Js Zipkin unit :=
  modify (fun z => {| this_traceId := this_traceId z; current_id := current_id z;
                      draws := draws z;
                      console := console z ++ option_list (this_traceId z) |}).

(** [createOrContinueTrace(req)], on [req.headers]. *)
Definition createOrContinueTrace (lib : ZipkinLibrary) (headers : Headers) : Js Zipkin unit :=
  let traceIdHeader := headers !! "x-b3-traceid" in
  let spanIdHeader := headers !! "x-b3-spanid" in
  let parentIdHeader := headers !! "x-b3-parentspanid" in
  let sampledHeader := headers !! "x-b3-sampled" in
  let flagsHeader := headers !! "x-b3-flags" in
  match nonempty traceIdHeader, nonempty spanIdHeader with
  | Some t, Some s =>
      adopt (TraceId_new t s
               (nonempty parentIdHeader)
               match nonempty sampledHeader with
               | Some v => Some (bool_decide (v = "1"))
               | None => None
               end
               match nonempty flagsHeader with
               | Some f => bool_decide (parseInt10 f = Some 1%Z)
               | None => false
               end)
  | _, _ =>
      id <~ createRootId lib ;;
      adopt id
  end ;;;
  console_log_traceId.

(** Sample data: a generator that counts, and a tracer that has not
    traced anything yet. *)
Definition counting_library : ZipkinLibrary :=
  {| randomTraceId := fun n => Number_toString (Z.of_nat n);
     shouldSample := fun _ => true |}.

(** A generator that yields the same identifier again. *)
Definition repeating_library : ZipkinLibrary :=
  {| randomTraceId := fun _ => "48485a3953bb6124";
     shouldSample := fun _ => true |}.

Definition new_Zipkin : Zipkin :=
  {| this_traceId := None; current_id := None; draws := 0; console := [] |}.

Definition b3_headers (l : list (string * string)) : Headers := list_to_map l.

(** The context of a trace continued from the headers, with trace id [t]
    and span id [s]. *)
Definition continued (headers : Headers) (t s : string) : TraceId :=
  let debug :=
    bool_decide (parseInt10 (default EmptyString (headers !! "x-b3-flags")) = Some 1%Z) in
  {| traceId := t;
     spanId := s;
     parentId := nonempty (headers !! "x-b3-parentspanid");
     sampled := if debug then Some true
                else (fun v => bool_decide (v = "1")) <$> nonempty (headers !! "x-b3-sampled");
     debug := debug |}.

(** The request carries no usable trace: the trace id or the span id is
    missing or empty. *)
Definition headerless (headers : Headers) : Prop :=
  nonempty (headers !! "x-b3-traceid") = None \/ nonempty (headers !! "x-b3-spanid") = None.

(** ** Histories of a bridge *)

(** What can happen to a bridge: a call of one of its methods, or a step
    of what surrounds it (a stream emits an event, a destination completes
    a write, the consumer reads, the writable side finishes, the user
    registers or removes a listener for ['error'] on the bridge). *)
Inductive Op :=
| op_read (size : option nat)
| op_write (a : WriteArgs)
| op_addSource (stream : nat)
| op_removeSource
| op_addDest (stream : nat)
| op_removeDest
| op_resolve (stream : nat)
| op_unresolve
| op_finish
| op_emit (stream : nat) (event : string) (arg : JsValue)
| op_complete (stream : nat)
| op_consume
| op_on_error
| op_off_error.

Definition run_op (o : Op) : Js World unit :=
  match o with
  | op_read size => _read size
  | op_write a => _write a
  | op_addSource stream => addSource stream
  | op_removeSource => removeSource
  | op_addDest stream => addDest stream
  | op_removeDest => removeDest
  | op_resolve stream => resolve stream
  | op_unresolve => unresolve
  | op_finish => finish
  | op_emit stream event arg => emit stream event arg ;;; ret tt
  | op_complete stream => complete_write stream
  | op_consume => consume
  | op_on_error => this_on_error
  | op_off_error => this_off_error
  end.

(** The methods of the class among the operations. *)
Definition is_method (o : Op) : bool :=
  match o with
  | op_read _ | op_write _ | op_addSource _ | op_removeSource
  | op_addDest _ | op_removeDest | op_resolve _ | op_unresolve => true
  | _ => false
  end.

(** The store after a history; a call that throws leaves the store as it
    was at the throw, and the history goes on. *)
Definition after (ops : list Op) (w : World) : World :=
  fold_left (fun w o => state_of (run_op o w)) ops w.

(** The store [new Streamify(options)] starts in, among the streams of
    [heap]. *)
Definition initial (options : StreamifyOptions) (heap : gmap nat Stream) : World :=
  {| this := Streamify_new options; streams := heap; next_id := 0; invoked := [] |}.

(** The bookkeeping of an attached source and of an attached destination
    is complete: every listener [removeSource] and [removeDest] look up
    is there. *)
Definition source_complete (src : Source) : Prop :=
  is_Some (source_listeners src !! "error") /\
  is_Some (source_listeners src !! "close") /\
  is_Some (source_onreadable src).

Definition dest_complete (dst : Dest) : Prop :=
  is_Some (dest_listeners dst !! "drain") /\
  is_Some (dest_listeners dst !! "close").

Definition bookkeeping (w : World) : Prop :=
  (forall src, _source (this w) = Some src -> source_complete src) /\
  (forall dst, _dest (this w) = Some dst -> dest_complete dst).

(** The listeners [addDest] adds to the stream. *)
Definition attach_dest_listeners (n : nat) : list Registration :=
  [ {| r_event := "drain"; r_fn := relay n "drain"; r_once := false |};
    {| r_event := "close"; r_fn := relay (1 + n) "close"; r_once := false |} ].

(** The ['readable'] listeners of a stream. *)
Definition readable_listeners (s : Stream) : list Registration :=
  filter (fun r => r_event r = "readable") (st_listeners s).

(** A computation leaves an observation of the store as it found it,
    whether it returns or throws. *)
Definition keeps {X A} (f : World -> X) (m : Js World A) : Prop :=
  forall w, f (state_of (m w)) = f w.

(** The queue is empty whenever a destination is attached. *)
Definition queue_empty_when_attached (w : World) : Prop :=
  is_Some (_dest (this w)) -> _destWritten (this w) = [].

(** The fields of the bridge a frame statement is about. *)
Definition dest_side (w : World) : option Dest * list WriteArgs :=
  (_dest (this w), _destWritten (this w)).

Definition source_side (w : World) : option Source := _source (this w).

Definition both_sides (w : World) : option Source * option Dest * list WriteArgs :=
  (_source (this w), _dest (this w), _destWritten (this w)).

(** A call returned, or threw one of the two attachment errors. *)
Definition attach_errors_only {A} (out : Outcome World A) : Prop :=
  match out with
  | Returned _ _ => True
  | Thrown e _ => AlreadyAttached e \/ NotAttached e
  end.

(** The two invariants of the bridge together. *)
Definition consistent (w : World) : Prop :=
  queue_empty_when_attached w /\ bookkeeping w.

(** A computation that keeps the bridge consistent and throws nothing but
    attachment errors. *)
Definition well_behaved {A} (m : Js World A) : Prop :=
  forall w, consistent w -> consistent (state_of (m w)) /\ attach_errors_only (m w).

(** The ['readable'] listeners that a run of [_read] calls registers when
    no call finds data, the counter standing at [n] before the first. *)
Fixpoint read_registrations (n : nat) (sizes : list (option nat)) : list Registration :=
  match sizes with
  | [] => []
  | size :: rest =>
      {| r_event := "readable"; r_fn := onreadable n size; r_once := true |}
        :: read_registrations (S n) rest
  end.

Definition with_onreadable (f : option Fn) (src : Source) : Source :=
  {| source_stream := source_stream src;
     source_listeners := source_listeners src;
     source_onend := source_onend src;
     source_onreadable := f |}.

(** ** main.ts *)

(** The options the route handler of the first server dispatches with. *)
Definition handler_options (req : Request) : ServerOptions :=
  {| opt_target := None;
     opt_headers := Some (req_headers req);
     opt_method := None;
     opt_path := None;
     selfHandleResponse := Some true;
     cookieDomainRewrite := Some false;
     cookiePathRewrite := Some false;
     proxyTimeout := Some 6000%Z;
     timeout := Some 2000%Z;
     followRedirects := Some true;
     buffer := None |}.

(** The handler of the route [/{path*}], given the two tracers it
    creates: it ends with the call [proxy.web(req, res, options)], of
    which the options are returned here, or with the constructor's error. *)
Definition handler (zipkinTracer consoleTracer : Tracer) (req : Request)
  : Js unit ServerOptions :=
  let target := "http://127.0.0.1:4400/" +:+ req_pathname req in
  proxyServer <~ ProxyServer_new req (tracer_array [zipkinTracer; consoleTracer]) target ;;
  ret (dispatch proxyServer (handler_options req)).

(** The payload has something to send: what the constructor captures of
    it is not the empty string. *)
Definition carries_body (payload : Payload) : bool :=
  match payload with
  | payload_string s => negb (bool_decide (s = EmptyString))
  | payload_Buffer bytes => negb (bool_decide (Buffer_toString bytes = EmptyString))
  | payload_Readable _ | payload_object _ => true
  | _ => false
  end.

(** Sample data: the options of a caller that passes a body of its own,
    and a tracer whose hooks throw. *)
Definition options_with_buffer (stream : BodyStream) : ServerOptions :=
  {| opt_target := None; opt_headers := None; opt_method := None; opt_path := None;
     selfHandleResponse := Some true; cookieDomainRewrite := None;
     cookiePathRewrite := None; proxyTimeout := None; timeout := None;
     followRedirects := None; buffer := Some stream |}.

Definition failing_tracer (e : JsError) : Tracer :=
  {| onFirstByteReceived := fun _ _ => throw e;
     onEnd := fun _ _ => throw e;
     onClose := fun _ _ => throw e |}.

(** ** The hooks of tracer/ConsoleTracer.ts and tracer/ZipkinTracer.ts *)

(** The [req] a hook is called with is Node's incoming request; the hooks
    read its [url] and its [headers]. *)
Record ClientRequest := {
  url : string;
  client_headers : Headers
}.

(** What a tracer hands to the zipkin tracer to record. *)
Inductive Annotation :=
| ServiceName (name : string)            (* recordServiceName(name) *)
| Rpc (name : string)                    (* recordRpc(name) *)
| BinaryAnnotation (key value : string)  (* recordBinary(key, value) *)
| ClientSend                             (* recordAnnotation(new Annotation.ClientSend()) *)
| ClientRecv                             (* recordAnnotation(new Annotation.ClientRecv()) *)
| Message (text : string).               (* recordAnnotation(new Annotation.Message(text)) *)

(** The calls of [console.log], each by its template and the values put
    into it.  A duration is the number handed to [toFixed]; [None] stands
    for NaN. *)
Inductive Line :=
| first_byte_line (url : string)         (* `First byte received for request: ${req.url}` *)
| ended_line (url : string)              (* `Response ended for request: ${req.url}` *)
| closed_line (url : string)             (* `Connection closed for request: ${req.url}` *)
| status_line (code : option Z) (message : option string)
                                         (* `Response status: ${statusCode} ${statusMessage}` *)
| duration_line (label : string) (duration : option Z)
                                         (* `${label} Request duration: ${duration} ms` *)
| zipkin_line (traceId spanId : string) (parentId : option string) (sampled : option bool).
                                         (* 'Sending data to Zipkin:', {...} *)

(** What the hooks of one request work on: the tracer object with the
    module-wide zipkin tracer, what that was asked to record (each call
    with the id [setId] was last given), the [details] object when one is
    passed, the console, and the number of clock readings taken. *)
Record Tracing := {
  zipkin : Zipkin;
  recorded : list (option TraceId * Annotation);
  given : option ResponseDetails;
  printed : list Line;
  readings : nat
}.

Definition set_zipkin (z : Zipkin) (s : Tracing) : Tracing :=
  {| zipkin := z; recorded := recorded s; given := given s;
     printed := printed s; readings := readings s |}.

Definition set_recorded (r : list (option TraceId * Annotation)) (s : Tracing) : Tracing :=
  {| zipkin := zipkin s; recorded := r; given := given s;
     printed := printed s; readings := readings s |}.

Definition set_given (d : option ResponseDetails) (s : Tracing) : Tracing :=
  {| zipkin := zipkin s; recorded := recorded s; given := d;
     printed := printed s; readings := readings s |}.

Definition set_printed (l : list Line) (s : Tracing) : Tracing :=
  {| zipkin := zipkin s; recorded := recorded s; given := given s;
     printed := l; readings := readings s |}.

(** [performance.now()]: the next reading of the clock. *)
Definition performance_now (clock : nat -> Z) : Js Tracing Z :=
  fun s => Returned (clock (readings s))
             {| zipkin := zipkin s; recorded := recorded s; given := given s;
                printed := printed s; readings := S (readings s) |}.

Definition console_log (l : Line) : Js Tracing unit :=
  modify (fun s => set_printed (printed s ++ [l]) s).

(** The fields of [details.timings] a hook assigns. *)
Definition with_firstByteTime (now : Z) (t : Timings) : Timings :=
  {| startTime := startTime t; firstByteTime := Some now;
     endTime := endTime t; closeTime := closeTime t |}.

Definition with_endTime (now : Z) (t : Timings) : Timings :=
  {| startTime := startTime t; firstByteTime := firstByteTime t;
     endTime := Some now; closeTime := closeTime t |}.

Definition with_closeTime (now : Z) (t : Timings) : Timings :=
  {| startTime := startTime t; firstByteTime := firstByteTime t;
     endTime := endTime t; closeTime := Some now |}.

(** [if (details) { details.timings = details.timings || {};
                    details.timings.field = performance.now(); }] *)
Definition stamp_details (clock : nat -> Z) (assign : Z -> Timings -> Timings)
  : Js Tracing unit :=
  details <~ gets given ;;
  match details with
  | Some d =>
      now <~ performance_now clock ;;
      modify (set_given (Some (state_of (stamp (assign now) d))))
  | None => ret tt
  end.

(** A difference of two times of which either may be undefined. *)
Definition minus (a b : option Z) : option Z :=
  match a, b with
  | Some x, Some y => Some (x - y)%Z
  | _, _ => None
  end.

(** The lines both tracers print at the end and at the close: the
    headline, then, when [details] was passed, the status and, when it
    has timings, the duration since the start. *)
Definition report (headline : Line) (label : string) (field : Timings -> option Z)
  : Js Tracing unit :=
  console_log headline ;;;
  details <~ gets given ;;
  match details with
  | Some d =>
      console_log (status_line (statusCode d) (statusMessage d)) ;;;
      match timings d with
      | Some t => console_log (duration_line label (minus (field t) (startTime t)))
      | None => ret tt
      end
  | None => ret tt
  end.

Module ConsoleTracer.

Definition onFirstByteReceived (clock : nat -> Z) (req : ClientRequest)
    (res : IncomingMessage) : Js Tracing unit :=
  stamp_details clock with_firstByteTime ;;;
  console_log (first_byte_line (url req)).

Definition onEnd (clock : nat -> Z) (req : ClientRequest) (res : IncomingMessage)
  : Js Tracing unit :=
  stamp_details clock with_endTime ;;;
  report (ended_line (url req)) "[END]" endTime.

Definition onClose (clock : nat -> Z) (req : ClientRequest) (res : IncomingMessage)
  : Js Tracing unit :=
  stamp_details clock with_closeTime ;;;
  report (closed_line (url req)) "[CLOSE] " closeTime.

End ConsoleTracer.

Module ZipkinTracerImpl.

(** A call on the module-wide zipkin tracer or on [this]. *)
Definition on_zipkin {A} (m : Js Zipkin A) : Js Tracing A :=
  fun s => match m (zipkin s) with
           | Returned a z => Returned a (set_zipkin z s)
           | Thrown e z => Thrown e (set_zipkin z s)
           end.

(** [zipkinTracer.setId(id)] *)
Definition setId (id : TraceId) : Js Zipkin unit :=
  modify (fun z => {| this_traceId := this_traceId z; current_id := Some id;
                      draws := draws z; console := console z |}).

(** A [record...] call on the zipkin tracer. *)
Definition record (a : Annotation) : Js Tracing unit :=
  modify (fun s => set_recorded (recorded s ++ [(current_id (zipkin s), a)]) s).

(** [res.statusCode.toString()] *)
Definition statusCode_toString (res : IncomingMessage) : Js Tracing string :=
  match res_statusCode res with
  | Some c => ret (Number_toString c)
  | None => throw (TypeError "Cannot read properties of undefined (reading 'toString')")
  end.

(** [private traceId: TraceId | null = null] and the constructor. *)
Definition new : Js Tracing unit :=
  on_zipkin (modify (fun z => {| this_traceId := None; current_id := current_id z;
                                 draws := draws z; console := console z |})) ;;;
  record (ServiceName "proxy-server").

Definition logZipkinData (id : TraceId) : Js Tracing unit :=
  console_log (zipkin_line (traceId id) (spanId id) (parentId id) (sampled id)).

Definition onFirstByteReceived (lib : ZipkinLibrary) (clock : nat -> Z)
    (req : ClientRequest) (res : IncomingMessage) : Js Tracing unit :=
  on_zipkin (createOrContinueTrace lib (client_headers req)) ;;;
  stamp_details clock with_firstByteTime ;;;
  record (Rpc "first-byte-received") ;;;
  record (BinaryAnnotation "http.url" (url req)) ;;;
  record ClientSend ;;;
  record (Message "First byte received") ;;;
  console_log (first_byte_line (url req)) ;;;
  id <~ gets (fun s => this_traceId (zipkin s)) ;;
  match id with
  | Some id => logZipkinData id
  | None => ret tt
  end.

Definition onEnd (clock : nat -> Z) (req : ClientRequest) (res : IncomingMessage)
  : Js Tracing unit :=
  id <~ gets (fun s => this_traceId (zipkin s)) ;;
  match id with
  | None => ret tt
  | Some id =>
      on_zipkin (setId id) ;;;
      stamp_details clock with_endTime ;;;
      record (Rpc "end") ;;;
      record (BinaryAnnotation "http.url" (url req)) ;;;
      code <~ statusCode_toString res ;;
      record (BinaryAnnotation "http.status_code" code) ;;;
      record ClientRecv ;;;
      record (Message "Response ended") ;;;
      report (ended_line (url req)) "[END]" endTime ;;;
      logZipkinData id
  end.

Definition onClose (clock : nat -> Z) (req : ClientRequest) (res : IncomingMessage)
  : Js Tracing unit :=
  id <~ gets (fun s => this_traceId (zipkin s)) ;;
  match id with
  | None => ret tt
  | Some id =>
      on_zipkin (setId id) ;;;
      stamp_details clock with_closeTime ;;;
      record (Rpc "close") ;;;
      record (BinaryAnnotation "http.url" (url req)) ;;;
      code <~ statusCode_toString res ;;
      record (BinaryAnnotation "http.status_code" code) ;;;
      record ClientRecv ;;;
      record (Message "Connection closed") ;;;
      report (closed_line (url req)) "[CLOSE]" closeTime ;;;
      logZipkinData id
  end.

End ZipkinTracerImpl.

(** The two tracers behind the interface of tracer/types.ts, as objects
    whose hooks work on the state of one request. *)
Record TracerObject := {
  first_byte_hook : ClientRequest -> IncomingMessage -> Js Tracing unit;
  end_hook : ClientRequest -> IncomingMessage -> Js Tracing unit;
  close_hook : ClientRequest -> IncomingMessage -> Js Tracing unit
}.

Definition consoleTracer (clock : nat -> Z) : TracerObject :=
  {| first_byte_hook := ConsoleTracer.onFirstByteReceived clock;
     end_hook := ConsoleTracer.onEnd clock;
     close_hook := ConsoleTracer.onClose clock |}.

Definition zipkinTracer (lib : ZipkinLibrary) (clock : nat -> Z) : TracerObject :=
  {| first_byte_hook := ZipkinTracerImpl.onFirstByteReceived lib clock;
     end_hook := ZipkinTracerImpl.onEnd clock;
     close_hook := ZipkinTracerImpl.onClose clock |}.

Definition hook_of (p : Lifecycle) (t : TracerObject)
  : ClientRequest -> IncomingMessage -> Js Tracing unit :=
  match p with
  | first_byte => first_byte_hook t
  | response_end => end_hook t
  | connection_close => close_hook t
  end.

(** [tracer.forEach((t) => t.onX(req, proxyRes, responseDetails))] *)
Definition round (p : Lifecycle) (ts : list TracerObject) (req : ClientRequest)
    (res : IncomingMessage) : Js Tracing unit :=
  forEach (fun t => hook_of p t req res) ts.

(** The timing a lifecycle point stamps, and the time it stamps it with. *)
Definition assign_time (p : Lifecycle) : Z -> Timings -> Timings :=
  match p with
  | first_byte => with_firstByteTime
  | response_end => with_endTime
  | connection_close => with_closeTime
  end.

Definition no_timings : Timings :=
  {| startTime := None; firstByteTime := None; endTime := None; closeTime := None |}.

(** [details] after [details.timings = details.timings || {};
    details.timings.field = now]. *)
Definition stamped (p : Lifecycle) (now : Z) (d : ResponseDetails) : ResponseDetails :=
  {| statusCode := statusCode d; statusMessage := statusMessage d;
     timings := Some (assign_time p now (default no_timings (timings d))) |}.

(** What was recorded under the trace context [id]. *)
Definition tagged (id : TraceId) (l : list Annotation) : list (option TraceId * Annotation) :=
  map (pair (Some id)) l.

(** The state of an end or close hook of the zipkin tracer when it comes
    to reading [res.statusCode], what it prints when it goes on, and the
    error when there is no status code. *)
Definition at_status (clock : nat -> Z) (p : Lifecycle) (req : ClientRequest) (s : Tracing)
    (id : TraceId) : Tracing :=
  {| zipkin := {| this_traceId := Some id; current_id := Some id;
                  draws := draws (zipkin s); console := console (zipkin s) |};
     recorded := recorded s ++
       tagged id [ Rpc (if p is response_end then "end" else "close");
                   BinaryAnnotation "http.url" (url req) ];
     given := stamped p (clock (readings s)) <$> given s;
     printed := printed s;
     readings := if given s is Some _ then S (readings s) else readings s |}.

Definition reported (clock : nat -> Z) (p : Lifecycle) (req : ClientRequest) (s : Tracing)
    (id : TraceId) : list Line :=
  (if p is response_end then ended_line (url req) else closed_line (url req)) ::
  match given s with
  | Some d =>
      [ status_line (statusCode d) (statusMessage d);
        duration_line (if p is response_end then "[END]" else "[CLOSE]")
          (minus (Some (clock (readings s))) (startTime (default no_timings (timings d)))) ]
  | None => []
  end ++
  [ zipkin_line (traceId id) (spanId id) (parentId id) (sampled id) ].

Definition no_toString : JsError :=
  TypeError "Cannot read properties of undefined (reading 'toString')".

(** Sample data: a clock that ticks once per reading from 100 on, a
    request, and the state of a request whose details the dispatcher
    created at time 90. *)
Definition sample_clock (n : nat) : Z := (100 + Z.of_nat n)%Z.

Definition sample_client_request : ClientRequest :=
  {| url := "/foo?x=1"; client_headers := ∅ |}.

Definition sample_tracing : Tracing :=
  {| zipkin := new_Zipkin; recorded := [];
     given := Some (details (on_proxyReq 90)); printed := []; readings := 0 |}.

(** * Properties of the stream bridge *)

Section Bridge.

Implicit Types (w : World) (b : Streamify) (s : Stream).

(** ** Reading the store after an update *)

Lemma stream_at_upd_stream sid f w :
  stream_at sid (upd_stream sid f w) = f (stream_at sid w).
Proof. unfold stream_at at 1, upd_stream. simpl. now rewrite lookup_insert_eq. Qed.

Lemma stream_at_upd_stream_ne sid sid' f w :
  sid <> sid' -> stream_at sid' (upd_stream sid f w) = stream_at sid' w.
Proof.
  intros Hne. unfold stream_at, upd_stream. simpl.
  now rewrite lookup_insert_ne.
Qed.

Lemma stream_at_upd_this sid f w : stream_at sid (upd_this f w) = stream_at sid w.
Proof. reflexivity. Qed.

Lemma stream_at_bump sid w : stream_at sid (bump w) = stream_at sid w.
Proof. reflexivity. Qed.

Lemma stream_at_record_call sid f a w : stream_at sid (record_call f a w) = stream_at sid w.
Proof. reflexivity. Qed.

Lemma this_upd_stream sid f w : this (upd_stream sid f w) = this w.
Proof. reflexivity. Qed.

Lemma this_upd_this f w : this (upd_this f w) = f (this w).
Proof. reflexivity. Qed.

Lemma this_bump w : this (bump w) = this w.
Proof. reflexivity. Qed.

Lemma this_record_call f a w : this (record_call f a w) = this w.
Proof. reflexivity. Qed.

Lemma next_id_upd_stream sid f w : next_id (upd_stream sid f w) = next_id w.
Proof. reflexivity. Qed.

Lemma next_id_upd_this f w : next_id (upd_this f w) = next_id w.
Proof. reflexivity. Qed.

Lemma next_id_bump w : next_id (bump w) = S (next_id w).
Proof. reflexivity. Qed.

Lemma invoked_upd_stream sid f w : invoked (upd_stream sid f w) = invoked w.
Proof. reflexivity. Qed.

Lemma invoked_upd_this f w : invoked (upd_this f w) = invoked w.
Proof. reflexivity. Qed.

Lemma invoked_bump w : invoked (bump w) = invoked w.
Proof. reflexivity. Qed.

Lemma invoked_record_call f a w : invoked (record_call f a w) = invoked w ++ [(f, a)].
Proof. reflexivity. Qed.

End Bridge.

Create Rewrite HintDb store.

#[local] Hint Rewrite
  stream_at_upd_stream stream_at_upd_this stream_at_bump stream_at_record_call
  this_upd_stream this_upd_this this_bump this_record_call
  next_id_upd_stream next_id_upd_this next_id_bump
  invoked_upd_stream invoked_upd_this invoked_bump invoked_record_call : store.

#[local] Opaque upd_stream upd_this bump record_call stream_at.

(** ** Running a method body on a store *)

Lemma bind_assoc {S A B C} (m : Js S A) (k1 : A -> Js S B) (k2 : B -> Js S C) (st : S) :
  bind (bind m k1) k2 st = bind m (fun x => bind (k1 x) k2) st.
Proof. unfold bind. now destruct (m st). Qed.

Lemma bind_gets {S A B} (f : S -> A) (k : A -> Js S B) (st : S) :
  bind (gets f) k st = k (f st) st.
Proof. reflexivity. Qed.

Lemma bind_modify {S B} (f : S -> S) (k : unit -> Js S B) (st : S) :
  bind (modify f) k st = k tt (f st).
Proof. reflexivity. Qed.

Lemma bind_ret {S A B} (a : A) (k : A -> Js S B) (st : S) :
  bind (ret a) k st = k a st.
Proof. reflexivity. Qed.

Lemma bind_throw {S A B} (e : JsError) (k : A -> Js S B) (st : S) :
  bind (throw e) k st = Thrown e st.
Proof. reflexivity. Qed.

Lemma bind_alloc {B} (k : nat -> Js World B) (w : World) :
  bind alloc k w = k (next_id w) (bump w).
Proof. reflexivity. Qed.

Lemma modify_run {S} (f : S -> S) (st : S) : modify f st = Returned tt (f st).
Proof. reflexivity. Qed.

Lemma ret_run {S A} (a : A) (st : S) : ret a st = Returned a st.
Proof. reflexivity. Qed.

Lemma bind_returned {S A B} (m : Js S A) (k : A -> Js S B) (st st' : S) (a : A) :
  m st = Returned a st' -> bind m k st = k a st'.
Proof. intros H. unfold bind. now rewrite H. Qed.

Ltac run :=
  repeat first
    [ rewrite bind_assoc | rewrite bind_gets | rewrite bind_modify
    | rewrite bind_alloc | rewrite bind_ret | rewrite bind_throw
    | rewrite modify_run | rewrite ret_run
    | progress autorewrite with store
    | progress cbn [forEach repeat_js SOURCE_EVENTS DEST_EVENTS
                    _source _dest _sourceRead _destWritten _readable _writable super
                    set_source set_dest set_sourceRead set_destWritten upd_super
                    source_stream source_listeners source_onend source_onreadable
                    dest_stream dest_listeners] ].

Section BridgeErrors.

Implicit Types (w : World).

(** C8.  Attaching a source (a destination) to a bridge that has one, and
    detaching from a bridge that has none, throws the AlreadyAttached,
    respectively NotAttached, error, and the store at the throw is the
    store of the call: nothing was changed. *)
Theorem attach_detach_fail_fast w (stream : nat) :
  (is_Some (_source (this w)) ->
     exists e, addSource stream w = Thrown e w /\ AlreadyAttached e) /\
  (_source (this w) = None ->
     exists e, removeSource w = Thrown e w /\ NotAttached e) /\
  (is_Some (_dest (this w)) ->
     exists e, addDest stream w = Thrown e w /\ AlreadyAttached e) /\
  (_dest (this w) = None ->
     exists e, removeDest w = Thrown e w /\ NotAttached e).
Proof.
  repeat split.
  - intros [src Hsrc]. eexists. split.
    + unfold addSource, bind, gets. rewrite Hsrc. reflexivity.
    + now left.
  - intros Hsrc. eexists. split.
    + unfold removeSource, bind, gets. rewrite Hsrc. reflexivity.
    + now left.
  - intros [dst Hdst]. eexists. split.
    + unfold addDest, bind, gets. rewrite Hdst. reflexivity.
    + now right.
  - intros Hdst. eexists. split.
    + unfold removeDest, bind, gets. rewrite Hdst. reflexivity.
    + now right.
Qed.

Lemma attach_detach_fail_fast_witness :
  let attached := state_of ((addSource 7 ;;; addDest 9) fresh_bridge) in
  (exists e, addSource 8 attached = Thrown e attached /\ AlreadyAttached e) /\
  (exists e, addDest 8 attached = Thrown e attached /\ AlreadyAttached e) /\
  (exists e, removeSource fresh_bridge = Thrown e fresh_bridge /\ NotAttached e) /\
  (exists e, removeDest fresh_bridge = Thrown e fresh_bridge /\ NotAttached e).
Proof.
  intros attached.
  destruct (attach_detach_fail_fast attached 8) as (Hs & _ & Hd & _).
  destruct (attach_detach_fail_fast fresh_bridge 8) as (_ & Hrs & _ & Hrd).
  repeat split.
  - apply Hs. vm_compute. eauto.
  - apply Hd. vm_compute. eauto.
  - apply Hrs. reflexivity.
  - apply Hrd. reflexivity.
Defined.

End BridgeErrors.

Section SourceAttachment.

Implicit Types (w : World) (s : Stream).

Section Listeners.

Context {A : Type}.
Implicit Types (p : A -> bool) (l : list A).

Lemma remove_last_hit p l x : p x = true -> remove_last p (l ++ [x]) = l.
Proof.
  intros Hx. unfold remove_last. rewrite rev_app_distr. simpl.
  rewrite Hx. apply rev_involutive.
Qed.

Lemma remove_last_miss p l x :
  p x = false -> remove_last p (l ++ [x]) = remove_last p l ++ [x].
Proof.
  intros Hx. unfold remove_last. rewrite rev_app_distr. simpl.
  now rewrite Hx.
Qed.

Lemma remove_first_none p l : Forall (fun x => p x = false) l -> remove_first p l = l.
Proof.
  induction 1 as [|x l Hx _ IH]; simpl; [reflexivity|].
  now rewrite Hx, IH.
Qed.

Lemma remove_last_none p l : Forall (fun x => p x = false) l -> remove_last p l = l.
Proof.
  intros H. unfold remove_last. rewrite remove_first_none.
  - apply rev_involutive.
  - now apply Forall_rev.
Qed.

End Listeners.

Lemma cons_app_split3 {A} (l : list A) a b c :
  l ++ [a; b; c] = ((l ++ [a]) ++ [b]) ++ [c].
Proof. now rewrite <- !app_assoc. Qed.

Lemma cons_app_split4 {A} (l : list A) a b c d :
  l ++ [a; b; c; d] = (((l ++ [a]) ++ [b]) ++ [c]) ++ [d].
Proof. now rewrite <- !app_assoc. Qed.

Lemma listens_self event f once :
  listens event f {| r_event := event; r_fn := f; r_once := once |} = true.
Proof.
  unfold listens. simpl. now rewrite !bool_decide_eq_true_2.
Qed.

Lemma listens_other_event event event' f f' once :
  event' <> event ->
  listens event f {| r_event := event'; r_fn := f'; r_once := once |} = false.
Proof.
  intros H. unfold listens. simpl. now rewrite bool_decide_eq_false_2.
Qed.

Lemma listens_older n event f r :
  fn_older n (r_fn r) -> ~ fn_older n f -> listens event f r = false.
Proof.
  intros Hr Hf. unfold listens.
  rewrite (bool_decide_eq_false_2 (r_fn r = f)).
  - apply andb_false_r.
  - intros E. rewrite E in Hr. contradiction.
Qed.

Ltac unstack :=
  repeat first
    [ rewrite remove_last_hit by apply listens_self
    | rewrite remove_last_miss by (apply listens_other_event; discriminate) ].

Lemma Stream_read_listeners size s :
  st_listeners (Stream_read size s).2 = st_listeners s.
Proof. unfold Stream_read. now destruct (_ =? _)%nat. Qed.

Lemma Stream_read_None size s : (Stream_read size s).1 = None -> (Stream_read size s).2 = s.
Proof. unfold Stream_read. now destruct (_ =? _)%nat. Qed.

Lemma Stream_read_set_listeners size f s :
  (Stream_read size (set_listeners f s)).1 = (Stream_read size s).1.
Proof.
  unfold Stream_read, howMuchToRead. simpl.
  now destruct (_ =? _)%nat.
Qed.

Lemma bind_stream_read {B} sid size (k : option string -> Js World B) w :
  bind (stream_read sid size) k w =
  k (Stream_read size (stream_at sid w)).1
    (upd_stream sid (fun _ => (Stream_read size (stream_at sid w)).2) w).
Proof.
  unfold bind, stream_read. now destruct (Stream_read size (stream_at sid w)).
Qed.

Lemma addSource_spec w stream :
  _source (this w) = None ->
  let size := _sourceRead (this w) in
  let data := (Stream_read size (stream_at stream w)).1 in
  exists w1,
    addSource stream w = Returned tt w1 /\
    _source (this w1) = Some (attached_source stream (next_id w) size) /\
    st_listeners (stream_at stream w1) =
      st_listeners (stream_at stream w) ++ attach_listeners (next_id w) size data /\
    super (this w1) =
      match data with
      | Some d => Duplex_push (Some d) (super (this w))
      | None => super (this w)
      end /\
    next_id w1 = 4 + next_id w.
Proof.
  intros Hs size data.
  unfold addSource. run. rewrite Hs. run.
  unfold source_listen. run. unfold _read. run. unfold call, onreadable_body. run.
  rewrite bind_stream_read. run.
  fold size. unfold Stream_on at 1 2 3. rewrite !Stream_read_set_listeners.
  fold data. unfold push.
  destruct data as [d|] eqn:Hdata; eexists; (split; [run; reflexivity|]); run.
  - repeat split; try reflexivity.
    rewrite Stream_read_listeners. unfold Stream_on, attach_listeners. cbn [st_listeners set_listeners].
    now rewrite <- !app_assoc.
  - repeat split; try reflexivity.
    unfold Stream_once. cbn [st_listeners set_listeners].
    rewrite Stream_read_listeners. unfold Stream_on, attach_listeners. cbn [st_listeners set_listeners].
    now rewrite <- !app_assoc.
Qed.

Lemma removeSource_spec w stream n size data l :
  _source (this w) = Some (attached_source stream n size) ->
  st_listeners (stream_at stream w) = l ++ attach_listeners n size data ->
  Forall (fun r => fn_older n (r_fn r)) l ->
  exists w2,
    removeSource w = Returned tt w2 /\
    _source (this w2) = None /\
    st_listeners (stream_at stream w2) = l.
Proof.
  intros Hs Hl Hold.
  unfold removeSource. run. rewrite Hs. unfold attached_source. run.
  rewrite lookup_insert_ne by done. rewrite !lookup_insert_eq.
  unfold stream_removeListener. run.
  eexists. split; [reflexivity|]. run. split; [reflexivity|].
  unfold Stream_removeListener. cbn [st_listeners set_listeners]. rewrite Hl.
  unfold attach_listeners.
  assert (Hfresh : remove_last (listens "readable" (onreadable (3 + n) size)) l = l).
  { apply remove_last_none. eapply Forall_impl; [exact Hold|].
    intros r Hr. apply (listens_older n); [exact Hr|]. simpl. lia. }
  destruct data as [d|]; cbn [app].
  - rewrite (cons_app_split3 l). unstack.
    now rewrite Hfresh.
  - rewrite (cons_app_split4 l). unstack. reflexivity.
Qed.

(** C10 (as amended).  [addSource] itself ends with a call of [_read]
    while the source is attached, so [onreadable] is always set when
    [removeSource] runs: detaching right after attaching returns normally,
    and the stream is left with exactly the listeners it had before. *)
Theorem removeSource_after_addSource w (stream : nat) :
  _source (this w) = None ->
  listeners_older stream w ->
  exists w1 w2 f,
    addSource stream w = Returned tt w1 /\
    source_onreadable <$> _source (this w1) = Some (Some f) /\
    removeSource w1 = Returned tt w2 /\
    _source (this w2) = None /\
    st_listeners (stream_at stream w2) = st_listeners (stream_at stream w).
Proof.
  intros Hs Hold.
  destruct (addSource_spec w stream Hs) as (w1 & Hadd & Hsrc & Hl & _ & _).
  destruct (removeSource_spec w1 stream _ _ _ _ Hsrc Hl Hold) as (w2 & Hrem & Hnone & Hl2).
  exists w1, w2, (onreadable (3 + next_id w) (_sourceRead (this w))).
  repeat split; try assumption.
  now rewrite Hsrc.
Qed.

Lemma removeSource_after_addSource_witness :
  exists w1 w2 f,
    addSource 7 fresh_bridge = Returned tt w1 /\
    source_onreadable <$> _source (this w1) = Some (Some f) /\
    removeSource w1 = Returned tt w2 /\
    _source (this w2) = None /\
    st_listeners (stream_at 7 w2) = st_listeners (stream_at 7 fresh_bridge).
Proof.
  apply (removeSource_after_addSource fresh_bridge 7).
  - reflexivity.
  - unfold listeners_older. vm_compute. constructor.
Defined.

(** C10, the claim as stated fails: on a new bridge, attach a stream and
    detach it at once, with no read by anyone in between.  The field
    [onreadable] is set, [removeSource] returns, and no listener is left. *)
Lemma plain_attach_then_detach_is_clean :
  let w1 := state_of (addSource 7 fresh_bridge) in
  let w2 := state_of (removeSource w1) in
  pushes (super (this w1)) = [] /\
  source_onreadable <$> _source (this w1) = Some (Some (onreadable 3 None)) /\
  returns (removeSource w1) = true /\
  _source (this w2) = None /\
  st_listeners (stream_at 7 w2) = [].
Proof. vm_compute. repeat split. Qed.

End SourceAttachment.

Section Writes.

Implicit Types (w : World) (s : Stream) (a : WriteArgs) (ws : list WriteArgs).

Lemma forEach_write_detached ws w :
  _dest (this w) = None ->
  exists w',
    forEach _write ws w = Returned tt w' /\
    _dest (this w') = None /\
    _destWritten (this w') = _destWritten (this w) ++ ws /\
    (forall sid, stream_at sid w' = stream_at sid w) /\
    invoked w' = invoked w.
Proof.
  revert w. induction ws as [|a ws IH]; intros w Hd.
  - exists w. run. rewrite app_nil_r. auto.
  - cbn [forEach]. unfold _write at 1. run. rewrite Hd. run.
    edestruct IH as (w' & Hrun & Hd' & Hq & Hst & Hinv);
      [|exists w'; split; [exact Hrun|]].
    + run. exact Hd.
    + revert Hq Hst Hinv. run. intros Hq Hst Hinv.
      rewrite Hq, <- app_assoc. auto.
Qed.

Lemma forEach_Stream_write d ws w :
  exists w',
    forEach (fun args => modify (upd_stream d (Stream_write args))) ws w = Returned tt w' /\
    this w' = this w /\
    st_writes (stream_at d w') = st_writes (stream_at d w) ++ ws /\
    st_completed (stream_at d w') = st_completed (stream_at d w) /\
    invoked w' = invoked w.
Proof.
  revert w. induction ws as [|a ws IH]; intros w.
  - exists w. run. rewrite app_nil_r. auto.
  - cbn [forEach]. run.
    destruct (IH (upd_stream d (Stream_write a) w)) as (w' & Hrun & Hth & Hw & Hc & Hinv).
    exists w'. split; [exact Hrun|].
    revert Hth Hw Hc Hinv. run. unfold Stream_write. cbn [st_writes st_completed set_writes].
    intros Hth Hw Hc Hinv. rewrite Hw, <- app_assoc. auto.
Qed.

Lemma forEach_write_attached ws w dst :
  _dest (this w) = Some dst ->
  exists w',
    forEach _write ws w = Returned tt w' /\
    this w' = this w /\
    st_writes (stream_at (dest_stream dst) w') = st_writes (stream_at (dest_stream dst) w) ++ ws /\
    st_completed (stream_at (dest_stream dst) w') = st_completed (stream_at (dest_stream dst) w) /\
    invoked w' = invoked w.
Proof.
  revert w. induction ws as [|a ws IH]; intros w Hd.
  - exists w. run. rewrite app_nil_r. auto.
  - cbn [forEach]. unfold _write at 1. run. rewrite Hd. run.
    edestruct IH as (w' & Hrun & Hth & Hw & Hc & Hinv);
      [|exists w'; split; [exact Hrun|]].
    + run. exact Hd.
    + revert Hth Hw Hc Hinv. run. unfold Stream_write. cbn [st_writes st_completed set_writes].
      intros Hth Hw Hc Hinv. rewrite Hw, <- app_assoc. auto.
Qed.

Lemma addDest_spec w d :
  _dest (this w) = None ->
  exists w' dst,
    addDest d w = Returned tt w' /\
    _dest (this w') = Some dst /\ dest_stream dst = d /\
    _destWritten (this w') = [] /\
    st_writes (stream_at d w') = st_writes (stream_at d w) ++ _destWritten (this w) /\
    st_completed (stream_at d w') = st_completed (stream_at d w) /\
    invoked w' = invoked w.
Proof.
  intros Hd. unfold addDest. run. rewrite Hd. run.
  unfold dest_listen. run.
  destruct (_destWritten (this w)) as [|a q] eqn:Hq.
  - cbn [length]. rewrite bool_decide_eq_true_2 by reflexivity. run.
    eexists _, _. split; [reflexivity|]. run.
    unfold Stream_on. cbn [st_writes st_completed set_listeners].
    rewrite Hq, app_nil_r. repeat split; reflexivity.
  - rewrite bool_decide_eq_false_2 by discriminate.
    match goal with |- context [bind (forEach _ _) _ ?w0] =>
      destruct (forEach_Stream_write d (a :: q) w0) as (w1 & Hrun & Hth & Hw & Hc & Hinv)
    end.
    rewrite (bind_returned _ _ _ _ _ Hrun). run.
    eexists _, _. split; [reflexivity|].
    revert Hth Hw Hc Hinv. run. unfold Stream_on. cbn [st_writes st_completed set_listeners].
    intros Hth Hw Hc Hinv. rewrite Hth, Hw, Hc, Hinv. run.
    repeat split; reflexivity.
Qed.

Lemma repeat_complete_write d n w :
  st_completed (stream_at d w) + n <= length (st_writes (stream_at d w)) ->
  exists w',
    repeat_js n (complete_write d) w = Returned tt w' /\
    this w' = this w /\
    st_writes (stream_at d w') = st_writes (stream_at d w) /\
    st_completed (stream_at d w') = st_completed (stream_at d w) + n /\
    invoked w' = invoked w ++
      map completion (take n (drop (st_completed (stream_at d w)) (st_writes (stream_at d w)))).
Proof.
  revert w. induction n as [|n IH]; intros w Hle.
  - exists w. run. rewrite Nat.add_0_r, take_0. cbn [map]. rewrite app_nil_r. auto.
  - cbn [repeat_js]. unfold complete_write at 1. run.
    destruct (st_writes (stream_at d w) !! st_completed (stream_at d w)) as [a|] eqn:Ha.
    2:{ apply lookup_ge_None in Ha. lia. }
    run. unfold call. run.
    edestruct IH as (w' & Hrun & Hth & Hw & Hc & Hinv);
      [|exists w'; split; [exact Hrun|]].
    + run. cbn [st_writes st_completed set_completed]. lia.
    + revert Hth Hw Hc Hinv. run. cbn [st_writes st_completed set_completed].
      intros Hth Hw Hc Hinv. rewrite Hth, Hw, Hc, Hinv.
      repeat split; [lia|].
      rewrite <- app_assoc. f_equal.
      rewrite (drop_S _ _ _ Ha). cbn [take map app]. reflexivity.
Qed.

Lemma complete_all_spec d w :
  exists w',
    complete_all d w = Returned tt w' /\
    this w' = this w /\
    st_writes (stream_at d w') = st_writes (stream_at d w) /\
    invoked w' = invoked w ++
      map completion (drop (st_completed (stream_at d w)) (st_writes (stream_at d w))).
Proof.
  unfold complete_all. run.
  set (ws := st_writes (stream_at d w)). set (c := st_completed (stream_at d w)).
  destruct (decide (c <= length ws)) as [Hle|Hgt].
  - destruct (repeat_complete_write d (length ws - c) w) as (w' & Hrun & Hth & Hw & _ & Hinv).
    { fold ws c. lia. }
    exists w'. fold ws c in Hinv. rewrite take_ge in Hinv by (rewrite length_drop; lia).
    auto.
  - replace (length ws - c) with 0 by lia. exists w. run.
    rewrite drop_ge by lia. cbn [map]. rewrite app_nil_r. auto.
Qed.

(** C1.  Writes issued while no destination is attached wait in the queue
    in the order of submission; attaching a destination hands them to it in
    that order and empties the queue; later writes go straight to the
    destination; and when the destination has completed what it accepted,
    the callback of every write has been called exactly once, in the order
    of the writes. *)
Theorem queued_writes_replayed_in_order w (queued later : list WriteArgs) (d : nat) :
  _dest (this w) = None ->
  st_completed (stream_at d w) = length (st_writes (stream_at d w)) ->
  exists w1 w2 w3 w4,
    forEach _write queued w = Returned tt w1 /\
    _destWritten (this w1) = _destWritten (this w) ++ queued /\
    stream_at d w1 = stream_at d w /\
    invoked w1 = invoked w /\
    addDest d w1 = Returned tt w2 /\
    st_writes (stream_at d w2) =
      st_writes (stream_at d w) ++ _destWritten (this w) ++ queued /\
    _destWritten (this w2) = [] /\
    invoked w2 = invoked w /\
    forEach _write later w2 = Returned tt w3 /\
    st_writes (stream_at d w3) =
      st_writes (stream_at d w) ++ _destWritten (this w) ++ queued ++ later /\
    _destWritten (this w3) = [] /\
    complete_all d w3 = Returned tt w4 /\
    invoked w4 =
      invoked w ++ map completion (_destWritten (this w) ++ queued ++ later).
Proof.
  intros Hd Hdone.
  destruct (forEach_write_detached queued w Hd) as (w1 & R1 & Hd1 & Hq1 & Hst1 & Hi1).
  destruct (addDest_spec w1 d Hd1) as (w2 & dst & R2 & Hd2 & Hdst & Hq2 & Hw2 & Hc2 & Hi2).
  destruct (forEach_write_attached later w2 dst Hd2) as (w3 & R3 & Hth3 & Hw3 & Hc3 & Hi3).
  destruct (complete_all_spec d w3) as (w4 & R4 & _ & _ & Hi4).
  rewrite Hdst in Hw3, Hc3.
  rewrite Hst1, Hq1 in Hw2. rewrite Hst1 in Hc2. rewrite Hw2 in Hw3.
  exists w1, w2, w3, w4.
  repeat split; try assumption.
  - apply Hst1.
  - congruence.
  - now rewrite Hw3, <- !app_assoc.
  - now rewrite Hth3.
  - rewrite Hi4, Hi3, Hi2, Hi1. f_equal. f_equal.
    rewrite Hc3, Hc2, Hdone, Hw3.
    rewrite <- !app_assoc. now rewrite drop_app_length.
Qed.

Lemma queued_writes_replayed_in_order_witness :
  exists w1 w2 w3 w4,
    forEach _write [sample_write 1 "a"; sample_write 2 "b"] fresh_bridge = Returned tt w1 /\
    _destWritten (this w1) =
      _destWritten (this fresh_bridge) ++ [sample_write 1 "a"; sample_write 2 "b"] /\
    stream_at 9 w1 = stream_at 9 fresh_bridge /\
    invoked w1 = invoked fresh_bridge /\
    addDest 9 w1 = Returned tt w2 /\
    st_writes (stream_at 9 w2) =
      st_writes (stream_at 9 fresh_bridge) ++ _destWritten (this fresh_bridge) ++
      [sample_write 1 "a"; sample_write 2 "b"] /\
    _destWritten (this w2) = [] /\
    invoked w2 = invoked fresh_bridge /\
    forEach _write [sample_write 3 "c"] w2 = Returned tt w3 /\
    st_writes (stream_at 9 w3) =
      st_writes (stream_at 9 fresh_bridge) ++ _destWritten (this fresh_bridge) ++
      [sample_write 1 "a"; sample_write 2 "b"] ++ [sample_write 3 "c"] /\
    _destWritten (this w3) = [] /\
    complete_all 9 w3 = Returned tt w4 /\
    invoked w4 =
      invoked fresh_bridge ++
      map completion (_destWritten (this fresh_bridge) ++
                      [sample_write 1 "a"; sample_write 2 "b"] ++ [sample_write 3 "c"]).
Proof.
  apply (queued_writes_replayed_in_order fresh_bridge
           [sample_write 1 "a"; sample_write 2 "b"] [sample_write 3 "c"] 9);
    reflexivity.
Defined.

Example replay_example :
  let m := forEach _write [sample_write 1 "a"; sample_write 2 "b"] ;;;
           addDest 9 ;;; _write (sample_write 3 "c") ;;; complete_all 9 in
  invoked (state_of (m fresh_bridge)) =
    [(external 1, undefined); (external 2, undefined); (external 3, undefined)] /\
  map chunk (st_writes (stream_at 9 (state_of (m fresh_bridge)))) = ["a"; "b"; "c"].
Proof. vm_compute. split; reflexivity. Qed.

End Writes.

Section EndOfSource.

Implicit Types (w : World) (s : Stream).








End EndOfSource.

(** * Properties of the dispatcher *)

Section Dispatcher.

Implicit Types (tracer : Tracers) (req : Request) (proxyRes : IncomingMessage)
  (x : Exchange) (p : Lifecycle) (ts : list Tracer).

Lemma sink_actions_app evs evs' :
  sink_actions (evs ++ evs') = sink_actions evs ++ sink_actions evs'.
Proof. unfold sink_actions. apply flat_map_app. Qed.

Lemma sink_actions_hook_events p ts : sink_actions (hook_events p ts) = [].
Proof. induction ts as [|t ts IH]; [reflexivity|exact IH]. Qed.

(** One hook call: what it leaves behind, by the way the hook ends. *)
Lemma call_hook_run p req proxyRes t x :
  call_hook p req proxyRes t x =
  match hook p t req proxyRes (details x) with
  | Returned _ d =>
      Returned tt {| details := d; trace := trace x ++ [hook_called p t; hook_returned p t] |}
  | Thrown e d =>
      Thrown e {| details := d; trace := trace x ++ [hook_called p t] |}
  end.
Proof.
  unfold call_hook, log, bind, modify. cbn [details trace].
  destruct (hook p t req proxyRes (details x)); cbn [details trace];
    [rewrite <- app_assoc|]; reflexivity.
Qed.

Lemma forEach_call_hook_cons p req proxyRes t ts x :
  forEach (call_hook p req proxyRes) (t :: ts) x =
  match hook p t req proxyRes (details x) with
  | Returned _ d =>
      forEach (call_hook p req proxyRes) ts
        {| details := d; trace := trace x ++ [hook_called p t; hook_returned p t] |}
  | Thrown e d =>
      Thrown e {| details := d; trace := trace x ++ [hook_called p t] |}
  end.
Proof.
  cbn [forEach]. unfold bind at 1. rewrite call_hook_run.
  now destruct (hook p t req proxyRes (details x)).
Qed.

(** The hooks that were started are an initial stretch of the array, in
    its order, and only the last one started can be unfinished. *)
Lemma forEach_call_hook_trace p req proxyRes ts x :
  exists evs,
    trace (state_of (forEach (call_hook p req proxyRes) ts x)) = trace x ++ evs /\
    sink_actions evs = [] /\
    (returns (forEach (call_hook p req proxyRes) ts x) = true -> evs = hook_events p ts).
Proof.
  revert x. induction ts as [|t ts IH]; intros x.
  - exists []. cbn. rewrite app_nil_r. auto.
  - rewrite forEach_call_hook_cons.
    destruct (hook p t req proxyRes (details x)) as [[] d|e d].
    + destruct (IH {| details := d; trace := trace x ++ [hook_called p t; hook_returned p t] |})
        as (evs & Htr & Hsink & Hret).
      exists ([hook_called p t; hook_returned p t] ++ evs).
      rewrite Htr. cbn [trace]. rewrite <- app_assoc. split; [reflexivity|].
      split; [rewrite sink_actions_app, Hsink; reflexivity|].
      intros Hr. rewrite (Hret Hr). reflexivity.
    + exists [hook_called p t]. cbn. auto. split; [reflexivity|]. split; [reflexivity|]. discriminate.
Qed.

Lemma forEach_call_hook_returns p req proxyRes ts x :
  (forall t d, In t ts -> returns (hook p t req proxyRes d) = true) ->
  forEach (call_hook p req proxyRes) ts x =
  Returned tt {| details := fold_left (fun d t => state_of (hook p t req proxyRes d)) ts (details x);
                 trace := trace x ++ hook_events p ts |}.
Proof.
  revert x. induction ts as [|t ts IH]; intros x Hall.
  - cbn. rewrite app_nil_r. now destruct x.
  - rewrite forEach_call_hook_cons.
    specialize (Hall t (details x) (or_introl eq_refl)) as Ht.
    destruct (hook p t req proxyRes (details x)) as [[] d|e d] eqn:E; [|discriminate].
    rewrite IH by (intros; apply Hall; now right).
    cbn [details trace fold_left hook_events flat_map]. rewrite E.
    cbn [state_of]. now rewrite <- app_assoc.
Qed.

Lemma call_hooks_trace p tracer req proxyRes x :
  exists evs,
    trace (state_of (call_hooks p tracer req proxyRes x)) = trace x ++ evs /\
    sink_actions evs = [] /\
    (returns (call_hooks p tracer req proxyRes x) = true ->
       evs = hook_events p (tracer_list tracer)).
Proof.
  destruct tracer as [t|ts]; cbn [call_hooks tracer_list].
  - destruct (forEach_call_hook_trace p req proxyRes [t] x) as (evs & H1 & H2 & H3).
    exists evs. revert H1 H3. cbn [forEach]. unfold bind at 1 2.
    destruct (call_hook _ _ _ _ _) as [[] ?|]; auto.
  - apply forEach_call_hook_trace.
Qed.

Lemma on_response_run tracer req proxyRes x :
  on_response tracer req proxyRes x =
  match call_hooks first_byte tracer req proxyRes (with_status proxyRes x) with
  | Returned _ x1 =>
      Returned tt
        {| details := details x1;
           trace := trace x1 ++ map on_sink (response_actions (res_statusCode proxyRes)) ++
                    [listens_upstream "end"; listens_upstream "close"] |}
  | Thrown e x1 => Thrown e x1
  end.
Proof.
  unfold on_response, response_actions, with_status, log, bind, modify.
  destruct (call_hooks first_byte tracer req proxyRes _) as [[] x1|e x1]; [|reflexivity].
  destruct (400 <=? default 700 (res_statusCode proxyRes))%Z;
    cbn [details trace map app]; rewrite <- ?app_assoc; reflexivity.
Qed.

Lemma Number_toString_nonempty z : Number_toString z <> EmptyString.
Proof.
  unfold Number_toString, NilZero.string_of_int.
  destruct (Z.to_int z) as [d|d]; [|discriminate].
  unfold NilZero.string_of_uint. destruct d; discriminate.
Qed.

Lemma call_hooks_returns_at p tracer req proxyRes x :
  (forall t d, In t (tracer_list tracer) -> returns (hook p t req proxyRes d) = true) ->
  call_hooks p tracer req proxyRes x =
  Returned tt {| details := fold_left (fun d t => state_of (hook p t req proxyRes d))
                                      (tracer_list tracer) (details x);
                 trace := trace x ++ hook_events p (tracer_list tracer) |}.
Proof.
  intros Hall. destruct tracer as [t|ts]; cbn [call_hooks tracer_list].
  - rewrite <- (forEach_call_hook_returns p req proxyRes [t] x).
    + cbn [forEach]. unfold bind. destruct (call_hook _ _ _ _ _) as [[] ?|]; reflexivity.
    + intros t' d Hin. now apply Hall.
  - apply forEach_call_hook_returns. intros t d Hin. now apply Hall.
Qed.

(** C4 (as amended).  When the upstream status is 400 or more, the
    upstream body is never piped to the client.  The listener returns
    exactly when the first-byte hooks do, and so it does when each of them
    returns; then the client was sent the marker header, a plain-text
    content type and a body that ends with the status code in decimal, and
    the response was ended by the dispatcher.  When a hook throws, the
    client was sent nothing. *)
Theorem upstream_error_status_not_relayed tracer req proxyRes (c : Z) x :
  res_statusCode proxyRes = Some c ->
  (400 <= c)%Z ->
  let out := on_response tracer req proxyRes x in
  let answer :=
    [ setHeader "X-Proxy-Server" "true";
      setHeader "Content-Type" "text/plain";
      end_with (Some ("Error Occurred: proxyRes.statusCode: " +:+ Number_toString c)) ] in
  exists evs,
    trace (state_of out) = trace x ++ evs /\
    ~ In piped_from_upstream (sink_actions evs) /\
    returns out = returns (call_hooks first_byte tracer req proxyRes (with_status proxyRes x)) /\
    ((forall t d, In t (tracer_list tracer) ->
        returns (onFirstByteReceived t req proxyRes d) = true) ->
     returns out = true) /\
    (returns out = true -> sink_actions evs = answer) /\
    (returns out = false -> sink_actions evs = []).
Proof.
  intros Hc Hge out answer. subst out answer.
  assert (Hall : (forall t d, In t (tracer_list tracer) ->
                    returns (onFirstByteReceived t req proxyRes d) = true) ->
                 returns (call_hooks first_byte tracer req proxyRes (with_status proxyRes x))
                 = true).
  { intros H. now rewrite (call_hooks_returns_at first_byte tracer req proxyRes _ H). }
  rewrite on_response_run.
  destruct (call_hooks_trace first_byte tracer req proxyRes (with_status proxyRes x))
    as (evs & Htr & Hsink & _).
  destruct (call_hooks first_byte tracer req proxyRes _) as [[] x1|e x1];
    cbn [state_of returns trace] in *.
  - exists (evs ++ map on_sink (response_actions (Some c)) ++
            [listens_upstream "end"; listens_upstream "close"]).
    rewrite Htr, Hc, <- app_assoc. split; [reflexivity|].
    rewrite sink_actions_app, Hsink. unfold response_actions.
    change (default 700%Z (Some c)) with c.
    apply Z.leb_le in Hge. rewrite Hge. cbn.
    repeat split; try reflexivity; try discriminate.
    intros [H|[H|[H|[]]]]; discriminate.
  - exists evs. rewrite Hsink. repeat split; auto; discriminate.
Qed.

Lemma upstream_error_status_not_relayed_witness :
  let proxyRes := {| res_statusCode := Some 404%Z; res_statusMessage := Some "Not Found" |} in
  let out := on_response sample_tracers (sample_request "get" payload_undefined)
               proxyRes (on_proxyReq 0) in
  returns out = true /\
  sink_actions (trace (state_of out)) =
    [ setHeader "X-Proxy-Server" "true";
      setHeader "Content-Type" "text/plain";
      end_with (Some "Error Occurred: proxyRes.statusCode: 404") ].
Proof.
  intros proxyRes out.
  destruct (upstream_error_status_not_relayed sample_tracers
              (sample_request "get" payload_undefined) proxyRes 404 (on_proxyReq 0))
    as (evs & Htr & _ & _ & Hall & Hsent & _); [reflexivity|lia|].
  assert (Hret : returns out = true).
  { apply Hall. intros t d [<-|[<-|[]]]; reflexivity. }
  split; [exact Hret|].
  fold out in Htr. rewrite Htr. cbn [on_proxyReq trace app]. exact (Hsent Hret).
Defined.

(** C4, the claim as stated fails: the diagnostic is sent only after
    the first-byte hooks.  With a first-byte hook that throws, a 404 is
    answered with nothing at all: no diagnostic body, no header, and the
    response is not ended. *)
Lemma error_status_with_throwing_hook_is_not_answered :
  let proxyRes := {| res_statusCode := Some 404%Z; res_statusMessage := Some "Not Found" |} in
  let out := on_response (one_tracer (failing_tracer (Error "tracer failed")))
               (sample_request "get" payload_undefined) proxyRes (on_proxyReq 0) in
  returns out = false /\
  sink_actions (trace (state_of out)) = [].
Proof. split; reflexivity. Qed.

Example not_found_diagnostic :
  diagnostic (Some 404%Z) = "Error Occurred: proxyRes.statusCode: 404" /\
  String.index 0 "404" (diagnostic (Some 404%Z)) = Some 37.
Proof. split; reflexivity. Qed.

Lemma hook_events_app p ts ts' :
  hook_events p (ts ++ ts') = hook_events p ts ++ hook_events p ts'.
Proof. unfold hook_events. apply flat_map_app. Qed.

Lemma forEach_call_hook_throws p req proxyRes (before rest : list Tracer) (t : Tracer)
    (e : JsError) (d' : ResponseDetails) x :
  (forall t' d, In t' before -> returns (hook p t' req proxyRes d) = true) ->
  hook p t req proxyRes
    (fold_left (fun d t' => state_of (hook p t' req proxyRes d)) before (details x))
    = Thrown e d' ->
  forEach (call_hook p req proxyRes) (before ++ t :: rest) x =
    Thrown e {| details := d';
                trace := trace x ++ hook_events p before ++ [hook_called p t] |}.
Proof.
  revert x. induction before as [|b before IH]; intros x Hall Ht.
  - cbn [app fold_left] in *. rewrite forEach_call_hook_cons, Ht. reflexivity.
  - cbn [app fold_left] in *. rewrite forEach_call_hook_cons.
    pose proof (Hall b (details x) (or_introl eq_refl)) as Hb.
    destruct (hook p b req proxyRes (details x)) as [[] d|? ?] eqn:E; [|discriminate].
    cbn [state_of] in Ht.
    rewrite (IH {| details := d; trace := trace x ++ [hook_called p b; hook_returned p b] |});
      [|intros; apply Hall; now right|exact Ht].
    cbn [trace hook_events flat_map]. now rewrite <- !app_assoc.
Qed.







Lemma append_nonempty_l (a b : string) : a <> EmptyString -> a +:+ b <> EmptyString.
Proof. destruct a; [congruence|discriminate]. Qed.

Lemma append_nonempty_r (a b : string) : b <> EmptyString -> a +:+ b <> EmptyString.
Proof. intros H. destruct a; [exact H|discriminate]. Qed.

Lemma digits_nonempty (p : positive) : NilEmpty.string_of_uint (Pos.to_uint p) <> EmptyString.
Proof.
  pose proof (Unsigned.to_uint_nonnil p) as H.
  destruct (Pos.to_uint p); [congruence|discriminate..].
Qed.

Lemma decimal_toString_nonempty negative s e : decimal_toString negative s e <> EmptyString.
Proof.
  unfold decimal_toString. destruct (shortest _ s e) as [s' e'].
  pose proof (digits_nonempty s') as Hd.
  apply append_nonempty_r.
  repeat match goal with
  | |- (if ?c then _ else _) <> _ => destruct c
  end.
  - now apply append_nonempty_l.
  - apply append_nonempty_r. now apply append_nonempty_l.
  - now apply append_nonempty_l.
  - now apply append_nonempty_l.
  - apply append_nonempty_r. now apply append_nonempty_l.
Qed.

Lemma JSON_stringify_nonempty v : JSON_stringify v <> EmptyString.
Proof.
  destruct v as [|[]|[|negative s e|]|s|items|fields]; try discriminate.
  apply decimal_toString_nonempty.
Qed.

Example numbers_as_JSON_prints_them :
  JSON_stringify (JArray [ JNumber (js_integer 404); JNumber (js_integer (-100));
                           JNumber (js_decimal false 15 (-1));
                           JNumber (js_decimal false 1 21);
                           JNumber (js_decimal false 1 20);
                           JNumber (js_decimal true 25 (-8));
                           JNumber js_zero; JNumber js_not_finite ])
  = "[404,-100,1.5,1e+21,100000000000000000000,-2.5e-7,0,null]".
Proof. reflexivity. Qed.

(** The decoder never turns bytes into nothing. *)
Lemma utf8_decode_nonempty (bytes : string) (st : Utf8) :
  bytes <> EmptyString \/ needed st <> 0 -> utf8_decode st bytes <> EmptyString.
Proof.
  revert st. induction bytes as [|b rest IH]; intros st H.
  - destruct H as [H|H]; [congruence|]. cbn.
    destruct (needed st); [congruence|discriminate].
  - cbn [utf8_decode]. destruct (utf8_step st b) as [out st'] eqn:E.
    destruct out as [|c out]; [|discriminate].
    apply IH. right. revert E. unfold utf8_step, utf8_lead.
    repeat match goal with
    | |- context [match ?x with _ => _ end] => destruct x
    end; intros E; apply pair_equal_spec in E as [Hout <-]; cbn [needed]; try discriminate.
    all: try (unfold replacement, byte in Hout; discriminate Hout).
    all: destruct (pending st); discriminate Hout.
Qed.

Lemma Buffer_toString_empty (bytes : string) :
  Buffer_toString bytes = EmptyString <-> bytes = EmptyString.
Proof.
  split; [|now intros ->].
  intros H. destruct bytes as [|b rest]; [reflexivity|].
  exfalso. revert H. apply utf8_decode_nonempty. left. discriminate.
Qed.

Ltac decide_ranges :=
  unfold between in *;
  repeat match goal with
  | |- context [(?a <=? ?b)%nat] =>
      let L := fresh in destruct (Nat.leb_spec a b) as [L|L]; try lia
  | |- context [(?a =? ?b)%nat] =>
      let L := fresh in destruct (Nat.eqb_spec a b) as [L|L]; try lia
  end.

(** Bytes that are well-formed UTF-8 come out of the decoder as they are. *)
Lemma well_formed_unchanged (bytes : string) :
  well_formed bytes -> Buffer_toString bytes = bytes.
Proof.
  unfold Buffer_toString.
  induction 1 as [|b rest Hb _ IH|b1 b2 rest H1 H2 _ IH|b1 b2 b3 rest H1 H2 H3 _ IH
                  |b1 b2 b3 b4 rest H1 H2 H3 H4 _ IH].
  - reflexivity.
  - cbn [utf8_decode utf8_step utf8_start needed]. unfold utf8_lead.
    decide_ranges. cbn. now rewrite IH.
  - cbn [utf8_decode utf8_step utf8_start needed]. unfold utf8_lead.
    decide_ranges; cbn [andb needed lower upper pending utf8_decode utf8_step];
      decide_ranges; cbn; now rewrite IH.
  - cbn [utf8_decode utf8_step utf8_start needed]. unfold utf8_lead.
    decide_ranges; cbn [andb needed lower upper pending utf8_decode utf8_step];
      decide_ranges; cbn [andb needed lower upper pending utf8_decode utf8_step];
      decide_ranges; cbn; now rewrite IH.
  - cbn [utf8_decode utf8_step utf8_start needed]. unfold utf8_lead.
    decide_ranges; cbn [andb needed lower upper pending utf8_decode utf8_step];
      decide_ranges; cbn [andb needed lower upper pending utf8_decode utf8_step];
      decide_ranges; cbn [andb needed lower upper pending utf8_decode utf8_step];
      decide_ranges; cbn; now rewrite IH.
Qed.

Example ill_formed_bytes_are_replaced :
  Buffer_toString (bytes_of [104; 195; 169; 255; 226; 130; 65; 237; 160; 128; 226; 130]) =
  bytes_of [104; 195; 169; 239; 191; 189; 239; 191; 189; 65;
            239; 191; 189; 239; 191; 189; 239; 191; 189; 239; 191; 189].
Proof. reflexivity. Qed.

Lemma ProxyServer_new_returned request tracer (target : string) (server : ProxyServer) :
  ProxyServer_new request tracer target tt = Returned server tt ->
  method server = toUpperCase (req_method request) /\
  if is_POST_or_PUT (toUpperCase (req_method request))
  then capture (req_payload request) tt = Returned (body server) tt
  else body server = body_string EmptyString.
Proof.
  unfold ProxyServer_new, bind. intros Hnew.
  destruct (is_POST_or_PUT _).
  - destruct (capture _ tt) as [b []|e []]; [|discriminate].
    injection Hnew as <-. split; reflexivity.
  - injection Hnew as <-. split; reflexivity.
Qed.

(** C3 (as amended).  The dispatcher attaches a body of its own only for
    POST and PUT, and then only when the captured body is not empty:
    nothing for an absent payload, an empty text or an empty buffer; a
    bridge carrying the text itself for a text, the UTF-8 decoding for a
    buffer (its bytes as they are when they are well-formed), the JSON
    text for any other object, [null] included; and the payload stream
    itself for a stream.  Otherwise, and so for every other method, the
    options go out with the caller's [buffer] as it is. *)
Theorem body_attached_only_when_captured request tracer (target : string)
    (server : ProxyServer) (options : ServerOptions) :
  ProxyServer_new request tracer target tt = Returned server tt ->
  let sent := buffer (dispatch server options) in
  (is_POST_or_PUT (toUpperCase (req_method request)) = false -> sent = buffer options) /\
  (is_POST_or_PUT (toUpperCase (req_method request)) = true ->
     match req_payload request with
     | payload_undefined => sent = buffer options
     | payload_string s =>
         sent = if bool_decide (s = EmptyString) then buffer options
                else Some (bridged (body_bridge s))
     | payload_Readable stream => sent = Some (live stream)
     | payload_Buffer bytes =>
         sent = (if bool_decide (bytes = EmptyString) then buffer options
                 else Some (bridged (body_bridge (Buffer_toString bytes)))) /\
         (well_formed bytes -> Buffer_toString bytes = bytes)
     | payload_object v =>
         sent = Some (bridged (body_bridge (JSON_stringify v))) /\
         (v = JNull -> JSON_stringify v = "null")
     | _ => False
     end) /\
  (forall text, pushes (super (this (body_bridge text))) = [Some text; None] /\
                readableBuffer (super (this (body_bridge text))) = [text] /\
                readableEnded (super (this (body_bridge text))) = true).
Proof.
  intros Hnew sent. subst sent.
  destruct (ProxyServer_new_returned _ _ _ _ Hnew) as (Hm & Hb).
  unfold dispatch. rewrite Hm. cbn [buffer].
  split; [|split].
  - intros Hno. rewrite Hno in *. now rewrite andb_false_r.
  - intros Hyes. rewrite Hyes in *. rewrite andb_true_r.
    destruct (req_payload request) as [|s|stream|bytes|v| | | | |];
      cbn in Hb; try discriminate; injection Hb as <-; cbn [truthy body_text].
    + rewrite bool_decide_eq_true_2 by reflexivity. reflexivity.
    + now destruct (bool_decide (s = EmptyString)).
    + reflexivity.
    + split; [|apply well_formed_unchanged].
      destruct (bool_decide_reflect (bytes = EmptyString)) as [->|Hne]; [reflexivity|].
      rewrite bool_decide_eq_false_2; [reflexivity|].
      now rewrite Buffer_toString_empty.
    + rewrite bool_decide_eq_false_2 by apply JSON_stringify_nonempty.
      split; [reflexivity|now intros ->].
  - intros text. repeat split.
Qed.

Lemma body_attached_only_when_captured_witness :
  (exists server,
     ProxyServer_new (sample_request "post" (payload_object (JObject [("a", JNumber (js_integer 1))])))
       sample_tracers sample_target tt = Returned server tt /\
     buffer (dispatch server no_options) =
       Some (bridged (body_bridge ("{" +:+ dquote +:+ "a" +:+ dquote +:+ ":1}")))) /\
  (exists server,
     ProxyServer_new (sample_request "post" (payload_object JNull))
       sample_tracers sample_target tt = Returned server tt /\
     buffer (dispatch server no_options) = Some (bridged (body_bridge "null"))) /\
  (exists server,
     ProxyServer_new (sample_request "put" (payload_Buffer (bytes_of [104; 105; 255])))
       sample_tracers sample_target tt = Returned server tt /\
     buffer (dispatch server no_options) =
       Some (bridged (body_bridge (bytes_of [104; 105; 239; 191; 189])))).
Proof.
  split; [|split]; (eexists; split; [reflexivity|]).
  - pose proof (body_attached_only_when_captured
                  (sample_request "post" (payload_object (JObject [("a", JNumber (js_integer 1))])))
                  sample_tracers sample_target _ no_options eq_refl) as (_ & H & _).
    exact (proj1 (H eq_refl)).
  - pose proof (body_attached_only_when_captured
                  (sample_request "post" (payload_object JNull))
                  sample_tracers sample_target _ no_options eq_refl) as (_ & H & _).
    exact (proj1 (H eq_refl)).
  - pose proof (body_attached_only_when_captured
                  (sample_request "put" (payload_Buffer (bytes_of [104; 105; 255])))
                  sample_tracers sample_target _ no_options eq_refl) as (_ & H & _).
    exact (proj1 (H eq_refl)).
Defined.

(** C3, the claim as stated fails: a POST whose payload is absent is
    dispatched with no body, and so is a PUT with an empty text; and for a
    method other than POST and PUT a body can go out all the same, the one
    the caller passes as [buffer]. *)
Lemma post_without_payload_has_no_body :
  (exists server,
     ProxyServer_new (sample_request "post" payload_undefined) sample_tracers sample_target tt
       = Returned server tt /\
     method server = "POST" /\
     buffer (dispatch server no_options) = None) /\
  (exists server,
     ProxyServer_new (sample_request "put" (payload_string EmptyString)) sample_tracers
       sample_target tt = Returned server tt /\
     method server = "PUT" /\
     buffer (dispatch server no_options) = None) /\
  (exists server,
     ProxyServer_new (sample_request "get" (payload_string "abc")) sample_tracers
       sample_target tt = Returned server tt /\
     method server = "GET" /\
     buffer (dispatch server (options_with_buffer (live 3))) = Some (live 3)).
Proof. repeat split; eexists; repeat split. Qed.

Lemma shape_unsupported_typeof payload :
  shape payload = unsupported <->
  typeof payload <> ty_string /\ typeof payload <> ty_object /\
  typeof payload <> ty_undefined.
Proof.
  destruct payload; cbn; split; try discriminate; try tauto;
    repeat split; discriminate.
Qed.

(** C9.  For a POST or PUT, the constructor throws "Unsupported payload
    type" exactly when the payload is none of absent, text, stream, buffer
    or object, so that no dispatcher exists to dispatch with; for each of
    those shapes it returns one. *)
Theorem unsupported_payload_rejected request tracer (target : string) :
  is_POST_or_PUT (toUpperCase (req_method request)) = true ->
  (shape (req_payload request) = unsupported ->
     ProxyServer_new request tracer target tt =
       Thrown (Error "Unsupported payload type") tt) /\
  (shape (req_payload request) <> unsupported ->
     exists server, ProxyServer_new request tracer target tt = Returned server tt).
Proof.
  intros Hm. unfold ProxyServer_new, bind. rewrite Hm.
  destruct (req_payload request); cbn; split; intros H;
    first [ discriminate H | reflexivity | now (eexists; reflexivity) | now contradiction H ].
Qed.

Lemma unsupported_payload_rejected_witness :
  ProxyServer_new (sample_request "put" (payload_number 3)) sample_tracers sample_target tt =
    Thrown (Error "Unsupported payload type") tt /\
  exists server,
    ProxyServer_new (sample_request "post" (payload_Buffer "abc")) sample_tracers
      sample_target tt = Returned server tt.
Proof.
  split.
  - apply (unsupported_payload_rejected (sample_request "put" (payload_number 3))
             sample_tracers sample_target); reflexivity.
  - apply (unsupported_payload_rejected (sample_request "post" (payload_Buffer "abc"))
             sample_tracers sample_target); [reflexivity|discriminate].
Defined.

End Dispatcher.

(** * Properties of the Zipkin trace context *)

Section TraceContext.

Implicit Types (lib : ZipkinLibrary) (headers : Headers) (z : Zipkin).

Lemma nonempty_Some (s : string) : s <> EmptyString -> nonempty (Some s) = Some s.
Proof. intros H. unfold nonempty. now rewrite bool_decide_eq_false_2. Qed.

Lemma debug_flag (flags : option string) :
  match nonempty flags with
  | Some f => bool_decide (parseInt10 f = Some 1%Z)
  | None => false
  end = bool_decide (parseInt10 (default EmptyString flags) = Some 1%Z).
Proof.
  destruct flags as [f|]; [|reflexivity]. unfold nonempty.
  destruct (bool_decide_reflect (f = EmptyString)) as [->|Hne]; reflexivity.
Qed.

Lemma root_created lib headers z :
  headerless headers ->
  let id := randomTraceId lib (draws z) in
  let root := {| traceId := id; spanId := id; parentId := None;
                 sampled := Some (shouldSample lib id); debug := false |} in
  createOrContinueTrace lib headers z =
  Returned tt {| this_traceId := Some root; current_id := Some root;
                 draws := S (draws z); console := console z ++ [root] |}.
Proof.
  intros Hless. unfold createOrContinueTrace.
  assert (Hbranch :
    match nonempty (headers !! "x-b3-traceid"), nonempty (headers !! "x-b3-spanid") with
    | Some _, Some _ => False
    | _, _ => True
    end).
  { destruct Hless as [-> | ->]; [exact I|]. now destruct (nonempty _). }
  destruct (nonempty (headers !! "x-b3-traceid")), (nonempty (headers !! "x-b3-spanid"));
    try contradiction; reflexivity.
Qed.

(** C5 (as amended).  With a trace id [t] and a span id [s] in the headers,
    both not empty, the context is [continued headers t s]: these two ids,
    the parent id when that header is there and not empty, debug iff the
    flags header parses to 1, and the sampled flag true when debug, and
    else there exactly when that header is there and not empty (true iff it
    is "1"); no identifier is drawn.  Otherwise the context is a root made
    of the next identifier the library's generator yields, without parent,
    and one identifier is drawn: the next request of that kind gets the
    identifier after it. *)
Theorem trace_context_from_headers lib headers z :
  (forall t s,
     headers !! "x-b3-traceid" = Some t ->
     headers !! "x-b3-spanid" = Some s ->
     t <> EmptyString -> s <> EmptyString ->
     exists z',
       createOrContinueTrace lib headers z = Returned tt z' /\
       this_traceId z' = Some (continued headers t s) /\
       current_id z' = Some (continued headers t s) /\
       draws z' = draws z) /\
  (headerless headers ->
     exists z' root,
       createOrContinueTrace lib headers z = Returned tt z' /\
       this_traceId z' = Some root /\
       current_id z' = Some root /\
       traceId root = randomTraceId lib (draws z) /\
       spanId root = randomTraceId lib (draws z) /\
       parentId root = None /\
       draws z' = S (draws z) /\
       forall headers',
         headerless headers' ->
         exists z'' root',
           createOrContinueTrace lib headers' z' = Returned tt z'' /\
           this_traceId z'' = Some root' /\
           parentId root' = None /\
           traceId root' = randomTraceId lib (S (draws z))).
Proof.
  split.
  - intros t s Ht Hs Htne Hsne. unfold createOrContinueTrace.
    rewrite Ht, Hs, !nonempty_Some by assumption.
    rewrite debug_flag. eexists. split; [reflexivity|].
    cbn. unfold continued, TraceId_new. repeat split.
    all: destruct (bool_decide (parseInt10 _ = _));
      destruct (nonempty (headers !! "x-b3-sampled")); reflexivity.
  - intros Hless. eexists _, _. split; [apply (root_created lib headers z Hless)|].
    cbn [this_traceId current_id traceId spanId parentId draws].
    repeat split.
    intros headers' Hless'.
    eexists _, _. split; [apply (root_created lib headers' _ Hless')|].
    cbn [this_traceId current_id traceId spanId parentId draws].
    repeat split.
Qed.

Lemma trace_context_from_headers_witness :
  let headers := b3_headers [("x-b3-traceid", "463ac35c9f6413ad"); ("x-b3-spanid", "a2fb4a1d1a96d312");
                             ("x-b3-sampled", "0"); ("x-b3-flags", "1")] in
  (exists z' id,
     createOrContinueTrace counting_library headers new_Zipkin = Returned tt z' /\
     this_traceId z' = Some id /\
     traceId id = "463ac35c9f6413ad" /\ spanId id = "a2fb4a1d1a96d312" /\
     parentId id = None /\ debug id = true /\ sampled id = Some true /\
     draws z' = 0) /\
  (exists z' root,
     createOrContinueTrace counting_library (b3_headers []) new_Zipkin = Returned tt z' /\
     this_traceId z' = Some root /\
     traceId root = "0" /\
     exists z'' root',
       createOrContinueTrace counting_library (b3_headers []) z' = Returned tt z'' /\
       this_traceId z'' = Some root' /\
       parentId root' = None /\
       traceId root' = "1").
Proof.
  intros headers. split.
  - destruct (trace_context_from_headers counting_library headers new_Zipkin) as (Hcont & _).
    destruct (Hcont "463ac35c9f6413ad" "a2fb4a1d1a96d312")
      as (z' & Hrun & Hid & _ & Hdraws);
      [reflexivity | reflexivity | discriminate | discriminate |].
    exists z', (continued headers "463ac35c9f6413ad" "a2fb4a1d1a96d312").
    split; [exact Hrun|]. split; [exact Hid|]. rewrite Hdraws. repeat split.
  - destruct (trace_context_from_headers counting_library (b3_headers []) new_Zipkin)
      as (_ & Hroot).
    destruct (Hroot (or_introl eq_refl))
      as (z' & root & Hrun & Hid & _ & Htrace & _ & _ & _ & Hnext).
    exists z', root. split; [exact Hrun|]. split; [exact Hid|]. split; [exact Htrace|].
    destruct (Hnext (b3_headers []) (or_introl eq_refl)) as (z'' & root' & H1 & H2 & H3 & H4).
    exists z'', root'. repeat split; assumption.
Defined.

(** C5, the claim as stated fails, in three ways.  A header that is
    there but empty counts as absent: an empty trace-id header gives a new
    root, not the ids of the headers, and an empty sampled header leaves
    the sampled flag absent.  The sampled flag is there without its
    header when the flags header says debug.  And the identifiers of two
    requests without headers are what the library's generator yields, with
    no check on the tracer's side: when the generator yields the same
    identifier again, the two requests get the same trace id. *)
Lemma empty_header_counts_as_absent :
  let h1 := b3_headers [("x-b3-traceid", EmptyString); ("x-b3-spanid", "b")] in
  let h2 := b3_headers [("x-b3-traceid", "a"); ("x-b3-spanid", "b");
                        ("x-b3-sampled", EmptyString)] in
  let h3 := b3_headers [("x-b3-traceid", "a"); ("x-b3-spanid", "b"); ("x-b3-flags", "1")] in
  let first := state_of (createOrContinueTrace repeating_library (b3_headers []) new_Zipkin) in
  let second := state_of (createOrContinueTrace repeating_library (b3_headers []) first) in
  (h1 !! "x-b3-traceid" = Some EmptyString /\ h1 !! "x-b3-spanid" = Some "b" /\
   (spanId <$> this_traceId (state_of (createOrContinueTrace counting_library h1 new_Zipkin)))
     = Some "0") /\
  (is_Some (h2 !! "x-b3-sampled") /\
   (sampled <$> this_traceId (state_of (createOrContinueTrace counting_library h2 new_Zipkin)))
     = Some None) /\
  (h3 !! "x-b3-sampled" = None /\
   (sampled <$> this_traceId (state_of (createOrContinueTrace counting_library h3 new_Zipkin)))
     = Some (Some true)) /\
  (draws first = 1 /\ draws second = 2 /\
   (traceId <$> this_traceId first) = (traceId <$> this_traceId second)).
Proof. vm_compute. repeat split. now exists EmptyString. Qed.

End TraceContext.

(** * More on the stream bridge *)

Section Frames.

Context {X : Type} (f : World -> X).

Lemma keeps_ret {A} (a : A) : keeps f (ret a).
Proof. intros w. reflexivity. Qed.

Lemma keeps_throw {A} (e : JsError) : keeps f (@throw World A e).
Proof. intros w. reflexivity. Qed.

Lemma keeps_gets {A} (g : World -> A) : keeps f (gets g).
Proof. intros w. reflexivity. Qed.

Lemma keeps_modify (g : World -> World) : (forall w, f (g w) = f w) -> keeps f (modify g).
Proof. intros H w. apply H. Qed.

Lemma keeps_bind {A B} (m : Js World A) (k : A -> Js World B) :
  keeps f m -> (forall a, keeps f (k a)) -> keeps f (bind m k).
Proof.
  intros Hm Hk w. unfold bind. specialize (Hm w).
  destruct (m w) as [a w'|e w']; cbn [state_of] in *.
  - rewrite Hk. exact Hm.
  - exact Hm.
Qed.

Lemma keeps_forEach {A} (g : A -> Js World unit) (l : list A) :
  (forall a, keeps f (g a)) -> keeps f (forEach g l).
Proof.
  intros Hg. induction l as [|a l IH]; cbn [forEach].
  - apply keeps_ret.
  - apply keeps_bind; [apply Hg|intros _; exact IH].
Qed.

Lemma keeps_repeat (n : nat) (m : Js World unit) : keeps f m -> keeps f (repeat_js n m).
Proof.
  intros Hm. induction n as [|n IH]; cbn [repeat_js].
  - apply keeps_ret.
  - apply keeps_bind; [exact Hm|intros _; exact IH].
Qed.

Lemma keeps_alloc : (forall w, f (bump w) = f w) -> keeps f alloc.
Proof. intros H w. apply H. Qed.

Lemma keeps_stream_read sid size :
  (forall g w, f (upd_stream sid g w) = f w) -> keeps f (stream_read sid size).
Proof.
  intros H w. unfold stream_read. destruct (Stream_read _ _). apply H.
Qed.

Lemma keeps_stream_removeListener sid event fn :
  (forall g w, f (upd_stream sid g w) = f w) -> keeps f (stream_removeListener sid event fn).
Proof.
  intros H. unfold stream_removeListener. destruct fn.
  - apply keeps_modify. intros w. apply H.
  - apply keeps_throw.
Qed.

End Frames.

(** Breaking a method body into its steps. *)
Ltac frame :=
  repeat first
    [ apply keeps_ret | apply keeps_throw | apply keeps_gets
    | apply keeps_bind; [|intros ?]
    | apply keeps_forEach; intros ?
    | apply keeps_repeat
    | apply keeps_alloc; intros ?; reflexivity
    | apply keeps_modify; intros ?; autorewrite with store; reflexivity
    | apply keeps_stream_read; intros ? ?; reflexivity
    | apply keeps_stream_removeListener; intros ? ?; reflexivity
    | match goal with
      | |- keeps _ (match ?x with _ => _ end) => destruct x
      | |- keeps _ (if ?x then _ else _) => destruct x
      end ].

Section WhatMethodsLeaveAlone.

Implicit Types (w : World).

Lemma call_keeps_both f arg : keeps both_sides (call f arg).
Proof.
  destruct f; cbn [call]; unfold this_emit, push, onreadable_body; frame.
Qed.


Lemma keeps_both_dest_side {A} (m : Js World A) : keeps both_sides m -> keeps dest_side m.
Proof.
  intros H w. specialize (H w). unfold both_sides in H. unfold dest_side.
  injection H as _ H2 H3. now rewrite H2, H3.
Qed.

Lemma keeps_both_source_side {A} (m : Js World A) : keeps both_sides m -> keeps source_side m.
Proof.
  intros H w. specialize (H w). unfold both_sides in H. unfold source_side.
  now injection H as H1 _ _.
Qed.

Lemma emit_keeps_both sid event arg : keeps both_sides (emit sid event arg).
Proof.
  unfold emit. frame; apply call_keeps_both.
Qed.

Lemma complete_write_keeps_both sid : keeps both_sides (complete_write sid).
Proof. unfold complete_write. frame. Qed.

Lemma consume_keeps_both : keeps both_sides consume.
Proof. unfold consume. frame. Qed.

Lemma finish_keeps_both : keeps both_sides finish.
Proof. unfold finish, this_emit. frame. Qed.

Lemma read_keeps_dest_side size : keeps dest_side (_read size).
Proof.
  unfold _read. frame.
Qed.

Lemma addSource_keeps_dest_side stream : keeps dest_side (addSource stream).
Proof.
  unfold addSource, source_listen. frame.
Qed.

Lemma removeSource_keeps_dest_side : keeps dest_side removeSource.
Proof.
  unfold removeSource. frame.
Qed.

Lemma write_keeps_source_side a : keeps source_side (_write a).
Proof. unfold _write. frame. Qed.

Lemma addDest_keeps_source_side stream : keeps source_side (addDest stream).
Proof. unfold addDest, dest_listen. frame. Qed.

Lemma removeDest_keeps_source_side : keeps source_side removeDest.
Proof.
  unfold removeDest. frame.
Qed.

End WhatMethodsLeaveAlone.
(** Looking up a stream other than the ones the steps touched. *)
Ltac other_stream :=
  repeat (rewrite ?stream_at_upd_stream_ne by congruence; autorewrite with store).

Section Outcomes.

Implicit Types (w : World).

Lemma read_outcome size w :
  exists w', _read size w = Returned tt w' /\
    dest_side w' = dest_side w /\
    match _source (this w) with
    | None => _source (this w') = None
    | Some s =>
        exists f, _source (this w') =
          Some {| source_stream := source_stream s;
                  source_listeners := source_listeners s;
                  source_onend := source_onend s;
                  source_onreadable := Some f |}
    end.
Proof.
  pose proof (read_keeps_dest_side size w) as Hk.
  unfold _read in *. revert Hk. run.
  destruct (_source (this w)) as [s|] eqn:Hs; run.
  - unfold call, onreadable_body. run. rewrite bind_stream_read.
    destruct (Stream_read size _).1; unfold push; run; intros Hk;
      (eexists; split; [reflexivity|]); (split; [exact Hk|]); run; eauto.
  - intros Hk. eexists. split; [reflexivity|]. split; [exact Hk|]. run. exact Hs.
Qed.

Lemma write_outcome a w :
  exists w', _write a w = Returned tt w' /\
    _source (this w') = _source (this w) /\
    _dest (this w') = _dest (this w) /\
    _destWritten (this w') =
      match _dest (this w) with
      | Some _ => _destWritten (this w)
      | None => _destWritten (this w) ++ [a]
      end.
Proof.
  unfold _write. run. destruct (_dest (this w)) eqn:Hd; run;
    (eexists; split; [reflexivity|]); run; rewrite ?Hd; auto.
Qed.

Lemma addSource_outcome stream w :
  match _source (this w) with
  | Some _ => addSource stream w = Thrown (Error "A source stream has already been added.") w
  | None =>
      exists w', addSource stream w = Returned tt w' /\
        _source (this w') = Some (attached_source stream (next_id w) (_sourceRead (this w))) /\
        dest_side w' = dest_side w
  end.
Proof.
  destruct (_source (this w)) eqn:Hs.
  - unfold addSource, bind, gets. now rewrite Hs.
  - destruct (addSource_spec w stream Hs) as (w' & Hrun & Hsrc & _).
    exists w'. split; [exact Hrun|]. split; [exact Hsrc|].
    pose proof (addSource_keeps_dest_side stream w) as Hk.
    now rewrite Hrun in Hk.
Qed.

Lemma removeSource_outcome w :
  match _source (this w) with
  | None => removeSource w = Thrown (Error "A source stream has not been added.") w
  | Some src =>
      source_complete src ->
      exists w', removeSource w = Returned tt w' /\
        _source (this w') = None /\
        dest_side w' = dest_side w
  end.
Proof.
  destruct (_source (this w)) as [src|] eqn:Hs.
  - intros ([fe He] & [fc Hc] & [fr Hr]).
    pose proof (removeSource_keeps_dest_side w) as Hk.
    unfold removeSource in *. revert Hk. run. rewrite Hs, He, Hc, Hr.
    unfold stream_removeListener. run. intros Hk.
    eexists. split; [reflexivity|]. split; [reflexivity|exact Hk].
  - unfold removeSource, bind, gets. now rewrite Hs.
Qed.

Lemma removeSource_this w :
  this (state_of (removeSource w)) = this w \/
  this (state_of (removeSource w)) = set_source None (this w).
Proof.
  unfold removeSource. run. destruct (_source (this w)) as [src|]; [|now left].
  cbn [forEach SOURCE_EVENTS]. unfold stream_removeListener.
  destruct (source_listeners src !! "error"); run; [|now left].
  destruct (source_listeners src !! "close"); run; [|now left].
  destruct (source_onreadable src); run; [|now left].
  now right.
Qed.

Lemma forEach_Stream_write_other d sid ws w :
  sid <> d ->
  stream_at sid (state_of (forEach (fun args => modify (upd_stream d (Stream_write args))) ws w))
    = stream_at sid w.
Proof.
  intros Hne. revert w. induction ws as [|a ws IH]; intros w; [reflexivity|].
  cbn [forEach]. run. rewrite IH. now rewrite stream_at_upd_stream_ne by congruence.
Qed.

Lemma forEach_Stream_write_listeners d ws w :
  st_listeners (stream_at d
    (state_of (forEach (fun args => modify (upd_stream d (Stream_write args))) ws w)))
    = st_listeners (stream_at d w).
Proof.
  revert w. induction ws as [|a ws IH]; intros w; [reflexivity|].
  cbn [forEach]. run. rewrite IH. now run.
Qed.

Lemma addDest_attached d w :
  _dest (this w) = None ->
  exists w',
    addDest d w = Returned tt w' /\
    _dest (this w') =
      Some {| dest_stream := d;
              dest_listeners :=
                <["close" := relay (1 + next_id w) "close"]>
                  (<["drain" := relay (next_id w) "drain"]> ∅) |} /\
    _destWritten (this w') = [] /\
    _source (this w') = _source (this w) /\
    st_listeners (stream_at d w') =
      st_listeners (stream_at d w) ++ attach_dest_listeners (next_id w) /\
    st_writes (stream_at d w') = st_writes (stream_at d w) ++ _destWritten (this w) /\
    (forall sid, sid <> d -> stream_at sid w' = stream_at sid w) /\
    super (this w') = super (this w) /\
    invoked w' = invoked w.
Proof.
  intros Hd. unfold addDest. run. rewrite Hd. run.
  unfold dest_listen. run.
  destruct (_destWritten (this w)) as [|a q] eqn:Hq.
  - cbn [length]. rewrite bool_decide_eq_true_2 by reflexivity. run.
    eexists. split; [reflexivity|]. run.
    unfold Stream_on, attach_dest_listeners. cbn [st_listeners st_writes set_listeners].
    rewrite Hq, app_nil_r, <- app_assoc. repeat split; try reflexivity.
    intros sid Hne. now other_stream.
  - rewrite bool_decide_eq_false_2 by discriminate.
    match goal with |- context [bind (forEach _ _) _ ?w0] =>
      destruct (forEach_Stream_write d (a :: q) w0) as (w1 & Hrun & Hth & Hw & Hc & Hinv);
      pose proof (fun sid => forEach_Stream_write_other d sid (a :: q) w0) as Hother
    end.
    rewrite Hrun in Hother. cbn [state_of] in Hother.
    pose proof (forEach_Stream_write_listeners d (a :: q)) as Hls.
    match type of Hrun with _ ?w0 = _ => specialize (Hls w0) end.
    rewrite Hrun in Hls. cbn [state_of] in Hls.
    rewrite (bind_returned _ _ _ _ _ Hrun). run.
    eexists. split; [reflexivity|].
    revert Hth Hw Hinv Hls Hother. run. unfold Stream_on, attach_dest_listeners.
    cbn [st_writes st_listeners set_listeners].
    intros Hth Hw Hinv Hls Hother. rewrite Hth, Hw, Hinv, Hls. run.
    rewrite <- app_assoc. repeat split; try reflexivity.
    intros sid Hne. other_stream. rewrite (Hother sid Hne). now other_stream.
Qed.

End Outcomes.
Section Consistency.

Implicit Types (w : World).

Lemma removeDest_outcome w :
  match _dest (this w) with
  | None => removeDest w = Thrown (Error "A destination stream has not been added.") w
  | Some dst =>
      dest_complete dst ->
      exists w', removeDest w = Returned tt w' /\
        _dest (this w') = None /\
        _destWritten (this w') = [] /\
        _source (this w') = _source (this w) /\
        st_listeners (stream_at (dest_stream dst) w') =
          remove_last (listens "close" (default (external 0) (dest_listeners dst !! "close")))
            (remove_last (listens "drain" (default (external 0) (dest_listeners dst !! "drain")))
               (st_listeners (stream_at (dest_stream dst) w))) /\
        st_writes (stream_at (dest_stream dst) w') = st_writes (stream_at (dest_stream dst) w) /\
        (forall sid, sid <> dest_stream dst -> stream_at sid w' = stream_at sid w)
  end.
Proof.
  destruct (_dest (this w)) as [dst|] eqn:Hd.
  - intros ([fd Hfd] & [fc Hfc]).
    unfold removeDest. run. rewrite Hd, Hfd, Hfc.
    unfold stream_removeListener. run.
    eexists. split; [reflexivity|]. run.
    unfold Stream_removeListener. cbn [st_listeners st_writes set_listeners default].
    repeat split. intros sid Hne. now other_stream.
  - unfold removeDest, bind, gets. now rewrite Hd.
Qed.

Lemma consistent_sides w w' : both_sides w' = both_sides w -> consistent w -> consistent w'.
Proof.
  unfold both_sides. intros H. injection H as Hs Hd Hq.
  unfold consistent, queue_empty_when_attached, bookkeeping.
  now rewrite Hs, Hd, Hq.
Qed.

Lemma well_behaved_keeps {A} (m : Js World A) :
  keeps both_sides m -> (forall w, returns (m w) = true) -> well_behaved m.
Proof.
  intros Hk Hr w Hw. split.
  - apply (consistent_sides w); [apply Hk|exact Hw].
  - specialize (Hr w). now destruct (m w).
Qed.

Lemma well_behaved_ret {A} (a : A) : well_behaved (@ret World A a).
Proof. intros w Hw. now split. Qed.

Lemma well_behaved_bind {A B} (m : Js World A) (k : A -> Js World B) :
  well_behaved m -> (forall a, well_behaved (k a)) -> well_behaved (bind m k).
Proof.
  intros Hm Hk w Hw. unfold bind. destruct (Hm w Hw) as (Hc & He).
  destruct (m w) as [a w'|e w']; cbn [state_of] in *.
  - apply Hk, Hc.
  - split; assumption.
Qed.

Lemma well_behaved_gets {A} (g : World -> A) : well_behaved (gets g).
Proof. intros w Hw. now split. Qed.

Lemma well_behaved_read size : well_behaved (_read size).
Proof.
  intros w (Hq & Hbs & Hbd).
  destruct (read_outcome size w) as (w' & Hrun & Hds & Hsrc).
  rewrite Hrun. cbn [state_of attach_errors_only]. split; [|exact I].
  unfold dest_side in Hds. injection Hds as Hd Hw.
  split; [|split].
  - unfold queue_empty_when_attached. now rewrite Hd, Hw.
  - intros src Hs'. destruct (_source (this w)) as [s|] eqn:Hs.
    + destruct Hsrc as (f & Hsrc). rewrite Hsrc in Hs'. injection Hs' as <-.
      destruct (Hbs s eq_refl) as (He & Hc & _).
      repeat split; cbn; eauto.
    + congruence.
  - intros dst Hd'. apply Hbd. now rewrite <- Hd.
Qed.

Lemma well_behaved_write a : well_behaved (_write a).
Proof.
  intros w (Hq & Hbs & Hbd).
  destruct (write_outcome a w) as (w' & Hrun & Hs & Hd & Hw).
  rewrite Hrun. cbn [state_of attach_errors_only]. split; [|exact I].
  split; [|split].
  - unfold queue_empty_when_attached in *. rewrite Hd, Hw. intros Hsome.
    destruct (_dest (this w)) eqn:E; [apply Hq; eauto|].
    destruct Hsome as [x Hx]. discriminate Hx.
  - intros src. rewrite Hs. apply Hbs.
  - intros dst. rewrite Hd. apply Hbd.
Qed.

Lemma attached_source_complete stream n size : source_complete (attached_source stream n size).
Proof.
  unfold source_complete, attached_source. cbn.
  rewrite lookup_insert_ne by done. rewrite !lookup_insert_eq. eauto.
Qed.

Lemma well_behaved_addSource stream : well_behaved (addSource stream).
Proof.
  intros w Hw.
  pose proof (addSource_outcome stream w) as Hout.
  destruct (_source (this w)) eqn:Hs.
  - rewrite Hout. cbn. split; [exact Hw|left; now left].
  - destruct Hw as (Hq & Hbs & Hbd).
    destruct Hout as (w' & Hrun & Hsrc & Hds). rewrite Hrun. cbn [state_of attach_errors_only].
    split; [|exact I]. unfold dest_side in Hds. injection Hds as Hd Hw.
    split; [|split].
    + unfold queue_empty_when_attached in *. now rewrite Hd, Hw.
    + intros src. rewrite Hsrc. intros E. injection E as <-. apply attached_source_complete.
    + intros dst. rewrite Hd. apply Hbd.
Qed.

Lemma well_behaved_removeSource : well_behaved removeSource.
Proof.
  intros w Hw.
  pose proof (removeSource_outcome w) as Hout.
  destruct (_source (this w)) as [src|] eqn:Hs.
  - destruct Hw as (Hq & Hbs & Hbd).
    destruct (Hout (Hbs src Hs)) as (w' & Hrun & Hnone & Hds). rewrite Hrun.
    cbn [state_of attach_errors_only]. split; [|exact I].
    unfold dest_side in Hds. injection Hds as Hd Hw.
    split; [|split].
    + unfold queue_empty_when_attached in *. now rewrite Hd, Hw.
    + intros src'. now rewrite Hnone.
    + intros dst. rewrite Hd. apply Hbd.
  - rewrite Hout. cbn. split; [exact Hw|right; now left].
Qed.

Lemma well_behaved_addDest stream : well_behaved (addDest stream).
Proof.
  intros w Hw.
  destruct (_dest (this w)) as [dst|] eqn:Hd.
  - assert (Hrun : addDest stream w =
                   Thrown (Error "A destination stream has already been added.") w).
    { unfold addDest, bind, gets. now rewrite Hd. }
    rewrite Hrun. cbn. split; [exact Hw|left; now right].
  - destruct Hw as (Hq & Hbs & Hbd).
    destruct (addDest_attached stream w Hd) as (w' & Hrun & Hdst & Hw & Hs & _).
    rewrite Hrun. cbn [state_of attach_errors_only]. split; [|exact I].
    split; [|split].
    + intros _. exact Hw.
    + intros src. rewrite Hs. apply Hbs.
    + intros dst. rewrite Hdst. intros E. injection E as <-.
      unfold dest_complete. cbn. rewrite lookup_insert_ne by done.
      rewrite !lookup_insert_eq. eauto.
Qed.

Lemma well_behaved_removeDest : well_behaved removeDest.
Proof.
  intros w Hw.
  pose proof (removeDest_outcome w) as Hout.
  destruct (_dest (this w)) as [dst|] eqn:Hd.
  - destruct Hw as (Hq & Hbs & Hbd).
    destruct (Hout (Hbd dst Hd)) as (w' & Hrun & Hnone & Hw & Hs & _). rewrite Hrun.
    cbn [state_of attach_errors_only]. split; [|exact I].
    split; [|split].
    + intros _. exact Hw.
    + intros src. rewrite Hs. apply Hbs.
    + intros dst'. now rewrite Hnone.
  - rewrite Hout. cbn. split; [exact Hw|right; now right].
Qed.

Lemma well_behaved_resolve stream : well_behaved (resolve stream).
Proof.
  unfold resolve.
  repeat first
    [ apply well_behaved_addSource | apply well_behaved_addDest
    | apply well_behaved_gets | apply well_behaved_ret
    | apply well_behaved_bind; [|intros ?]
    | match goal with |- well_behaved (if ?c then _ else _) => destruct c end ].
Qed.

Lemma well_behaved_unresolve : well_behaved unresolve.
Proof.
  unfold unresolve.
  repeat first
    [ apply well_behaved_removeSource | apply well_behaved_removeDest
    | apply well_behaved_gets | apply well_behaved_ret
    | apply well_behaved_bind; [|intros ?]
    | match goal with |- well_behaved (match ?c with _ => _ end) => destruct c end ].
Qed.

End Consistency.
Section Histories.

Implicit Types (w : World) (o : Op) (ops : list Op).

Lemma initial_consistent options heap : consistent (initial options heap).
Proof.
  split; [|split]; cbn.
  - intros [x Hx]. discriminate Hx.
  - intros src Hsrc. discriminate Hsrc.
  - intros dst Hdst. discriminate Hdst.
Qed.

Lemma run_op_consistent o w : consistent w -> consistent (state_of (run_op o w)).
Proof.
  intros Hw. destruct o; cbn [run_op].
  - now apply well_behaved_read.
  - now apply well_behaved_write.
  - now apply well_behaved_addSource.
  - now apply well_behaved_removeSource.
  - now apply well_behaved_addDest.
  - now apply well_behaved_removeDest.
  - now apply well_behaved_resolve.
  - now apply well_behaved_unresolve.
  - apply (consistent_sides w); [apply finish_keeps_both|exact Hw].
  - apply (consistent_sides w); [|exact Hw].
    apply (keeps_bind both_sides); [apply emit_keeps_both|intros; apply keeps_ret].
  - apply (consistent_sides w); [apply complete_write_keeps_both|exact Hw].
  - apply (consistent_sides w); [apply consume_keeps_both|exact Hw].
  - apply (consistent_sides w); [unfold this_on_error; frame|exact Hw].
  - apply (consistent_sides w); [unfold this_off_error; frame|exact Hw].
Qed.

Lemma after_consistent ops w : consistent w -> consistent (after ops w).
Proof.
  revert w. induction ops as [|o ops IH]; intros w Hw; [exact Hw|].
  cbn [after fold_left]. apply IH, run_op_consistent, Hw.
Qed.

(** X1.  Whatever is done to a new bridge, in whatever order and whether
    or not calls throw on the way: whenever a destination is attached, the
    queue of pending writes is empty. *)
Theorem queue_empty_while_attached options heap ops :
  let w := after ops (initial options heap) in
  is_Some (_dest (this w)) -> _destWritten (this w) = [].
Proof.
  intros w. apply (after_consistent ops (initial options heap)), initial_consistent.
Qed.

Lemma queue_empty_while_attached_witness :
  let w := after [op_write (sample_write 1 "a"); op_addDest 9; op_write (sample_write 2 "b");
                  op_addDest 8; op_emit 9 "drain" undefined]
                 (initial {| readable := None; writable := None |} ∅) in
  is_Some (_dest (this w)) /\ _destWritten (this w) = [].
Proof.
  intros w. assert (H : is_Some (_dest (this w))) by (vm_compute; eauto).
  split; [exact H|].
  exact (queue_empty_while_attached {| readable := None; writable := None |} ∅ _ H).
Defined.

(** X2.  After any history of a new bridge, a call of any of its methods
    returns or throws one of the two attachment errors: in particular
    [removeSource] and [removeDest] always find the listeners they look up,
    and never hand [removeListener] an undefined one. *)
Theorem methods_throw_attachment_errors_only options heap ops o :
  is_method o = true ->
  attach_errors_only (run_op o (after ops (initial options heap))).
Proof.
  intros Hm.
  pose proof (after_consistent ops _ (initial_consistent options heap)) as Hw.
  destruct o; try discriminate Hm; cbn [run_op].
  - now apply well_behaved_read.
  - now apply well_behaved_write.
  - now apply well_behaved_addSource.
  - now apply well_behaved_removeSource.
  - now apply well_behaved_addDest.
  - now apply well_behaved_removeDest.
  - now apply well_behaved_resolve.
  - now apply well_behaved_unresolve.
Qed.

Lemma methods_throw_attachment_errors_only_witness :
  attach_errors_only
    (run_op op_removeSource
       (after [op_addSource 7; op_read (Some 4); op_emit 7 "readable" undefined]
              (initial {| readable := None; writable := None |} ∅))).
Proof.
  apply (methods_throw_attachment_errors_only
           {| readable := None; writable := None |} ∅
           [op_addSource 7; op_read (Some 4); op_emit 7 "readable" undefined]
           op_removeSource).
  reflexivity.
Defined.

(** X3.  After any history of a new bridge, [unresolve] returns, and it
    leaves the bridge with no source and no destination.  The queue of
    pending writes is empty afterwards if a destination was attached; if
    none was, the writes that were queued stay queued. *)
Theorem unresolve_detaches_everything options heap ops :
  exists w',
    unresolve (after ops (initial options heap)) = Returned tt w' /\
    _source (this w') = None /\
    _dest (this w') = None /\
    (is_Some (_dest (this (after ops (initial options heap)))) -> _destWritten (this w') = []) /\
    (_dest (this (after ops (initial options heap))) = None ->
       _destWritten (this w') = _destWritten (this (after ops (initial options heap)))).
Proof.
  pose proof (after_consistent ops _ (initial_consistent options heap)) as Hw.
  set (w := after ops (initial options heap)) in *.
  destruct Hw as (Hq & Hbs & Hbd).
  unfold unresolve. run.
  pose proof (removeSource_outcome w) as Hrs.
  destruct (_source (this w)) as [src|] eqn:Hs.
  - destruct (Hrs (Hbs src eq_refl)) as (w1 & Hrun1 & Hnone1 & Hds1).
    rewrite (bind_returned _ _ _ _ _ Hrun1). run.
    unfold dest_side in Hds1. injection Hds1 as Hd1 Hw1.
    pose proof (removeDest_outcome w1) as Hrd. rewrite Hd1 in *.
    destruct (_dest (this w)) as [dst|] eqn:Hd.
    + destruct (Hrd (Hbd dst eq_refl)) as (w2 & Hrun2 & Hnone2 & Hw2 & Hs2 & _).
      exists w2. rewrite Hrun2. repeat split; intros; congruence.
    + run. exists w1. repeat split; try congruence. intros [x Hx]. discriminate Hx.
  - run. pose proof (removeDest_outcome w) as Hrd.
    destruct (_dest (this w)) as [dst|] eqn:Hd.
    + destruct (Hrd (Hbd dst eq_refl)) as (w2 & Hrun2 & Hnone2 & Hw2 & Hs2 & _).
      exists w2. rewrite Hrun2. repeat split; intros; congruence.
    + run. exists w. repeat split; try congruence. intros [x Hx]. discriminate Hx.
Qed.

Lemma unresolve_detaches_everything_witness :
  let w := after [op_addSource 7; op_write (sample_write 1 "a")]
                 (initial {| readable := None; writable := None |} ∅) in
  exists w',
    unresolve w = Returned tt w' /\
    _source (this w') = None /\
    _dest (this w') = None /\
    _destWritten (this w') = [sample_write 1 "a"].
Proof.
  intros w.
  destruct (unresolve_detaches_everything {| readable := None; writable := None |} ∅
              [op_addSource 7; op_write (sample_write 1 "a")])
    as (w' & Hrun & Hs & Hd & _ & Hkept).
  exists w'. split; [exact Hrun|]. split; [exact Hs|]. split; [exact Hd|].
  rewrite Hkept; reflexivity.
Defined.

End Histories.

Section DeferredRead.

Implicit Types (w : World) (s : Stream).

Lemma substring_all (b : string) : String.substring 0 (String.length b) b = b.
Proof. induction b as [|c b IH]; [reflexivity|]. cbn. now rewrite IH. Qed.

Lemma substring_split (n : nat) (b : string) :
  n <= String.length b ->
  String.substring 0 n b +:+ String.substring n (String.length b - n) b = b.
Proof.
  revert n. induction b as [|c b IH]; intros n Hn.
  - destruct n; [reflexivity|]. cbn in Hn. lia.
  - destruct n as [|n].
    + rewrite Nat.sub_0_r, substring_all. reflexivity.
    + cbn in Hn. cbn.
      change (String c (String.substring 0 n b +:+
                        String.substring n (String.length b - n) b) = String c b).
      f_equal. apply IH. lia.
Qed.

Lemma howMuchToRead_le size s : howMuchToRead size s <= String.length (st_buffer s).
Proof.
  unfold howMuchToRead. destruct size as [n|]; [|lia].
  destruct (Nat.leb_spec n (String.length (st_buffer s))); [lia|].
  destruct (st_ended s); lia.
Qed.

(** What [read] returns and what it leaves make up the buffer. *)
Lemma Stream_read_conserves size s :
  default EmptyString (Stream_read size s).1 +:+ st_buffer (Stream_read size s).2 = st_buffer s.
Proof.
  unfold Stream_read. pose proof (howMuchToRead_le size s) as Hle.
  destruct (Nat.eqb_spec (howMuchToRead size s) 0) as [E|E]; cbn.
  - reflexivity.
  - now apply substring_split.
Qed.

Lemma Stream_read_nonempty size s d : (Stream_read size s).1 = Some d -> d <> EmptyString.
Proof.
  unfold Stream_read. pose proof (howMuchToRead_le size s) as Hle.
  destruct (Nat.eqb_spec (howMuchToRead size s) 0) as [E|E]; cbn; [discriminate|].
  intros H. injection H as <-.
  destruct (howMuchToRead size s) as [|n]; [congruence|].
  destruct (st_buffer s); cbn in *; [lia|discriminate].
Qed.

Lemma Stream_read_Readable size s : st_Readable (Stream_read size s).2 = st_Readable s.
Proof. unfold Stream_read. now destruct (_ =? _)%nat. Qed.

Lemma Stream_read_Writable size s : st_Writable (Stream_read size s).2 = st_Writable s.
Proof. unfold Stream_read. now destruct (_ =? _)%nat. Qed.

Lemma Stream_read_buffer_ext size s s' :
  st_buffer s = st_buffer s' -> st_ended s = st_ended s' ->
  st_buffer (Stream_read size s).2 = st_buffer (Stream_read size s').2.
Proof.
  intros Hb He. unfold Stream_read, howMuchToRead. rewrite Hb, He.
  now destruct (_ =? _)%nat.
Qed.

Lemma addSource_reads w stream :
  _source (this w) = None ->
  let size := _sourceRead (this w) in
  let r := Stream_read size (stream_at stream w) in
  exists w1,
    addSource stream w = Returned tt w1 /\
    super (this w1) =
      match r.1 with
      | Some d => Duplex_push (Some d) (super (this w))
      | None => super (this w)
      end /\
    st_buffer (stream_at stream w1) = st_buffer r.2 /\
    st_Readable (stream_at stream w1) = st_Readable (stream_at stream w) /\
    st_Writable (stream_at stream w1) = st_Writable (stream_at stream w) /\
    _readable (this w1) = _readable (this w) /\
    _writable (this w1) = _writable (this w) /\
    (forall sid, sid <> stream -> stream_at sid w1 = stream_at sid w) /\
    invoked w1 = invoked w.
Proof.
  intros Hs size r.
  unfold addSource. run. rewrite Hs. run.
  unfold source_listen. run. unfold _read. run. unfold call, onreadable_body. run.
  rewrite bind_stream_read. run.
  fold size. unfold Stream_on at 1 2 3. rewrite !Stream_read_set_listeners.
  fold r. unfold push.
  destruct r.1 as [d|] eqn:Hdata; eexists; (split; [run; reflexivity|]); run.
  - rewrite Stream_read_Readable, Stream_read_Writable. rewrite (Stream_read_buffer_ext size _ (stream_at stream w)) by reflexivity.
    repeat split; try reflexivity.
    intros sid Hne. now other_stream.
  - unfold Stream_once at 1 2 3. cbn [st_buffer st_Readable st_Writable set_listeners].
    rewrite Stream_read_Readable, Stream_read_Writable. rewrite (Stream_read_buffer_ext size _ (stream_at stream w)) by reflexivity.
    repeat split; try reflexivity.
    intros sid Hne. now other_stream.
Qed.

(** X4.  A read asked of a bridge that has no source only stores the
    size.  The next [addSource] performs that read: the bridge is pushed
    the chunk that [read(size)] yields on the new source at that moment (or
    nothing, if it yields none), the source keeps the rest, and chunk and
    rest together are what the source had buffered. *)
Theorem read_before_attach_is_performed_on_attach w (size : option nat) (stream : nat) :
  _source (this w) = None ->
  let r := Stream_read size (stream_at stream w) in
  exists w1 w2,
    _read size w = Returned tt w1 /\
    this w1 = set_sourceRead size (this w) /\
    (forall sid, stream_at sid w1 = stream_at sid w) /\
    addSource stream w1 = Returned tt w2 /\
    super (this w2) =
      match r.1 with
      | Some d => Duplex_push (Some d) (super (this w))
      | None => super (this w)
      end /\
    st_buffer (stream_at stream w2) = st_buffer r.2 /\
    default EmptyString r.1 +:+ st_buffer (stream_at stream w2) = st_buffer (stream_at stream w).
Proof.
  intros Hs r.
  assert (Hread : _read size w = Returned tt (upd_this (set_sourceRead size) w)).
  { unfold _read. run. rewrite Hs. now run. }
  destruct (addSource_reads (upd_this (set_sourceRead size) w) stream)
    as (w2 & Hadd & Hsup & Hbuf & _); [run; exact Hs|].
  revert Hsup Hbuf. run. fold r. intros Hsup Hbuf.
  exists (upd_this (set_sourceRead size) w), w2.
  split; [exact Hread|]. split; [now run|]. split; [intros sid; now run|].
  split; [exact Hadd|]. split; [exact Hsup|]. split; [exact Hbuf|].
  rewrite Hbuf. apply Stream_read_conserves.
Qed.

Lemma read_before_attach_is_performed_on_attach_witness :
  let w := upd_stream 7 (set_buffer "abcdef") fresh_bridge in
  exists w1 w2,
    _read (Some 4) w = Returned tt w1 /\
    addSource 7 w1 = Returned tt w2 /\
    readableBuffer (super (this w2)) = ["abcd"] /\
    st_buffer (stream_at 7 w2) = "ef".
Proof.
  intros w.
  destruct (read_before_attach_is_performed_on_attach w (Some 4) 7 eq_refl)
    as (w1 & w2 & H1 & _ & _ & H2 & Hsup & Hbuf & _).
  exists w1, w2. split; [exact H1|]. split; [exact H2|].
  rewrite Hsup, Hbuf. split; reflexivity.
Defined.

End DeferredRead.
Section Destinations.

Implicit Types (w : World).

Lemma cons_app_split2 {A} (l : list A) a b : l ++ [a; b] = (l ++ [a]) ++ [b].
Proof. now rewrite <- app_assoc. Qed.

(** X5.  Attach a destination and detach it again: both calls return, the
    destination has exactly the listeners it had before, it keeps the
    queued writes that were replayed to it, and the bridge is left with no
    destination and an empty queue. *)
Theorem destination_attached_then_detached w (d : nat) :
  _dest (this w) = None ->
  exists w1 w2,
    addDest d w = Returned tt w1 /\
    removeDest w1 = Returned tt w2 /\
    _dest (this w2) = None /\
    _destWritten (this w2) = [] /\
    st_listeners (stream_at d w2) = st_listeners (stream_at d w) /\
    st_writes (stream_at d w2) = st_writes (stream_at d w) ++ _destWritten (this w).
Proof.
  intros Hd.
  destruct (addDest_attached d w Hd) as (w1 & Hadd & Hdst & _ & _ & Hl & Hw & _).
  pose proof (removeDest_outcome w1) as Hrem. rewrite Hdst in Hrem.
  destruct Hrem as (w2 & Hrem & Hnone & Hq & _ & Hl2 & Hw2 & _).
  { split; cbn [dest_listeners].
    - rewrite lookup_insert_ne by done. rewrite lookup_insert_eq. eauto.
    - rewrite lookup_insert_eq. eauto. }
  cbn [dest_stream dest_listeners] in *.
  exists w1, w2. repeat split; try assumption.
  - rewrite Hl2, Hl. rewrite lookup_insert_eq.
    rewrite lookup_insert_ne by done. rewrite lookup_insert_eq.
    cbn [default]. unfold attach_dest_listeners. rewrite cons_app_split2.
    rewrite remove_last_miss by (apply listens_other_event; discriminate).
    rewrite remove_last_hit by apply listens_self.
    now rewrite remove_last_hit by apply listens_self.
  - now rewrite Hw2, Hw.
Qed.

Lemma destination_attached_then_detached_witness :
  let w := state_of (forEach _write [sample_write 1 "a"; sample_write 2 "b"] fresh_bridge) in
  exists w1 w2,
    addDest 9 w = Returned tt w1 /\
    removeDest w1 = Returned tt w2 /\
    _dest (this w2) = None /\
    _destWritten (this w2) = [] /\
    st_listeners (stream_at 9 w2) = st_listeners (stream_at 9 w) /\
    st_writes (stream_at 9 w2) = st_writes (stream_at 9 w) ++ _destWritten (this w).
Proof.
  intros w. apply (destination_attached_then_detached w 9). reflexivity.
Defined.

(** X6.  Writes made after a destination was detached are queued again,
    and the next destination that is attached gets them, in order; the
    destination that was detached gets none of them. *)
Theorem writes_after_detach_reach_next_destination w (dst : Dest) (ws : list WriteArgs)
    (next : nat) :
  _dest (this w) = Some dst ->
  dest_complete dst ->
  _destWritten (this w) = [] ->
  next <> dest_stream dst ->
  exists w1 w2 w3,
    removeDest w = Returned tt w1 /\
    forEach _write ws w1 = Returned tt w2 /\
    _destWritten (this w2) = ws /\
    addDest next w2 = Returned tt w3 /\
    _destWritten (this w3) = [] /\
    st_writes (stream_at next w3) = st_writes (stream_at next w) ++ ws /\
    st_writes (stream_at (dest_stream dst) w3) = st_writes (stream_at (dest_stream dst) w).
Proof.
  intros Hd Hcomplete Hq Hne.
  pose proof (removeDest_outcome w) as Hrem. rewrite Hd in Hrem.
  destruct (Hrem Hcomplete) as (w1 & Hrun1 & Hnone & Hq1 & _ & _ & Hw1 & Hother1).
  destruct (forEach_write_detached ws w1 Hnone) as (w2 & Hrun2 & Hnone2 & Hq2 & Hst2 & _).
  destruct (addDest_attached next w2 Hnone2) as (w3 & Hrun3 & _ & Hq3 & _ & _ & Hw3 & Hother3 & _).
  exists w1, w2, w3. rewrite Hq1 in Hq2. cbn [app] in Hq2.
  repeat split; try assumption.
  - rewrite Hw3, Hq2, Hst2. now rewrite Hother1.
  - rewrite Hother3 by congruence. now rewrite Hst2.
Qed.

Lemma writes_after_detach_reach_next_destination_witness :
  let w := state_of (addDest 9 fresh_bridge) in
  exists w1 w2 w3,
    removeDest w = Returned tt w1 /\
    forEach _write [sample_write 1 "a"; sample_write 2 "b"] w1 = Returned tt w2 /\
    addDest 8 w2 = Returned tt w3 /\
    map chunk (st_writes (stream_at 8 w3)) = ["a"; "b"] /\
    st_writes (stream_at 9 w3) = [].
Proof.
  intros w.
  destruct (writes_after_detach_reach_next_destination w
              {| dest_stream := 9;
                 dest_listeners := <["close" := relay 1 "close"]> (<["drain" := relay 0 "drain"]> ∅) |}
              [sample_write 1 "a"; sample_write 2 "b"] 8)
    as (w1 & w2 & w3 & H1 & H2 & _ & H3 & _ & Hn & Ho).
  - reflexivity.
  - split; vm_compute; eauto.
  - reflexivity.
  - discriminate.
  - cbn [dest_stream] in Ho.
    exists w1, w2, w3. split; [exact H1|]. split; [exact H2|]. split; [exact H3|].
    rewrite Hn, Ho. split; reflexivity.
Defined.

End Destinations.

Section Relays.

Implicit Types (w : World).

Lemma forEach_Stream_write_finished d ws w :
  st_finished (stream_at d
    (state_of (forEach (fun args => modify (upd_stream d (Stream_write args))) ws w)))
    = st_finished (stream_at d w).
Proof.
  revert w. induction ws as [|a ws IH]; intros w; [reflexivity|].
  cbn [forEach]. run. rewrite IH. now run.
Qed.

Lemma filter_attach_listeners event n size data :
  In event SOURCE_EVENTS ->
  filter (fun r => r_event r = event) (attach_listeners n size data) =
    [ {| r_event := event;
         r_fn := relay ((if bool_decide (event = "error") then 1 else 2) + n) event;
         r_once := false |} ].
Proof.
  intros [<-|[<-|[]]]; unfold attach_listeners; now destruct data.
Qed.

Lemma emit_unheard sid event arg w :
  no_listener event sid w ->
  emit sid event arg w =
    if bool_decide (event = "error")
    then Thrown (unhandled arg) w
    else Returned false w.
Proof.
  intros Hnone. unfold emit. run. unfold no_listener in Hnone. rewrite Hnone.
  now destruct (bool_decide (event = "error")).
Qed.

Lemma this_emit_heard event arg w :
  event <> "error" \/ errorListeners (super (this w)) <> 0 ->
  this_emit event arg w = Returned tt (upd_this (upd_super (Duplex_emit event arg)) w).
Proof.
  intros H. unfold this_emit. run.
  destruct (bool_decide_reflect (event = "error")) as [->|Hne]; [|reflexivity].
  destruct H as [H|H]; [congruence|].
  destruct (errorListeners (super (this w))); [congruence|reflexivity].
Qed.

Lemma bind_this_emit_other {B} event arg (k : unit -> Js World B) w :
  event <> "error" ->
  bind (this_emit event arg) k w = k tt (upd_this (upd_super (Duplex_emit event arg)) w).
Proof. intros H. apply bind_returned, this_emit_heard. now left. Qed.

Lemma this_emit_unheard arg w :
  errorListeners (super (this w)) = 0 ->
  this_emit "error" arg w = Thrown (unhandled arg) w.
Proof. intros H. unfold this_emit. run. now rewrite H. Qed.

(** X7.  While a source is attached, a ['close'] it emits is emitted on
    the bridge with the same argument, and so is an ['error'] when the
    bridge's user listens for ['error'] on the bridge; that is all that
    happens to the store.  An ['error'] of the source while nobody listens
    for it on the bridge is thrown by the bridge's own [emit], out of the
    relay and out of the source's [emit], with the store as it was.  Once
    the source is detached, the bridge does not hear it any more: a
    ['close'] finds no listener, an ['error'] is thrown by the source as
    unhandled, and the store stays as it is. *)
Theorem source_events_surface_while_attached w (stream : nat) (event : string) (arg : JsValue) :
  _source (this w) = None ->
  In event SOURCE_EVENTS ->
  no_listener event stream w ->
  listeners_older stream w ->
  let unheard w' :=
    emit stream event arg w' =
      if bool_decide (event = "error") then Thrown (unhandled arg) w' else Returned false w' in
  exists w1,
    addSource stream w = Returned tt w1 /\
    (event <> "error" \/ errorListeners (super (this w)) <> 0 ->
       exists w2 w3,
         emit stream event arg w1 = Returned true w2 /\
         this w2 = upd_super (Duplex_emit event arg) (this w1) /\
         streams w2 = streams w1 /\
         removeSource w2 = Returned tt w3 /\
         unheard w3) /\
    (event = "error" -> errorListeners (super (this w)) = 0 ->
       emit stream event arg w1 = Thrown (unhandled arg) w1 /\
       exists w3, removeSource w1 = Returned tt w3 /\ unheard w3).
Proof.
  intros Hs Hev Hnone Hold unheard.
  destruct (addSource_spec w stream Hs) as (w1 & Hadd & Hsrc & Hl & Hsup & _).
  assert (Herr : errorListeners (super (this w1)) = errorListeners (super (this w))).
  { rewrite Hsup. now destruct (Stream_read _ _).1. }
  assert (Hrelay : emit stream event arg w1 =
                   match this_emit event arg w1 with
                   | Returned _ w2 => Returned true w2
                   | Thrown e w2 => Thrown e w2
                   end).
  { unfold emit. run. rewrite Hl, filter_app. unfold no_listener in Hnone. rewrite Hnone.
    rewrite filter_attach_listeners by exact Hev. cbn [app]. run. cbn [r_once r_fn]. run.
    unfold call. unfold bind. now destruct (this_emit event arg w1). }
  assert (Hdetach : forall w2,
            _source (this w2) = _source (this w1) ->
            st_listeners (stream_at stream w2) = st_listeners (stream_at stream w1) ->
            next_id w2 = next_id w1 ->
            exists w3, removeSource w2 = Returned tt w3 /\ unheard w3).
  { intros w2 Hs2 Hl2 Hn2.
    destruct (removeSource_spec w2 stream (next_id w) (_sourceRead (this w))
                (Stream_read (_sourceRead (this w)) (stream_at stream w)).1
                (st_listeners (stream_at stream w)))
      as (w3 & Hrem & _ & Hl3).
    { now rewrite Hs2. }
    { now rewrite Hl2. }
    { exact Hold. }
    exists w3. split; [exact Hrem|].
    apply emit_unheard. unfold no_listener. rewrite Hl3. exact Hnone. }
  exists w1. split; [exact Hadd|]. split.
  - intros Hheard.
    rewrite this_emit_heard in Hrelay by (rewrite Herr; exact Hheard).
    destruct (Hdetach (upd_this (upd_super (Duplex_emit event arg)) w1))
      as (w3 & Hrem & Hun); [now run|now run|now run|].
    eexists _, w3. split; [exact Hrelay|]. split; [now run|]. split; [reflexivity|].
    split; [exact Hrem|exact Hun].
  - intros -> Hzero. split.
    + rewrite Hrelay, this_emit_unheard by now rewrite Herr.
      reflexivity.
    + now apply Hdetach.
Qed.

Lemma source_events_surface_while_attached_witness :
  (exists w1,
     addSource 7 fresh_bridge = Returned tt w1 /\
     emit 7 "error" (JsString "boom") w1 = Thrown (ERR_UNHANDLED_ERROR (JsString "boom")) w1) /\
  (exists w1 w2,
     addSource 7 (state_of (this_on_error fresh_bridge)) = Returned tt w1 /\
     emit 7 "error" (JsString "boom") w1 = Returned true w2 /\
     emitted (super (this w2)) = [("error", JsString "boom")]).
Proof.
  split.
  - destruct (source_events_surface_while_attached fresh_bridge 7 "error" (JsString "boom"))
      as (w1 & Hadd & _ & Hthrown).
    + reflexivity.
    + now left.
    + reflexivity.
    + unfold listeners_older. vm_compute. constructor.
    + exists w1. split; [exact Hadd|]. now apply Hthrown.
  - destruct (source_events_surface_while_attached (state_of (this_on_error fresh_bridge))
                7 "error" (JsString "boom"))
      as (w1 & Hadd & Hheard & _).
    + reflexivity.
    + now left.
    + reflexivity.
    + unfold listeners_older. vm_compute. constructor.
    + destruct Hheard as (w2 & _ & Hemit & Hthis & _); [right; discriminate|].
      exists w1, w2. split; [exact Hadd|]. split; [exact Hemit|].
      rewrite Hthis.
      destruct (addSource_spec (state_of (this_on_error fresh_bridge)) 7 eq_refl)
        as (w1' & Hadd' & _ & _ & Hsup & _).
      rewrite Hadd in Hadd'. injection Hadd' as <-.
      cbn [upd_super super Duplex_emit emitted]. rewrite Hsup. reflexivity.
Defined.

Lemma addDest_finished d w :
  st_finished (stream_at d (state_of (addDest d w))) = st_finished (stream_at d w).
Proof.
  destruct (_dest (this w)) eqn:Hd.
  - unfold addDest, bind, gets. now rewrite Hd.
  - unfold addDest. run. rewrite Hd. run. unfold dest_listen. run.
    destruct (bool_decide _); run; cbn [state_of]; run; [reflexivity|].
    match goal with |- context [bind (forEach _ ?q) _ ?w0] =>
      pose proof (forEach_Stream_write_finished d q w0) as Hf;
      destruct (forEach_Stream_write d q w0) as (w1 & Hrun & _)
    end.
    rewrite Hrun in Hf. cbn [state_of] in Hf.
    rewrite (bind_returned _ _ _ _ _ Hrun). run. cbn [state_of]. run.
    rewrite Hf. now run.
Qed.

(** X8.  The bridge ends a destination only if one is attached when its
    writable side finishes, and only the first time.  When the writable
    side finishes with no destination attached, a destination attached
    later is not ended, not even by another finish. *)
Theorem finish_ends_only_an_attached_destination w :
  (forall dst,
     _dest (this w) = Some dst ->
     finishArmed (super (this w)) = true ->
     st_finished (stream_at (dest_stream dst) (state_of (finish w))) = true /\
     finishArmed (super (this (state_of (finish w)))) = false) /\
  (forall d,
     _dest (this w) = None ->
     exists w',
       (finish ;;; addDest d ;;; finish) w = Returned tt w' /\
       is_Some (_dest (this w')) /\
       st_finished (stream_at d w') = st_finished (stream_at d w)).
Proof.
  split.
  - intros dst Hd Harmed. unfold finish. run. rewrite bind_this_emit_other by discriminate. run.
    rewrite Harmed. run. rewrite Hd. run. cbn [state_of]. run. split; reflexivity.
  - intros d Hd.
    assert (Hfin : exists w1, finish w = Returned tt w1 /\
              _dest (this w1) = None /\ finishArmed (super (this w1)) = false /\
              forall sid, stream_at sid w1 = stream_at sid w).
    { unfold finish. run. rewrite bind_this_emit_other by discriminate. run.
      destruct (finishArmed (super (this w))) eqn:Ha; run.
      - rewrite Hd. run. eexists. split; [reflexivity|]. run. repeat split. exact Hd.
      - eexists. split; [reflexivity|]. run. cbn. repeat split; assumption. }
    destruct Hfin as (w1 & Hrun1 & Hd1 & Ha1 & Hst1).
    rewrite (bind_returned _ _ _ _ _ Hrun1).
    destruct (addDest_attached d w1 Hd1) as (w2 & Hrun2 & Hd2 & _ & _ & _ & _ & _ & Hsup2 & _).
    rewrite (bind_returned _ _ _ _ _ Hrun2).
    pose proof (addDest_finished d w1) as Hf2. rewrite Hrun2 in Hf2. cbn [state_of] in Hf2.
    unfold finish. run. rewrite bind_this_emit_other by discriminate. run. rewrite Hsup2, Ha1. run.
    eexists. split; [reflexivity|]. run. rewrite Hd2, Hf2, Hst1. split; eauto.
Qed.

Lemma finish_ends_only_an_attached_destination_witness :
  (let w := state_of (addDest 9 fresh_bridge) in
   st_finished (stream_at 9 (state_of (finish w))) = true /\
   finishArmed (super (this (state_of (finish w)))) = false) /\
  (exists w',
     (finish ;;; addDest 9 ;;; finish) fresh_bridge = Returned tt w' /\
     is_Some (_dest (this w')) /\
     st_finished (stream_at 9 w') = st_finished (stream_at 9 fresh_bridge)).
Proof.
  split.
  - intros w.
    destruct (finish_ends_only_an_attached_destination w) as (H & _).
    apply (H {| dest_stream := 9;
                dest_listeners :=
                  <["close" := relay 1 "close"]> (<["drain" := relay 0 "drain"]> ∅) |});
      reflexivity.
  - destruct (finish_ends_only_an_attached_destination fresh_bridge) as (_ & H).
    apply (H 9). reflexivity.
Defined.

(** X9.  [resolve] on a bridge with nothing attached returns, and attaches
    the stream as source exactly when the bridge is readable and the
    stream is a Readable, and as destination exactly when the bridge is
    writable and the stream is a Writable: both for a duplex stream,
    neither for a stream that is none of the two. *)
Theorem resolve_attaches_by_capability w (stream : nat) :
  _source (this w) = None ->
  _dest (this w) = None ->
  exists w',
    resolve stream w = Returned tt w' /\
    source_stream <$> _source (this w') =
      (if _readable (this w) && st_Readable (stream_at stream w) then Some stream else None) /\
    dest_stream <$> _dest (this w') =
      (if _writable (this w) && st_Writable (stream_at stream w) then Some stream else None).
Proof.
  intros Hs Hd. unfold resolve. run. unfold id.
  destruct (_readable (this w) && st_Readable (stream_at stream w)) eqn:Hc1.
  - destruct (addSource_reads w stream Hs) as (w1 & Hrun1 & _ & _ & _ & HW & _ & Hwr & _).
    destruct (addSource_spec w stream Hs) as (w1' & Hrun1' & Hsrc & _).
    rewrite Hrun1 in Hrun1'. injection Hrun1' as <-.
    pose proof (addSource_keeps_dest_side stream w) as Hk. rewrite Hrun1 in Hk.
    unfold dest_side in Hk. cbn [state_of] in Hk. injection Hk as Hd1 _.
    rewrite (bind_returned _ _ _ _ _ Hrun1). run. rewrite HW, Hwr.
    destruct (_writable (this w) && st_Writable (stream_at stream w)).
    + destruct (addDest_attached stream w1) as (w2 & Hrun2 & Hdst & _ & Hs2 & _); [congruence|].
      exists w2. split; [exact Hrun2|]. rewrite Hs2, Hsrc, Hdst. split; reflexivity.
    + exists w1. split; [reflexivity|]. rewrite Hsrc, Hd1, Hd. split; reflexivity.
  - run. destruct (_writable (this w) && st_Writable (stream_at stream w)).
    + destruct (addDest_attached stream w Hd) as (w2 & Hrun2 & Hdst & _ & Hs2 & _).
      exists w2. split; [exact Hrun2|]. rewrite Hs2, Hs, Hdst. split; reflexivity.
    + exists w. split; [reflexivity|]. rewrite Hs, Hd. split; reflexivity.
Qed.

Lemma resolve_attaches_by_capability_witness :
  let w := upd_stream 5 (fun _ => new_Stream true true) fresh_bridge in
  exists w',
    resolve 5 w = Returned tt w' /\
    source_stream <$> _source (this w') = Some 5 /\
    dest_stream <$> _dest (this w') = Some 5.
Proof.
  intros w. apply (resolve_attaches_by_capability w 5); reflexivity.
Defined.

End Relays.

Section StaleListeners.

Implicit Types (w : World) (src : Source).

Lemma remove_first_app_r {A} (p : A -> bool) (l l' : list A) :
  Forall (fun x => p x = false) l -> remove_first p (l ++ l') = l ++ remove_first p l'.
Proof.
  induction 1 as [|x l Hx _ IH]; [reflexivity|].
  cbn. now rewrite Hx, IH.
Qed.

Lemma remove_last_app_r {A} (p : A -> bool) (l l' : list A) :
  Forall (fun x => p x = false) l' -> remove_last p (l ++ l') = remove_last p l ++ l'.
Proof.
  intros H. unfold remove_last. rewrite rev_app_distr.
  rewrite remove_first_app_r by now apply Forall_rev.
  now rewrite rev_app_distr, rev_involutive.
Qed.

Lemma last_cons_default {A} (l : list A) (a d : A) :
  List.last (a :: l) d = List.last l a.
Proof.
  revert a d. induction l as [|b l IH]; intros a d; [reflexivity|].
  change (List.last (a :: b :: l) d) with (List.last (b :: l) d).
  now rewrite !IH.
Qed.

Lemma Stream_read_empty size (s : Stream) :
  st_buffer s = EmptyString -> Stream_read size s = (None, s).
Proof.
  intros Hb. unfold Stream_read, howMuchToRead. rewrite Hb. cbn.
  destruct size as [[|n]|]; cbn; [reflexivity| |reflexivity].
  now destruct (st_ended s).
Qed.

Lemma read_no_data size w src :
  _source (this w) = Some src ->
  st_buffer (stream_at (source_stream src) w) = EmptyString ->
  exists w',
    _read size w = Returned tt w' /\
    _source (this w') = Some (with_onreadable (Some (onreadable (next_id w) size)) src) /\
    st_listeners (stream_at (source_stream src) w') =
      st_listeners (stream_at (source_stream src) w) ++ read_registrations (next_id w) [size] /\
    st_buffer (stream_at (source_stream src) w') = EmptyString /\
    next_id w' = S (next_id w) /\
    super (this w') = super (this w).
Proof.
  intros Hs Hb. unfold _read. run. rewrite Hs. run.
  unfold call, onreadable_body. run. rewrite bind_stream_read. run.
  rewrite (Stream_read_empty size _ Hb). cbn [fst snd]. run.
  eexists. split; [reflexivity|]. run.
  unfold Stream_once. cbn [st_listeners st_buffer set_listeners].
  repeat split; assumption.
Qed.

Lemma reads_no_data sizes w src :
  _source (this w) = Some src ->
  st_buffer (stream_at (source_stream src) w) = EmptyString ->
  exists w',
    forEach _read sizes w = Returned tt w' /\
    _source (this w') =
      Some (with_onreadable
              (List.last (map (fun r => Some (r_fn r)) (read_registrations (next_id w) sizes))
                    (source_onreadable src)) src) /\
    st_listeners (stream_at (source_stream src) w') =
      st_listeners (stream_at (source_stream src) w) ++ read_registrations (next_id w) sizes /\
    super (this w') = super (this w).
Proof.
  revert w src. induction sizes as [|size sizes IH]; intros w src Hs Hb.
  - exists w. run. rewrite app_nil_r. cbn. destruct src. auto.
  - cbn [forEach].
    destruct (read_no_data size w src Hs Hb) as (w1 & Hrun & Hs1 & Hl1 & Hb1 & Hn1 & Hsup1).
    rewrite (bind_returned _ _ _ _ _ Hrun).
    destruct (IH w1 _ Hs1 Hb1) as (w' & Hrun' & Hs' & Hl' & Hsup').
    cbn [with_onreadable source_stream source_onreadable] in *.
    exists w'. split; [exact Hrun'|]. rewrite Hs', Hl', Hl1, Hn1, Hsup', Hsup1.
    rewrite <- app_assoc. repeat split.
    cbn [read_registrations map app]. rewrite last_cons_default. reflexivity.
Qed.

Lemma read_registrations_readable n sizes :
  Forall (fun r => r_event r = "readable") (read_registrations n sizes).
Proof.
  revert n. induction sizes as [|size sizes IH]; intros n; constructor; [reflexivity|apply IH].
Qed.

Lemma read_registrations_length n sizes : length (read_registrations n sizes) = length sizes.
Proof. revert n. induction sizes as [|size sizes IH]; intros n; cbn; [reflexivity|now rewrite IH]. Qed.

Lemma last_map_nonempty {A B} (g : A -> B) (l : list A) (d : A) (d' : B) :
  l <> [] -> List.last (map g l) d' = g (List.last l d).
Proof.
  induction l as [|a l IH]; [congruence|]. intros _.
  destruct l as [|b l]; [reflexivity|].
  change (List.last (map g (b :: l)) d' = g (List.last (b :: l) d)).
  apply IH. discriminate.
Qed.

Lemma filter_all {A} (P : A -> Prop) `{forall x, Decision (P x)} (l : list A) :
  Forall P l -> filter P l = l.
Proof.
  induction 1 as [|x l Hx _ IH]; [reflexivity|].
  rewrite filter_cons_True by exact Hx. now rewrite IH.
Qed.

Lemma Forall_removelast {A} (P : A -> Prop) (l : list A) :
  Forall P l -> Forall P (removelast l).
Proof.
  induction 1 as [|x l Hx Hl IH]; [constructor|].
  cbn. destruct l; [constructor|]. constructor; assumption.
Qed.

(** X10.  Every [_read] that finds no data registers one more
    ['readable'] listener on the source, but [removeSource] unregisters
    only the newest.  After attaching a source that has nothing buffered
    and reading k more times, k+1 such listeners are registered; after
    detaching, k of them are still on the stream. *)
Theorem removeSource_leaves_older_readable_listeners w (stream : nat)
    (sizes : list (option nat)) :
  _source (this w) = None ->
  st_buffer (stream_at stream w) = EmptyString ->
  no_listener "readable" stream w ->
  let registered := read_registrations (3 + next_id w) (_sourceRead (this w) :: sizes) in
  exists w1 w2 w3,
    addSource stream w = Returned tt w1 /\
    forEach _read sizes w1 = Returned tt w2 /\
    readable_listeners (stream_at stream w2) = registered /\
    removeSource w2 = Returned tt w3 /\
    _source (this w3) = None /\
    readable_listeners (stream_at stream w3) = removelast registered /\
    length (readable_listeners (stream_at stream w3)) = length sizes.
Proof.
  intros Hs Hb Hnone registered.
  destruct (addSource_spec w stream Hs) as (w1 & Hadd & Hsrc & Hl & _ & Hn).
  destruct (addSource_reads w stream Hs) as (w1' & Hadd' & _ & Hb1 & _).
  rewrite Hadd in Hadd'. injection Hadd' as <-.
  rewrite (Stream_read_empty _ _ Hb) in Hl, Hb1. cbn [fst snd] in Hl, Hb1.
  destruct (reads_no_data sizes w1 _ Hsrc) as (w2 & Hreads & Hs2 & Hl2 & _);
    [cbn [attached_source source_stream]; congruence|].
  cbn [attached_source source_stream source_onreadable] in Hl2, Hs2.
  rewrite Hn in Hs2, Hl2.
  assert (Hl2' : st_listeners (stream_at stream w2) =
                 (st_listeners (stream_at stream w) ++
                  [ {| r_event := "error"; r_fn := relay (1 + next_id w) "error"; r_once := false |};
                    {| r_event := "close"; r_fn := relay (2 + next_id w) "close"; r_once := false |};
                    {| r_event := "end"; r_fn := onend (next_id w); r_once := false |} ]) ++
                 registered).
  { rewrite Hl2, Hl. unfold attach_listeners. rewrite <- !app_assoc. reflexivity. }
  assert (Hne : registered <> []) by discriminate.
  pose proof (app_removelast_last {| r_event := "readable"; r_fn := external 0; r_once := true |} Hne)
    as Hsplit.
  set (newest := List.last registered _) in Hsplit.
  assert (Hlast : List.last (map (fun r => Some (r_fn r)) (read_registrations (4 + next_id w) sizes))
                            (Some (onreadable (3 + next_id w) (_sourceRead (this w))))
                  = Some (r_fn newest)).
  { rewrite <- (last_cons_default _ (Some (onreadable (3 + next_id w) (_sourceRead (this w)))) None).
    apply (last_map_nonempty (fun r => Some (r_fn r)) registered). exact Hne. }
  rewrite Hlast in Hs2.
  pose proof (read_registrations_readable (3 + next_id w) (_sourceRead (this w) :: sizes)) as Hall.
  fold registered in Hall.
  assert (Hnewest : r_event newest = "readable").
  { rewrite Hsplit in Hall. apply Forall_app in Hall as (_ & Hx). now inversion Hx. }
  assert (Hrest : Forall (fun r => r_event r = "readable") (removelast registered)).
  { now apply Forall_removelast. }
  assert (Hmiss : forall event f l, event <> "readable" ->
            Forall (fun r => r_event r = "readable") l ->
            Forall (fun r => listens event f r = false) l).
  { intros event f l Hev Hl0. eapply Forall_impl; [exact Hl0|].
    intros [ev fn once] Hr. cbn in Hr. subst ev. apply listens_other_event. congruence. }
  assert (Hrem : exists w3, removeSource w2 = Returned tt w3 /\ _source (this w3) = None /\
            st_listeners (stream_at stream w3) =
              st_listeners (stream_at stream w) ++ removelast registered).
  { unfold removeSource. run. rewrite Hs2. unfold with_onreadable, attached_source. run.
    rewrite lookup_insert_ne by done. rewrite !lookup_insert_eq.
    unfold stream_removeListener. run.
    eexists. split; [reflexivity|]. run. split; [reflexivity|].
    unfold Stream_removeListener. cbn [st_listeners set_listeners]. rewrite Hl2'.
    rewrite (remove_last_app_r (listens "error" _)) by (apply Hmiss; [discriminate|exact Hall]).
    rewrite cons_app_split3.
    rewrite remove_last_miss by (apply listens_other_event; discriminate).
    rewrite remove_last_miss by (apply listens_other_event; discriminate).
    rewrite remove_last_hit by apply listens_self.
    rewrite (remove_last_app_r (listens "close" _)) by (apply Hmiss; [discriminate|exact Hall]).
    rewrite remove_last_miss by (apply listens_other_event; discriminate).
    rewrite remove_last_hit by apply listens_self.
    rewrite Hsplit at 1. rewrite app_assoc.
    rewrite remove_last_hit.
    2:{ destruct newest as [ev fn once]. cbn in Hnewest. subst ev. apply listens_self. }
    rewrite (remove_last_app_r (listens "end" _)) by (apply Hmiss; [discriminate|exact Hrest]).
    now rewrite remove_last_hit by apply listens_self. }
  destruct Hrem as (w3 & Hrem & Hs3 & Hl3).
  exists w1, w2, w3. split; [exact Hadd|]. split; [exact Hreads|].
  unfold no_listener in Hnone.
  assert (H3 : readable_listeners (stream_at stream w3) = removelast registered).
  { unfold readable_listeners. rewrite Hl3, filter_app, Hnone. cbn [app].
    now apply filter_all. }
  split; [|split; [exact Hrem|split; [exact Hs3|split; [exact H3|]]]].
  - unfold readable_listeners. rewrite Hl2', !filter_app, Hnone. cbn [app].
    now apply filter_all.
  - rewrite H3.
    pose proof (read_registrations_length (3 + next_id w) (_sourceRead (this w) :: sizes)) as Hlen.
    fold registered in Hlen.
    pose proof (f_equal (@length _) Hsplit) as Hlen'.
    rewrite length_app, Hlen in Hlen'. cbn [length] in Hlen'. lia.
Qed.

Lemma removeSource_leaves_older_readable_listeners_witness :
  exists w1 w2 w3,
    addSource 7 fresh_bridge = Returned tt w1 /\
    forEach _read [Some 1; None] w1 = Returned tt w2 /\
    removeSource w2 = Returned tt w3 /\
    _source (this w3) = None /\
    length (readable_listeners (stream_at 7 w3)) = 2.
Proof.
  destruct (removeSource_leaves_older_readable_listeners fresh_bridge 7 [Some 1; None])
    as (w1 & w2 & w3 & H1 & H2 & _ & H3 & H4 & _ & H5);
    [reflexivity | reflexivity | reflexivity |].
  exists w1, w2, w3. repeat split; assumption.
Defined.

End StaleListeners.

Section LateData.

Implicit Types (w : World).

Lemma remove_first_app_hit {A} (p : A -> bool) (l l' : list A) (x : A) :
  Forall (fun y => p y = false) l -> p x = true ->
  remove_first p (l ++ x :: l') = l ++ l'.
Proof.
  intros Hl Hx. induction Hl as [|y l Hy _ IH]; cbn.
  - now rewrite Hx.
  - now rewrite Hy, IH.
Qed.

Lemma filter_nil_Forall {A} (P : A -> Prop) `{forall x, Decision (P x)} (l : list A) :
  filter P l = [] -> Forall (fun x => ~ P x) l.
Proof.
  induction l as [|x l IH]; [constructor|].
  destruct (decide (P x)) as [Hx|Hx].
  - rewrite filter_cons_True by exact Hx. discriminate.
  - rewrite filter_cons_False by exact Hx. intros Hl. constructor; auto.
Qed.

(** X11.  A source that has nothing buffered when it is attached is
    waited for: one ['readable'] listener is registered on it and the
    bridge is pushed nothing.  When data arrives and the source emits
    ['readable'], the listener, registered once, is taken off and the
    deferred read is made: the bridge is pushed the chunk [read(size)]
    yields, which is all the data when no size was asked for; if it yields
    none, the listener is registered again. *)
Theorem data_arriving_later_is_pushed w (stream : nat) (chunk : string) :
  _source (this w) = None ->
  st_buffer (stream_at stream w) = EmptyString ->
  no_listener "readable" stream w ->
  let size := _sourceRead (this w) in
  let waiting := read_registrations (3 + next_id w) [size] in
  exists w1,
    addSource stream w = Returned tt w1 /\
    pushes (super (this w1)) = pushes (super (this w)) /\
    readable_listeners (stream_at stream w1) = waiting /\
    let arrived := upd_stream stream (set_buffer chunk) w1 in
    let r := Stream_read size (stream_at stream arrived) in
    exists w2,
      emit stream "readable" undefined arrived = Returned true w2 /\
      st_buffer (stream_at stream w2) = st_buffer r.2 /\
      pushes (super (this w2)) =
        pushes (super (this w)) ++ match r.1 with Some d => [Some d] | None => [] end /\
      readable_listeners (stream_at stream w2) =
        match r.1 with Some _ => [] | None => waiting end /\
      (size = None -> chunk <> EmptyString -> r.1 = Some chunk).
Proof.
  intros Hs Hb Hnone size waiting.
  destruct (addSource_spec w stream Hs) as (w1 & Hadd & Hsrc & Hl & Hsup & Hn).
  rewrite (Stream_read_empty _ _ Hb) in Hl, Hsup. cbn [fst snd] in Hl, Hsup.
  fold size in Hl, Hsrc.
  exists w1. split; [exact Hadd|]. split; [now rewrite Hsup|].
  assert (Hw1 : readable_listeners (stream_at stream w1) = waiting).
  { unfold readable_listeners. rewrite Hl, filter_app, Hnone. reflexivity. }
  split; [exact Hw1|]. intros arrived r.
  set (r0 := {| r_event := "readable"; r_fn := onreadable (3 + next_id w) size;
                r_once := true |}).
  assert (Hls : filter (fun x => r_event x = "readable") (st_listeners (stream_at stream arrived))
                = [r0]).
  { subst arrived. autorewrite with store. cbn [set_buffer st_listeners].
    fold (readable_listeners (stream_at stream w1)). now rewrite Hw1. }
  assert (Hold : Forall (fun y => bool_decide (y = r0) = false)
                   (st_listeners (stream_at stream w) ++
                    [ {| r_event := "error"; r_fn := relay (1 + next_id w) "error"; r_once := false |};
                      {| r_event := "close"; r_fn := relay (2 + next_id w) "close"; r_once := false |};
                      {| r_event := "end"; r_fn := onend (next_id w); r_once := false |} ])).
  { apply Forall_app. split.
    - eapply Forall_impl; [apply (filter_nil_Forall _ _ Hnone)|].
      intros y Hy. apply bool_decide_eq_false_2. intros ->. now apply Hy.
    - repeat constructor. }
  unfold emit. run. rewrite Hls. run.
  change (r_once r0) with true. change (r_fn r0) with (onreadable (3 + next_id w) size).
  run. unfold call, onreadable_body. run.
  subst r arrived. run. rewrite Hsrc. cbn [attached_source source_stream]. run.
  rewrite bind_stream_read. run.
  rewrite Stream_read_set_listeners.
  set (r := Stream_read size (set_buffer chunk (stream_at stream w1))).
  assert (Hrest : st_listeners (stream_at stream w) ++ attach_listeners (next_id w) size None =
                  (st_listeners (stream_at stream w) ++
                   [ {| r_event := "error"; r_fn := relay (1 + next_id w) "error"; r_once := false |};
                     {| r_event := "close"; r_fn := relay (2 + next_id w) "close"; r_once := false |};
                     {| r_event := "end"; r_fn := onend (next_id w); r_once := false |} ]) ++
                  r0 :: []).
  { unfold attach_listeners. now rewrite <- app_assoc. }
  assert (Hall : size = None -> chunk <> EmptyString -> r.1 = Some chunk).
  { intros Hsize Hchunk. subst r. rewrite Hsize. unfold Stream_read, howMuchToRead.
    cbn [set_buffer st_buffer].
    destruct (Nat.eqb_spec (String.length chunk) 0) as [E|E].
    - destruct chunk; [congruence|discriminate E].
    - cbn [fst]. now rewrite substring_all. }
  destruct r.1 as [d|] eqn:Hdata.
  - unfold push. run. eexists. split; [reflexivity|]. run.
    split; [apply Stream_read_buffer_ext; reflexivity|].
    split; [cbn [upd_super super]; now rewrite Hsup|].
    split; [|exact Hall].
    unfold readable_listeners. rewrite Stream_read_listeners.
    cbn [set_listeners set_buffer st_listeners]. rewrite Hl, Hrest.
    rewrite remove_first_app_hit by (try exact Hold; now apply bool_decide_eq_true_2).
    rewrite app_nil_r, filter_app, Hnone. reflexivity.
  - run. eexists. split; [reflexivity|]. run.
    split; [unfold Stream_once; cbn [set_listeners st_buffer];
            apply Stream_read_buffer_ext; reflexivity|].
    split; [now rewrite Hsup, app_nil_r|].
    split; [|exact Hall].
    unfold readable_listeners, Stream_once. cbn [set_listeners st_listeners].
    rewrite Stream_read_listeners.
    cbn [set_listeners set_buffer st_listeners]. rewrite Hl, Hrest.
    rewrite remove_first_app_hit by (try exact Hold; now apply bool_decide_eq_true_2).
    rewrite app_nil_r, !filter_app, Hnone. reflexivity.
Qed.

Lemma data_arriving_later_is_pushed_witness :
  exists w1 w2,
    addSource 7 fresh_bridge = Returned tt w1 /\
    emit 7 "readable" undefined (upd_stream 7 (set_buffer "hello") w1) = Returned true w2 /\
    pushes (super (this w2)) = [Some "hello"] /\
    readable_listeners (stream_at 7 w2) = [].
Proof.
  destruct (data_arriving_later_is_pushed fresh_bridge 7 "hello")
    as (w1 & Hadd & _ & _ & w2 & Hemit & _ & Hpush & Hrl & Hall);
    [reflexivity | reflexivity | reflexivity |].
  exists w1, w2. split; [exact Hadd|]. split; [exact Hemit|].
  rewrite Hpush, Hrl, Hall by (reflexivity || discriminate). split; reflexivity.
Defined.

End LateData.

(** * More on the dispatcher *)

Section Relaying.

Implicit Types (tracer : Tracers) (req : Request) (proxyRes : IncomingMessage)
  (x : Exchange) (p : Lifecycle) (ts : list Tracer).

Lemma response_actions_piped (c : option Z) :
  In piped_from_upstream (response_actions c) <-> exists z, c = Some z /\ (z < 400)%Z.
Proof.
  unfold response_actions. destruct c as [z|].
  - change (default 700%Z (Some z)) with z.
    destruct (400 <=? z)%Z eqn:E; cbn [In].
    + apply Z.leb_le in E. split.
      * intros [H|[H|[H|[]]]]; discriminate.
      * intros (z' & Heq & Hlt). injection Heq as <-. lia.
    + apply Z.leb_gt in E. split; [intros _; now exists z|].
      intros _. right. now left.
  - change (400 <=? default 700 None)%Z with true. cbn [In].
    split; [|intros (z & Hz & _); discriminate].
    intros [H|[H|[H|[]]]]; discriminate.
Qed.

Lemma sink_actions_on_sink (acts : list SinkAction) : sink_actions (map on_sink acts) = acts.
Proof. induction acts as [|a acts IH]; [reflexivity|]. cbn. now rewrite <- IH at 2. Qed.

Lemma sink_actions_listens (events : list string) :
  sink_actions (map listens_upstream events) = [].
Proof. induction events as [|a events IH]; [reflexivity|exact IH]. Qed.

(** What the response listener did to the sink, in full. *)
Lemma on_response_sink tracer req proxyRes x :
  let out := on_response tracer req proxyRes x in
  exists evs,
    trace (state_of out) = trace x ++ evs /\
    sink_actions evs =
      if returns out then response_actions (res_statusCode proxyRes) else [].
Proof.
  intros out. subst out. rewrite on_response_run.
  destruct (call_hooks_trace first_byte tracer req proxyRes (with_status proxyRes x))
    as (evs & Htr & Hsink & _).
  destruct (call_hooks first_byte tracer req proxyRes _) as [[] x1|e x1];
    cbn [state_of returns trace] in *.
  - exists (evs ++ map on_sink (response_actions (res_statusCode proxyRes)) ++
            map listens_upstream ["end"; "close"]).
    rewrite Htr, <- app_assoc. split; [reflexivity|].
    now rewrite !sink_actions_app, Hsink, sink_actions_on_sink, sink_actions_listens, app_nil_r.
  - exists evs. split; assumption.
Qed.

(** X12.  The upstream body is piped to the client exactly when the
    first-byte hooks returned and the upstream response has a status code
    below 400; in that case the dispatcher sets the marker header and
    nothing else, and does not end the response itself. *)
Theorem upstream_body_piped_iff_status_below_400 tracer req proxyRes x :
  let out := on_response tracer req proxyRes x in
  exists evs,
    trace (state_of out) = trace x ++ evs /\
    (In piped_from_upstream (sink_actions evs) <->
       returns out = true /\
       exists c, res_statusCode proxyRes = Some c /\ (c < 400)%Z) /\
    (In piped_from_upstream (sink_actions evs) ->
       sink_actions evs = [ setHeader "X-Proxy-Server" "true"; piped_from_upstream ]).
Proof.
  intros out. destruct (on_response_sink tracer req proxyRes x) as (evs & Htr & Hsink).
  fold out in Htr, Hsink. exists evs. split; [exact Htr|]. rewrite Hsink.
  destruct (returns out).
  - rewrite response_actions_piped. split; [tauto|].
    intros (c & -> & Hlt). unfold response_actions.
    change (default 700%Z (Some c)) with c.
    apply Z.leb_gt in Hlt. now rewrite Hlt.
  - split; [|intros []]. split; [intros []|intros [H _]; discriminate].
Qed.

(** X13.  An upstream response without a status code is answered like an
    error status: it is not piped, and when the hooks returned the client
    gets the marker header, a plain-text content type and the diagnostic
    text ending in the word undefined. *)
Theorem response_without_status_is_answered_as_error tracer req proxyRes x :
  res_statusCode proxyRes = None ->
  let out := on_response tracer req proxyRes x in
  exists evs,
    trace (state_of out) = trace x ++ evs /\
    ~ In piped_from_upstream (sink_actions evs) /\
    (returns out = true ->
       sink_actions evs =
         [ setHeader "X-Proxy-Server" "true";
           setHeader "Content-Type" "text/plain";
           end_with (Some "Error Occurred: proxyRes.statusCode: undefined") ]).
Proof.
  intros Hc out. destruct (on_response_sink tracer req proxyRes x) as (evs & Htr & Hsink).
  fold out in Htr, Hsink. exists evs. split; [exact Htr|]. rewrite Hsink, Hc.
  destruct (returns out).
  - split; [|reflexivity]. rewrite response_actions_piped. intros (c & H & _). discriminate.
  - split; [intros []|discriminate].
Qed.

Lemma response_without_status_is_answered_as_error_witness :
  let proxyRes := {| res_statusCode := None; res_statusMessage := None |} in
  let out := on_response sample_tracers (sample_request "get" payload_undefined)
               proxyRes (on_proxyReq 0) in
  exists evs,
    trace (state_of out) = trace (on_proxyReq 0) ++ evs /\
    ~ In piped_from_upstream (sink_actions evs) /\
    (returns out = true ->
       sink_actions evs =
         [ setHeader "X-Proxy-Server" "true";
           setHeader "Content-Type" "text/plain";
           end_with (Some "Error Occurred: proxyRes.statusCode: undefined") ]).
Proof.
  intros proxyRes.
  apply (response_without_status_is_answered_as_error sample_tracers
           (sample_request "get" payload_undefined) proxyRes (on_proxyReq 0)).
  reflexivity.
Defined.

(** X14.  The first hook that throws ends the round, in each of the
    three listeners: the hooks before it have run in order, the error
    leaves the listener, no hook after it is called, and the details stay
    as the throwing hook left them.  In the response listener nothing is
    then sent to the client and the ['end'] and ['close'] listeners are
    not registered on the upstream response. *)
Theorem throwing_hook_stops_the_rest p req proxyRes (before rest : list Tracer)
    (t : Tracer) (e : JsError) (d' : ResponseDetails) x :
  (forall t' d, In t' before -> returns (hook p t' req proxyRes d) = true) ->
  let listener :=
    match p with
    | first_byte => on_response
    | response_end => on_upstream_end
    | connection_close => on_upstream_close
    end in
  let x0 := match p with first_byte => with_status proxyRes x | _ => x end in
  hook p t req proxyRes
    (fold_left (fun d t' => state_of (hook p t' req proxyRes d)) before (details x0))
    = Thrown e d' ->
  listener (tracer_array (before ++ t :: rest)) req proxyRes x =
    Thrown e {| details := d';
                trace := trace x ++ hook_events p before ++ [hook_called p t] |}.
Proof.
  intros Hall listener x0 Ht. subst listener x0.
  destruct p.
  - rewrite on_response_run. cbn [call_hooks].
    rewrite (forEach_call_hook_throws first_byte req proxyRes before rest t e d');
      [reflexivity|exact Hall|exact Ht].
  - apply forEach_call_hook_throws; assumption.
  - apply forEach_call_hook_throws; assumption.
Qed.

Lemma throwing_hook_stops_the_rest_witness :
  let req := sample_request "get" payload_undefined in
  let proxyRes := {| res_statusCode := Some 200%Z; res_statusMessage := Some "OK" |} in
  let failing := failing_tracer (Error "tracer failed") in
  exists d',
    on_response (tracer_array [stamping_tracer 5; failing; stamping_tracer 6]) req proxyRes
      (on_proxyReq 0) =
    Thrown (Error "tracer failed")
      {| details := d';
         trace := [ hook_called first_byte (stamping_tracer 5);
                    hook_returned first_byte (stamping_tracer 5);
                    hook_called first_byte failing ] |}.
Proof.
  intros req proxyRes failing. eexists.
  apply (throwing_hook_stops_the_rest first_byte req proxyRes [stamping_tracer 5]
           [stamping_tracer 6] failing (Error "tracer failed") _ (on_proxyReq 0)).
  - intros t' d [<-|[]]. reflexivity.
  - reflexivity.
Defined.

End Relaying.

Section Dispatching.

Implicit Types (tracer : Tracers) (request : Request) (options : ServerOptions).

(** X15.  For a method other than POST and PUT the constructor never
    throws, whatever the payload is, also one of a type it rejects for
    POST and PUT; the dispatcher it returns has the empty body and sends
    the caller's [buffer] option on as it is. *)
Theorem other_methods_never_rejected request tracer (target : string) options :
  is_POST_or_PUT (toUpperCase (req_method request)) = false ->
  exists server,
    ProxyServer_new request tracer target tt = Returned server tt /\
    body server = body_string EmptyString /\
    buffer (dispatch server options) = buffer options.
Proof.
  intros Hm. unfold ProxyServer_new, bind. rewrite Hm. unfold ret.
  eexists. split; [reflexivity|]. split; [reflexivity|].
  unfold dispatch. cbn [setupProxyEvents body method buffer]. rewrite Hm.
  now rewrite andb_false_r.
Qed.

Lemma other_methods_never_rejected_witness :
  exists server,
    ProxyServer_new (sample_request "delete" payload_symbol) sample_tracers sample_target tt
      = Returned server tt /\
    body server = body_string EmptyString /\
    buffer (dispatch server no_options) = None.
Proof.
  apply (other_methods_never_rejected (sample_request "delete" payload_symbol)
           sample_tracers sample_target no_options).
  reflexivity.
Defined.

Lemma dispatch_defaults request tracer (address : string)
    (server : ProxyServer) options :
  ProxyServer_new request tracer address tt = Returned server tt ->
  let sent := dispatch server options in
  opt_target sent = Some (default address (opt_target options)) /\
  opt_headers sent = Some (default (req_headers request) (opt_headers options)) /\
  opt_method sent = Some (default (toUpperCase (req_method request)) (opt_method options)) /\
  opt_path sent = Some (default (req_pathname request) (opt_path options)).
Proof.
  intros Hnew sent. subst sent.
  assert (Hs : target server = address /\ headers server = req_headers request /\
               method server = toUpperCase (req_method request) /\
               path server = req_pathname request).
  { revert Hnew. unfold ProxyServer_new, bind.
    destruct (if is_POST_or_PUT _ then _ else _) as [b []|e []]; [|discriminate].
    intros [= <-]. cbn [setupProxyEvents target headers method path].
    repeat split. now destruct (bool_decide_reflect (req_pathname request = EmptyString)) as [->|]. }
  destruct Hs as (Ht & Hh & Hm & Hp).
  unfold dispatch. cbn [opt_target opt_headers opt_method opt_path].
  rewrite Ht, Hh, Hm, Hp.
  repeat split; now destruct options as [[] [] [] [] ? ? ? ? ? ? ?].
Qed.

(** X16.  What a dispatcher built by the constructor hands to the
    transport: target, headers, method and path are the caller's when the
    caller gives them, and else the constructor's target, the request's
    headers, its method in upper case and its path; the six other options
    pass through.  Whether a body is attached does not depend on the
    options: a captured body replaces the caller's [buffer], and the
    method that decides is the request's, not an overriding one. *)
Theorem caller_options_override_defaults request tracer (address : string)
    (server : ProxyServer) options :
  ProxyServer_new request tracer address tt = Returned server tt ->
  let sent := dispatch server options in
  opt_target sent = Some (default address (opt_target options)) /\
  opt_headers sent = Some (default (req_headers request) (opt_headers options)) /\
  opt_method sent = Some (default (toUpperCase (req_method request)) (opt_method options)) /\
  opt_path sent = Some (default (req_pathname request) (opt_path options)) /\
  ( selfHandleResponse sent, cookieDomainRewrite sent, cookiePathRewrite sent,
    proxyTimeout sent, timeout sent, followRedirects sent ) =
  ( selfHandleResponse options, cookieDomainRewrite options, cookiePathRewrite options,
    proxyTimeout options, timeout options, followRedirects options ) /\
  buffer sent =
    match buffer (dispatch server no_options) with
    | Some stream => Some stream
    | None => buffer options
    end.
Proof.
  intros Hnew sent. subst sent.
  destruct (dispatch_defaults request tracer address server options Hnew)
    as (Ht & Hh & Hm & Hp).
  repeat split; try assumption.
  unfold dispatch. cbn [buffer no_options]. now destruct (truthy (body server) && _).
Qed.

Lemma caller_options_override_defaults_witness :
  exists server,
    ProxyServer_new (sample_request "post" (payload_string "abc")) sample_tracers
      sample_target tt = Returned server tt /\
    let options :=
      {| opt_target := None; opt_headers := None; opt_method := Some "GET"; opt_path := None;
         selfHandleResponse := Some true; cookieDomainRewrite := None;
         cookiePathRewrite := None; proxyTimeout := None; timeout := None;
         followRedirects := None; buffer := Some (live 3) |} in
    opt_method (dispatch server options) = Some "GET" /\
    opt_target (dispatch server options) = Some sample_target /\
    buffer (dispatch server options) = Some (bridged (body_bridge "abc")).
Proof.
  eexists. split; [reflexivity|]. intros options.
  pose proof (caller_options_override_defaults
                (sample_request "post" (payload_string "abc"))
                sample_tracers sample_target _ options eq_refl) as (Ht & _ & Hm & _ & _ & Hb).
  split; [exact Hm|]. split; [exact Ht|exact Hb].
Defined.

(** X17.  The route handler of the first server.  It fails, with the
    constructor's error, exactly for a POST or PUT whose payload is of an
    unsupported type.  Otherwise it forwards the request to the second
    server, at the address followed by a slash and the request's path,
    with the request's headers and path, its method in upper case, the
    handler's fixed options, and a body exactly when the method is POST or
    PUT and the payload has something to send. *)
Theorem handler_forwards_or_rejects (zipkinTracer consoleTracer : Tracer) request :
  let out := handler zipkinTracer consoleTracer request tt in
  let body_method := is_POST_or_PUT (toUpperCase (req_method request)) in
  (body_method = true /\ shape (req_payload request) = unsupported ->
     out = Thrown (Error "Unsupported payload type") tt) /\
  (~ (body_method = true /\ shape (req_payload request) = unsupported) ->
     exists sent,
       out = Returned sent tt /\
       opt_target sent = Some ("http://127.0.0.1:4400/" +:+ req_pathname request) /\
       opt_headers sent = Some (req_headers request) /\
       opt_method sent = Some (toUpperCase (req_method request)) /\
       opt_path sent = Some (req_pathname request) /\
       selfHandleResponse sent = Some true /\
       cookieDomainRewrite sent = Some false /\
       cookiePathRewrite sent = Some false /\
       proxyTimeout sent = Some 6000%Z /\
       timeout sent = Some 2000%Z /\
       followRedirects sent = Some true /\
       (is_Some (buffer sent) <->
          body_method = true /\ carries_body (req_payload request) = true)).
Proof.
  intros out body_method. subst out. unfold handler, bind.
  split.
  - intros [Hm Hshape]. fold body_method in Hm.
    unfold ProxyServer_new, bind. subst body_method. rewrite Hm.
    destruct (req_payload request); try discriminate Hshape; reflexivity.
  - intros Hok.
    destruct (ProxyServer_new request _ _ tt) as [server []|e []] eqn:Hnew.
    + pose proof (dispatch_defaults request _ _ server
                    (handler_options request) Hnew) as (Ht & Hh & Hmeth & Hp).
      destruct (ProxyServer_new_returned _ _ _ _ Hnew) as (Hm & Hb).
      assert (Hbuf : is_Some (buffer (dispatch server (handler_options request))) <->
                     body_method = true /\ carries_body (req_payload request) = true).
      { unfold dispatch. cbn [buffer handler_options]. rewrite Hm.
        subst body_method. destruct (is_POST_or_PUT _) eqn:E.
        - rewrite andb_true_r.
          destruct (req_payload request) as [|s|stream|bytes|v| | | | |];
            cbn in Hb; try discriminate Hb; injection Hb as <-; cbn [truthy carries_body].
          + rewrite bool_decide_eq_true_2 by reflexivity. cbn.
            split; [intros [? [=]]|intros [_ [=]]].
          + destruct (negb _); split; eauto; [intros [? [=]]|intros [_ [=]]].
          + split; eauto.
          + destruct (negb _); split; eauto; [intros [? [=]]|intros [_ [=]]].
          + rewrite bool_decide_eq_false_2 by apply JSON_stringify_nonempty.
            split; eauto.
        - rewrite andb_false_r. split; [intros [? [=]]|intros [[=] _]]. }
      eexists. split; [reflexivity|].
      rewrite Ht, Hh, Hmeth, Hp.
      cbn [handler_options opt_target opt_headers opt_method opt_path default].
      do 10 (split; [reflexivity|]). exact Hbuf.
    + exfalso. apply Hok. revert Hnew. unfold ProxyServer_new, bind.
      fold body_method. destruct body_method; [|discriminate].
      destruct (req_payload request); cbn; try discriminate; auto.
Qed.

End Dispatching.

(** * The tracers *)

Section Tracers.

Implicit Types (lib : ZipkinLibrary) (clock : nat -> Z) (s : Tracing) (req : ClientRequest) (res : IncomingMessage)
  (p : Lifecycle) (d : ResponseDetails).

Ltac tracer_run :=
  unfold tagged, ZipkinTracerImpl.logZipkinData, ZipkinTracerImpl.record, console_log,
    bind, gets, modify, ret, throw, set_printed, set_recorded, set_zipkin, set_given;
  cbn [zipkin recorded given printed readings this_traceId current_id draws console
       map fmap option_fmap option_map];
  rewrite <- ?app_assoc; cbn [app].

Lemma stamp_details_run clock p s :
  stamp_details clock (assign_time p) s =
  Returned tt
    match given s with
    | Some d =>
        {| zipkin := zipkin s; recorded := recorded s;
           given := Some (stamped p (clock (readings s)) d);
           printed := printed s; readings := S (readings s) |}
    | None => s
    end.
Proof. unfold stamp_details, bind, gets. destruct (given s); reflexivity. Qed.

Lemma report_run headline label field s :
  report headline label field s =
  Returned tt
    (set_printed
       (printed s ++
        headline ::
        match given s with
        | Some d =>
            status_line (statusCode d) (statusMessage d) ::
            match timings d with
            | Some t => [duration_line label (minus (field t) (startTime t))]
            | None => []
            end
        | None => []
        end) s).
Proof.
  unfold report, console_log, bind, gets, modify, ret. cbn [given set_printed printed].
  destruct (given s) as [d|]; [|reflexivity].
  destruct (timings d); cbn [printed set_printed];
    rewrite <- ?app_assoc; reflexivity.
Qed.

Lemma console_hook_run clock p req res s :
  hook_of p (consoleTracer clock) req res s =
  Returned tt
    {| zipkin := zipkin s;
       recorded := recorded s;
       given := stamped p (clock (readings s)) <$> given s;
       printed :=
         printed s ++
         match p with
         | first_byte => [first_byte_line (url req)]
         | response_end =>
             ended_line (url req) ::
             match given s with
             | Some d =>
                 [ status_line (statusCode d) (statusMessage d);
                   duration_line "[END]"
                     (minus (Some (clock (readings s)))
                            (startTime (default no_timings (timings d)))) ]
             | None => []
             end
         | connection_close =>
             closed_line (url req) ::
             match given s with
             | Some d =>
                 [ status_line (statusCode d) (statusMessage d);
                   duration_line "[CLOSE] "
                     (minus (Some (clock (readings s)))
                            (startTime (default no_timings (timings d)))) ]
             | None => []
             end
         end;
       readings := if given s is Some _ then S (readings s) else readings s |}.
Proof.
  destruct p; cbn [hook_of consoleTracer first_byte_hook end_hook close_hook].
  - unfold ConsoleTracer.onFirstByteReceived, bind.
    rewrite (stamp_details_run clock first_byte).
    destruct s as [z r [d|] l n]; reflexivity.
  - unfold ConsoleTracer.onEnd, bind.
    rewrite (stamp_details_run clock response_end), report_run.
    destruct s as [z r [d|] l n]; reflexivity.
  - unfold ConsoleTracer.onClose, bind.
    rewrite (stamp_details_run clock connection_close), report_run.
    destruct s as [z r [d|] l n]; reflexivity.
Qed.

(** X18.  A hook of the console tracer never throws and touches nothing
    of the zipkin tracer.  Of the details it changes one thing: it sets
    the timing of its lifecycle point to a new reading of the clock,
    creating the timings when there are none; status code, status message
    and the other timings stay.  Without details it takes no reading. *)
Theorem console_tracer_stamps_one_timing clock p req res s :
  exists s',
    hook_of p (consoleTracer clock) req res s = Returned tt s' /\
    zipkin s' = zipkin s /\
    recorded s' = recorded s /\
    given s' = stamped p (clock (readings s)) <$> given s /\
    readings s' = (if given s is Some _ then S (readings s) else readings s) /\
    (forall d, given s = Some d ->
       exists d' t',
         given s' = Some d' /\ timings d' = Some t' /\
         statusCode d' = statusCode d /\ statusMessage d' = statusMessage d /\
         let t := default no_timings (timings d) in
         startTime t' = startTime t /\
         firstByteTime t' = (if p is first_byte then Some (clock (readings s)) else firstByteTime t) /\
         endTime t' = (if p is response_end then Some (clock (readings s)) else endTime t) /\
         closeTime t' = (if p is connection_close then Some (clock (readings s)) else closeTime t)).
Proof.
  rewrite console_hook_run. eexists. split; [reflexivity|]. cbn [zipkin recorded given readings].
  repeat split.
  intros d ->. exists (stamped p (clock (readings s)) d).
  eexists. split; [reflexivity|]. split; [reflexivity|].
  destruct p; repeat split.
Qed.

(** X19.  At the end and at the close the console tracer prints the
    headline with the request's url and, when it was passed details, the
    status as the details hold it and the time from the start to the
    reading it has just taken; that duration is not a number exactly when
    the details hold no start time.  Without details it prints the
    headline alone. *)
Theorem console_tracer_reports_time_since_start clock req res s :
  let now := clock (readings s) in
  let since_start d := (fun start => (now - start)%Z) <$> (timings d ≫= startTime) in
  let lines d label :=
    [ status_line (statusCode d) (statusMessage d); duration_line label (since_start d) ] in
  printed (state_of (ConsoleTracer.onEnd clock req res s)) =
    printed s ++ ended_line (url req) ::
      match given s with Some d => lines d "[END]" | None => [] end /\
  printed (state_of (ConsoleTracer.onClose clock req res s)) =
    printed s ++ closed_line (url req) ::
      match given s with Some d => lines d "[CLOSE] " | None => [] end /\
  forall d, given s = Some d ->
    (since_start d = None <-> timings d ≫= startTime = None).
Proof.
  intros now since_start lines. split; [|split].
  - pose proof (console_hook_run clock response_end req res s) as H.
    cbn [hook_of consoleTracer end_hook] in H. rewrite H. cbn [state_of printed].
    destruct (given s) as [d|]; [|reflexivity].
    subst lines since_start now. cbn beta.
    destruct (timings d) as [[[start|] ? ? ?]|]; reflexivity.
  - pose proof (console_hook_run clock connection_close req res s) as H.
    cbn [hook_of consoleTracer close_hook] in H. rewrite H. cbn [state_of printed].
    destruct (given s) as [d|]; [|reflexivity].
    subst lines since_start now. cbn beta.
    destruct (timings d) as [[[start|] ? ? ?]|]; reflexivity.
  - intros d _. subst since_start. cbn beta.
    destruct (timings d ≫= startTime); cbn; split; congruence.
Qed.

Lemma createOrContinueTrace_adopts lib headers (z : Zipkin) :
  exists id n,
    createOrContinueTrace lib headers z =
    Returned tt {| this_traceId := Some id; current_id := Some id;
                   draws := n; console := console z ++ [id] |}.
Proof.
  unfold createOrContinueTrace.
  destruct (nonempty (headers !! "x-b3-traceid")), (nonempty (headers !! "x-b3-spanid"));
    eexists _, _; reflexivity.
Qed.

Lemma zipkin_first_byte_run lib clock req res s :
  exists id n,
    ZipkinTracerImpl.onFirstByteReceived lib clock req res s =
    Returned tt
      {| zipkin := {| this_traceId := Some id; current_id := Some id;
                      draws := n; console := console (zipkin s) ++ [id] |};
         recorded := recorded s ++
           tagged id [ Rpc "first-byte-received"; BinaryAnnotation "http.url" (url req);
                       ClientSend; Message "First byte received" ];
         given := stamped first_byte (clock (readings s)) <$> given s;
         printed := printed s ++
           [ first_byte_line (url req);
             zipkin_line (traceId id) (spanId id) (parentId id) (sampled id) ];
         readings := if given s is Some _ then S (readings s) else readings s |}.
Proof.
  destruct (createOrContinueTrace_adopts lib (client_headers req) (zipkin s)) as (id & n & Hc).
  exists id, n.
  unfold ZipkinTracerImpl.onFirstByteReceived, ZipkinTracerImpl.on_zipkin, bind at 1.
  rewrite Hc. unfold bind at 1. rewrite (stamp_details_run clock first_byte).
  destruct s as [z r [d|] l k]; tracer_run; reflexivity.
Qed.

(** X20.  The first-byte hook of the zipkin tracer never throws.  It
    leaves the tracer with a trace context, new or continued, that is also
    the zipkin tracer's current one; the four things it records are
    recorded under that context; and it always prints the context after
    the headline. *)
Theorem zipkin_first_byte_starts_trace lib clock req res s :
  exists s' id,
    ZipkinTracerImpl.onFirstByteReceived lib clock req res s = Returned tt s' /\
    this_traceId (zipkin s') = Some id /\
    current_id (zipkin s') = Some id /\
    recorded s' =
      recorded s ++
      tagged id [ Rpc "first-byte-received"; BinaryAnnotation "http.url" (url req);
                  ClientSend; Message "First byte received" ] /\
    printed s' =
      printed s ++
      [ first_byte_line (url req);
        zipkin_line (traceId id) (spanId id) (parentId id) (sampled id) ] /\
    given s' = stamped first_byte (clock (readings s)) <$> given s /\
    readings s' = (if given s is Some _ then S (readings s) else readings s).
Proof.
  destruct (zipkin_first_byte_run lib clock req res s) as (id & n & Hrun).
  eexists _, id. split; [exact Hrun|]. repeat split.
Qed.

Lemma zipkin_hook_run lib clock p req res s id :
  p <> first_byte ->
  this_traceId (zipkin s) = Some id ->
  hook_of p (zipkinTracer lib clock) req res s =
  match res_statusCode res with
  | None => Thrown no_toString (at_status clock p req s id)
  | Some c =>
      Returned tt
        {| zipkin := zipkin (at_status clock p req s id);
           recorded := recorded s ++
             tagged id [ Rpc (if p is response_end then "end" else "close");
                         BinaryAnnotation "http.url" (url req);
                         BinaryAnnotation "http.status_code" (Number_toString c);
                         ClientRecv;
                         Message (if p is response_end then "Response ended"
                                  else "Connection closed") ];
           given := given (at_status clock p req s id);
           printed := printed s ++ reported clock p req s id;
           readings := readings (at_status clock p req s id) |}
  end.
Proof.
  intros Hp Hid. unfold at_status, reported, no_toString.
  destruct p; [congruence| |]; cbn [hook_of zipkinTracer end_hook close_hook].
  - unfold ZipkinTracerImpl.onEnd. unfold bind at 1, gets at 1. rewrite Hid.
    unfold bind at 1, ZipkinTracerImpl.on_zipkin, ZipkinTracerImpl.setId, modify at 1.
    unfold bind at 1. rewrite (stamp_details_run clock response_end).
    unfold ZipkinTracerImpl.statusCode_toString.
    destruct (res_statusCode res) as [c|], s as [z r [d|] l k];
      cbn [zipkin] in Hid; tracer_run; rewrite ?report_run; tracer_run;
      rewrite Hid; reflexivity.
  - unfold ZipkinTracerImpl.onClose. unfold bind at 1, gets at 1. rewrite Hid.
    unfold bind at 1, ZipkinTracerImpl.on_zipkin, ZipkinTracerImpl.setId, modify at 1.
    unfold bind at 1. rewrite (stamp_details_run clock connection_close).
    unfold ZipkinTracerImpl.statusCode_toString.
    destruct (res_statusCode res) as [c|], s as [z r [d|] l k];
      cbn [zipkin] in Hid; tracer_run; rewrite ?report_run; tracer_run;
      rewrite Hid; reflexivity.
Qed.

(** X21.  As long as the tracer has no trace context, its end and close
    hooks return at once and change nothing: no time is stamped, nothing is
    recorded or printed, and a response without status code does no harm. *)
Theorem zipkin_end_and_close_need_a_trace lib clock p req res s :
  p <> first_byte ->
  this_traceId (zipkin s) = None ->
  hook_of p (zipkinTracer lib clock) req res s = Returned tt s.
Proof.
  intros Hp Hid. destruct p; [congruence| |]; cbn [hook_of zipkinTracer end_hook close_hook].
  - unfold ZipkinTracerImpl.onEnd, bind, gets. now rewrite Hid.
  - unfold ZipkinTracerImpl.onClose, bind, gets. now rewrite Hid.
Qed.

Lemma zipkin_end_and_close_need_a_trace_witness :
  let s := state_of (ZipkinTracerImpl.new sample_tracing) in
  hook_of response_end (zipkinTracer counting_library sample_clock) sample_client_request
    {| res_statusCode := None; res_statusMessage := None |} s = Returned tt s.
Proof.
  intros s. apply zipkin_end_and_close_need_a_trace; [discriminate|reflexivity].
Defined.

(** X22.  With a trace context [id] on the tracer and a status code on
    the response, the end and close hooks return.  They make [id] the
    zipkin tracer's current context first, whatever it was, so that the
    five things they record are recorded under [id]; the status code
    recorded is the one of the response; and the context is printed last. *)
Theorem zipkin_end_and_close_record_under_own_trace lib clock p req res s (id : TraceId) (c : Z) :
  p <> first_byte ->
  this_traceId (zipkin s) = Some id ->
  res_statusCode res = Some c ->
  exists s',
    hook_of p (zipkinTracer lib clock) req res s = Returned tt s' /\
    this_traceId (zipkin s') = Some id /\
    current_id (zipkin s') = Some id /\
    recorded s' =
      recorded s ++
      tagged id [ Rpc (if p is response_end then "end" else "close");
                  BinaryAnnotation "http.url" (url req);
                  BinaryAnnotation "http.status_code" (Number_toString c);
                  ClientRecv;
                  Message (if p is response_end then "Response ended"
                           else "Connection closed") ] /\
    given s' = stamped p (clock (readings s)) <$> given s /\
    printed s' = printed s ++ reported clock p req s id /\
    List.last (printed s') (first_byte_line (url req)) =
      zipkin_line (traceId id) (spanId id) (parentId id) (sampled id).
Proof.
  intros Hp Hid Hc. rewrite (zipkin_hook_run lib clock p req res s id Hp Hid), Hc.
  eexists. split; [reflexivity|]. cbn [zipkin recorded given printed at_status this_traceId current_id].
  repeat split.
  unfold reported. rewrite app_comm_cons, app_assoc. apply last_last.
Qed.

Lemma zipkin_end_and_close_record_under_own_trace_witness :
  let res := {| res_statusCode := Some 200%Z; res_statusMessage := Some "OK" |} in
  let s := state_of (ZipkinTracerImpl.onFirstByteReceived counting_library sample_clock
                       sample_client_request res sample_tracing) in
  exists s',
    hook_of connection_close (zipkinTracer counting_library sample_clock)
      sample_client_request res s = Returned tt s' /\
    map snd (recorded s') =
      map snd (recorded s) ++
      [ Rpc "close"; BinaryAnnotation "http.url" "/foo?x=1";
        BinaryAnnotation "http.status_code" "200"; ClientRecv; Message "Connection closed" ] /\
    map fst (recorded s') = map fst (recorded s) ++ replicate 5 (current_id (zipkin s)).
Proof.
  intros res s.
  destruct (zipkin_end_and_close_record_under_own_trace counting_library sample_clock
              connection_close sample_client_request res s
              {| traceId := "0"; spanId := "0"; parentId := None;
                 sampled := Some true; debug := false |} 200)
    as (s' & Hrun & _ & _ & Hrec & _); [discriminate|reflexivity|reflexivity|].
  exists s'. split; [exact Hrun|]. rewrite Hrec, !map_app. split; reflexivity.
Defined.

(** X23.  With a trace context on the tracer and no status code on the
    response, the end and close hooks throw a TypeError half way: the time
    is stamped and two things are recorded by then, but nothing has been
    printed. *)
Theorem zipkin_end_and_close_throw_without_status lib clock p req res s (id : TraceId) :
  p <> first_byte ->
  this_traceId (zipkin s) = Some id ->
  res_statusCode res = None ->
  exists s',
    hook_of p (zipkinTracer lib clock) req res s = Thrown no_toString s' /\
    recorded s' =
      recorded s ++
      tagged id [ Rpc (if p is response_end then "end" else "close");
                  BinaryAnnotation "http.url" (url req) ] /\
    given s' = stamped p (clock (readings s)) <$> given s /\
    printed s' = printed s.
Proof.
  intros Hp Hid Hc. rewrite (zipkin_hook_run lib clock p req res s id Hp Hid), Hc.
  eexists. split; [reflexivity|]. repeat split.
Qed.

Lemma zipkin_end_and_close_throw_without_status_witness :
  let res := {| res_statusCode := None; res_statusMessage := None |} in
  let s := state_of (ZipkinTracerImpl.onFirstByteReceived counting_library sample_clock
                       sample_client_request res sample_tracing) in
  exists s',
    hook_of response_end (zipkinTracer counting_library sample_clock)
      sample_client_request res s = Thrown no_toString s' /\
    length (recorded s') = 6 /\
    printed s' = printed s.
Proof.
  intros res s.
  destruct (zipkin_end_and_close_throw_without_status counting_library sample_clock
              response_end sample_client_request res s
              {| traceId := "0"; spanId := "0"; parentId := None;
                 sampled := Some true; debug := false |})
    as (s' & Hrun & Hrec & _ & Hpr); [discriminate|reflexivity|reflexivity|].
  exists s'. split; [exact Hrun|]. rewrite Hrec. split; [reflexivity|exact Hpr].
Defined.

(** X24.  The tracers in the order the route handler passes them, the
    zipkin tracer first.  At the first byte both hooks run, and the first
    byte time the details end up with is the console tracer's reading, the
    later one.  At the end and at the close, when the response has no
    status code and a trace is under way, the zipkin tracer's error ends
    the round before the console tracer is called: nothing is printed. *)
Theorem console_tracer_runs_after_zipkin_tracer lib clock req res s :
  let tracers := [zipkinTracer lib clock; consoleTracer clock] in
  (exists s',
     round first_byte tracers req res s = Returned tt s' /\
     (forall d, given s = Some d ->
        exists d' t,
          given s' = Some d' /\ timings d' = Some t /\
          firstByteTime t = Some (clock (S (readings s))) /\
          startTime t = timings d ≫= startTime) /\
     exists id, printed s' =
       printed s ++
       [ first_byte_line (url req);
         zipkin_line (traceId id) (spanId id) (parentId id) (sampled id);
         first_byte_line (url req) ]) /\
  (forall p, p <> first_byte ->
     is_Some (this_traceId (zipkin s)) ->
     res_statusCode res = None ->
     exists s',
       round p tracers req res s = Thrown no_toString s' /\
       printed s' = printed s).
Proof.
  intros tracers. split.
  - destruct (zipkin_first_byte_run lib clock req res s) as (id & n & Hrun).
    unfold round, tracers. cbn [forEach hook_of first_byte_hook zipkinTracer].
    unfold bind at 1. rewrite Hrun.
    unfold bind at 1.
    match goal with |- context [first_byte_hook _ req res ?s1] =>
      pose proof (console_hook_run clock first_byte req res s1) as Hc end.
    cbn [hook_of] in Hc. rewrite Hc. unfold ret.
    eexists. split; [reflexivity|]. cbn [given printed readings]. split.
    + intros d Hd. rewrite Hd. cbn [fmap option_fmap option_map].
      eexists _, _. split; [reflexivity|]. split; [reflexivity|].
      split; [reflexivity|]. unfold stamped. cbn [timings]. destruct (timings d); reflexivity.
    + exists id. rewrite <- app_assoc. reflexivity.
  - intros p Hp [id Hid] Hc.
    pose proof (zipkin_hook_run lib clock p req res s id Hp Hid) as Hrun.
    rewrite Hc in Hrun.
    exists (at_status clock p req s id). split; [|reflexivity].
    unfold round, tracers. cbn [forEach]. unfold bind at 1. now rewrite Hrun.
Qed.

End Tracers.
